(** * AB_vector.h: a generic resizable vector for C

    A shallow embedding of the macros and inline functions of
    [AB_vector.h], with the properties of its growth policy, its
    index-based insertion, and its push / pop / copy / resize / destroy
    operations.

    Conventions of the embedding.
    - [AB_VEC_SIZE_T] is an unsigned integer type of [size_bits] bits whose
      rank is at least that of [unsigned int] (the default is [size_t]);
      its values are integers in [[0, 2^size_bits)] and every arithmetic
      operation on it is written with its wrap-around ([wrap]).
    - The vector structure is passed by value and returned: a macro that
      assigns to a field of [*vec] returns the updated record, and the
      assertions [vec != NULL] of the header hold by construction. The
      structure has the [userdata] field of [AB_VEC_INCLUDE_USERDATA];
      without that option the allocator is given [NULL] in its place.
    - The storage lives in a block store indexed by block identifiers; a
      block is a list of cells and a pointer is a block identifier or NULL.
      A byte count is turned into a number of cells by a division by the
      size of an element.
    - [AB_VEC_ASSERT], [AB_VEC_REALLOC] and [AB_VEC_FREE] are configuration
      points of the header; the record [config] fixes them.
      [AB_VEC_SIZE_T_ROUNDUP] is taken at its default. *)

From Stdlib Require Import ZArith Lia.
From stdpp Require Import gmap list.

Local Open Scope Z_scope.

(** ** Outcomes of a C computation *)

Inductive outcome (A : Type) : Type :=
| Ret (a : A)   (* the expression is evaluated to the end *)
| Abort         (* [AB_VEC_ASSERT] was given a false condition and aborted *)
| Undef         (* an access outside a live block: undefined behaviour *)
| Diverge.      (* a loop that never exits *)

Arguments Ret {A} a.
Arguments Abort {A}.
Arguments Undef {A}.
Arguments Diverge {A}.

#[global] Instance outcome_ret : MRet outcome := λ A a, Ret a.

#[global] Instance outcome_bind : MBind outcome := λ A B k c,
  match c with
  | Ret a => k a
  | Abort => Abort
  | Undef => Undef
  | Diverge => Diverge
  end.

(** ** The size type *)

(** [wrap w z] is [z] converted to the [w]-bit unsigned type. *)
Definition wrap (w : positive) (z : Z) : Z := z mod 2 ^ Z.pos w.

Definition in_size_t (w : positive) (z : Z) : Prop := 0 ≤ z < 2 ^ Z.pos w.

(** ** The default round-up function

<<
    AB_VEC_SIZE_T y = 1;
    if (x == 0) return 0;
    while (y <= x) y += y;
    return y;
>>
    The loop is run with fuel; [None] is "no exit within the fuel". *)

Fixpoint roundup_loop (w : positive) (fuel : nat) (x y : Z) : option Z :=
  if y <=? x then
    match fuel with
    | O => None
    | S fuel' => roundup_loop w fuel' x (wrap w (y + y))
    end
  else Some y.

(** After [size_bits] doublings [y] has wrapped to [0] and stays there, so
    that [S size_bits] units of fuel decide whether the loop exits (see
    [roundup_loop_stuck]). *)
Definition AB_vec_roundup_size_t (w : positive) (x : Z) : outcome Z :=
  if x =? 0 then Ret 0
  else match roundup_loop w (S (Pos.to_nat w)) x 1 with
       | Some y => Ret y
       | None => Diverge
       end.

(** Powers of two, as the specification speaks of them. *)
Definition is_pow2 (z : Z) : Prop := ∃ k : Z, 0 ≤ k ∧ z = 2 ^ k.

(** [c] is the smallest power of two that is at least [n]. *)
Definition smallest_pow2_ge (n c : Z) : Prop :=
  is_pow2 c ∧ n ≤ c ∧ ∀ c', is_pow2 c' → n ≤ c' → c ≤ c'.

(** [c] is the smallest power of two strictly above [n]. *)
Definition smallest_pow2_gt (n c : Z) : Prop :=
  is_pow2 c ∧ n < c ∧ ∀ c', is_pow2 c' → n < c' → c ≤ c'.

(** ** Element types, memory and configuration *)

(** What the macros need of the element type [type] of an [AB_vec(type)]:
    the size of an element in bytes, and the integer that a value of the
    type converts to where an expression of that type is read as an [int]
    status. *)
Class CType (T : Type) : Type := { sizeof : positive; as_int : T → Z }.

(** [int] elements, as in the two programs that come with the header. *)
#[global] Instance int_ctype : CType Z := {| sizeof := 4; as_int := λ z, z |}.

(** A pointer to a block: [None] is [NULL]. *)
Definition ptr : Type := option positive.

(** A cell of a block is indeterminate until it is written. *)
Inductive cell (T : Type) : Type :=
| Indet
| Val (x : T).

Arguments Indet {T}.
Arguments Val {T} x.

(** The calls received by the allocator hooks, with their arguments. *)
Inductive event : Type :=
| EvRealloc (p : ptr) (old_size new_size : Z) (ud : Z) (res : ptr)
| EvFree (p : ptr) (size : Z) (ud : Z).

Record mem (T : Type) : Type := Mem {
  heap : gmap positive (list (cell T));
  calls : list event
}.

Arguments Mem {T} heap calls.
Arguments heap {T} m.
Arguments calls {T} m.

(** The configuration points: the width of [AB_VEC_SIZE_T]; whether
    [AB_VEC_ASSERT] aborts on a false condition ([assert], or [my_assert] of
    the second program) or is compiled out ([NDEBUG], or [(void)0] as the
    header suggests for release builds); and when the allocator gives
    memory, from the calls it has received and the number of bytes asked. *)
Record config : Type := Config {
  size_bits : positive;
  assertions : bool;
  alloc_ok : list event → Z → bool
}.

(** <<
    struct { AB_VEC_SIZE_T num, capacity; type *elems; void *userdata; }
>> *)
Record vec : Type := Vec {
  num : Z;
  capacity : Z;
  elems : ptr;
  userdata : Z
}.

(** [AB_VEC_INIT]: [{ 0, 0, NULL, NULL }]. *)
Definition AB_VEC_INIT : vec := Vec 0 0 None 0.

Definition set_num (v : vec) (n : Z) : vec :=
  Vec n (capacity v) (elems v) (userdata v).

Definition set_storage (v : vec) (p : ptr) (c : Z) : vec :=
  Vec (num v) c p (userdata v).

Section Vector.
Context {T : Type} `{CType T}.
Variable cfg : config.

Abbreviation w := (size_bits cfg).
Abbreviation esize := (Z.pos sizeof).

(** [AB_VEC_ASSERT(cond)]. *)
Definition AB_VEC_ASSERT (cond : bool) : outcome unit :=
  if assertions cfg && negb cond then Abort else Ret tt.

(** The cell [p[i]] read and written. *)
Definition load (m : mem T) (p : ptr) (i : Z) : outcome (cell T) :=
  match p with
  | None => Undef
  | Some b =>
      match heap m !! b with
      | None => Undef
      | Some blk =>
          if 0 <=? i then
            match blk !! Z.to_nat i with
            | Some c => Ret c
            | None => Undef
            end
          else Undef
      end
  end.

Definition store (m : mem T) (p : ptr) (i : Z) (x : T) : outcome (mem T) :=
  match p with
  | None => Undef
  | Some b =>
      match heap m !! b with
      | None => Undef
      | Some blk =>
          if (0 <=? i) && (i <? Z.of_nat (length blk)) then
            Ret (Mem (<[b := <[Z.to_nat i := Val x]> blk]> (heap m)) (calls m))
          else Undef
      end
  end.

(** The block a pointer given to the allocator points to. *)
Definition block_at (m : mem T) (p : ptr) : outcome (list (cell T)) :=
  match p with
  | None => Ret []
  | Some b => match heap m !! b with
              | Some blk => Ret blk
              | None => Undef
              end
  end.

Definition release (p : ptr) (h : gmap positive (list (cell T)))
  : gmap positive (list (cell T)) :=
  match p with
  | None => h
  | Some b => delete b h
  end.

(** The whole cells that [bytes] bytes hold. *)
Definition cells_of (bytes : Z) : nat := Z.to_nat (bytes / esize).

(** [n] cells that start with those of [old]. *)
Definition regrow (old : list (cell T)) (n : nat) : list (cell T) :=
  take n old ++ replicate (n - length old) Indet.

(** [realloc(ptr, 0)] on a pointer that is not [NULL]: the block is freed
    and the result is [NULL] (C90 7.10.3.4, and the C library of the two
    programs). *)
Definition realloc_frees (p : ptr) (new_size : Z) : bool :=
  match p with
  | Some _ => new_size =? 0
  | None => false
  end.

(** [AB_VEC_REALLOC(ptr, old_size, new_size, userdata)], by default
    [realloc(ptr, new_size)]. Asked for no byte on a block, it frees the
    block and returns [NULL]. Otherwise, on failure the result is [NULL]
    and the old block is left as it is, and on success the old block is
    released and the result is a new block of [new_size] bytes, which
    starts with the cells of the old one; the cells beyond them are
    indeterminate. On [NULL], a request for no byte is [malloc(0)]: it
    fails, or it gives a block without cells. A pointer that is neither
    [NULL] nor live is an error of the caller. *)
Definition AB_VEC_REALLOC (p : ptr) (old_size new_size ud : Z) (m : mem T)
  : outcome (ptr * mem T) :=
  old ← block_at m p;
  if realloc_frees p new_size then
    Ret (None, Mem (release p (heap m))
                   (calls m ++ [EvRealloc p old_size new_size ud None]))
  else if alloc_ok cfg (calls m) new_size then
    let b' := fresh (dom (heap m)) in
    Ret (Some b',
         Mem (<[b' := regrow old (cells_of new_size)]> (release p (heap m)))
             (calls m ++ [EvRealloc p old_size new_size ud (Some b')]))
  else
    Ret (None, Mem (heap m)
                   (calls m ++ [EvRealloc p old_size new_size ud None])).

(** [AB_VEC_FREE(ptr, size, userdata)], by default [free(ptr)]. *)
Definition AB_VEC_FREE (p : ptr) (size ud : Z) (m : mem T) : outcome (mem T) :=
  match p with
  | None => Ret (Mem (heap m) (calls m ++ [EvFree p size ud]))
  | Some b =>
      match heap m !! b with
      | Some _ => Ret (Mem (delete b (heap m)) (calls m ++ [EvFree p size ud]))
      | None => Undef
      end
  end.

(** The first cell of a block partly overwritten. *)
Definition blur (l : list (cell T)) : list (cell T) :=
  match l with
  | [] => []
  | _ :: l' => Indet :: l'
  end.

(** [memcpy(dst, src, nbytes)]: the [nbytes / sizeof] whole cells are
    copied, and a cell of [dst] that gets the remaining bytes becomes
    indeterminate. Copying no byte does nothing; otherwise both blocks are
    live, distinct, and hold the cells. *)
Definition memcpy (dst src : ptr) (nbytes : Z) (m : mem T) : outcome (mem T) :=
  if nbytes =? 0 then Ret m
  else
    match dst, src with
    | Some d, Some s =>
        match heap m !! d, heap m !! s with
        | Some bd, Some bs =>
            let n := cells_of nbytes in
            if bool_decide (d ≠ s) && (n <=? length bd)%nat && (n <=? length bs)%nat
            then
              let rest := if nbytes mod esize =? 0 then drop n bd
                          else blur (drop n bd) in
              Ret (Mem (<[d := take n bs ++ rest]> (heap m)) (calls m))
            else Undef
        | _, _ => Undef
        end
    | _, _ => Undef
    end.

(** ** The operations of the header *)

(** [AB_vec_destroy(vec)]: the storage and its size in bytes go to
    [AB_VEC_FREE]; no field of the vector is assigned. *)
Definition AB_vec_destroy (v : vec) (m : mem T) : outcome (vec * mem T) :=
  m' ← AB_VEC_FREE (elems v) (wrap w (capacity v * esize)) (userdata v) m;
  Ret (v, m').

(** [AB_vec_at(vec, idx)], read. *)
Definition AB_vec_at (v : vec) (idx : Z) (m : mem T) : outcome (cell T) :=
  load m (elems v) idx.

(** [AB_vec_pop(vec)]:
    [(AB_VEC_ASSERT((vec)->num > 0), (vec)->elems[--(vec)->num])]. *)
Definition AB_vec_pop (v : vec) (m : mem T) : outcome (cell T * vec * mem T) :=
  _ ← AB_VEC_ASSERT (0 <? num v);
  let n := wrap w (num v - 1) in
  c ← load m (elems v) n;
  Ret (c, set_num v n, m).

Definition AB_vec_size (v : vec) : Z := num v.

Definition AB_vec_max (v : vec) : Z := capacity v.

(** [AB_vec_resize_generic(vec, new_size, elem_size)]. *)
Definition AB_vec_resize_generic (v : vec) (new_size : Z) (m : mem T)
  : outcome (Z * vec * mem T) :=
  '(new_elems, m1) ← AB_VEC_REALLOC (elems v) (wrap w (esize * capacity v))
                       (wrap w (esize * new_size)) (userdata v) m;
  _ ← AB_VEC_ASSERT (bool_decide (new_elems ≠ None));
  match new_elems with
  | None => Ret (1, v, m1)
  | Some _ => Ret (0, set_storage v new_elems new_size, m1)
  end.

(** [AB_vec_resize(vec, newsize)]: [newsize] is converted to the size type
    of the parameter. *)
Definition AB_vec_resize (v : vec) (newsize : Z) (m : mem T)
  : outcome (Z * vec * mem T) :=
  AB_vec_resize_generic v (wrap w newsize) m.

(** [AB_vec_copy_generic(dest, src, entry_size)]. *)
Definition AB_vec_copy_generic (dest src : vec) (m : mem T)
  : outcome (Z * vec * mem T) :=
  '(err, dest1, m1) ←
    (if capacity dest <? capacity src
     then AB_vec_resize_generic dest (capacity src) m
     else Ret (0, dest, m));
  _ ← AB_VEC_ASSERT (err =? 0);
  if err =? 0 then
    let dest2 := set_num dest1 (num src) in
    m2 ← memcpy (elems dest2) (elems src) (wrap w (esize * capacity src)) m1;
    Ret (0, dest2, m2)
  else Ret (1, dest1, m1).

Definition AB_vec_copy (dest src : vec) (m : mem T) : outcome (Z * vec * mem T) :=
  AB_vec_copy_generic dest src m.

(** [((vec)->elems[(vec)->num++] = (elem), 0)]. *)
Definition push_slot (v : vec) (elem : T) (m : mem T) : outcome (Z * vec * mem T) :=
  m' ← store m (elems v) (num v) elem;
  Ret (0, set_num v (wrap w (num v + 1)), m').

(** [AB_vec_push(vec, elem)]. *)
Definition AB_vec_push (v : vec) (elem : T) (m : mem T) : outcome (Z * vec * mem T) :=
  if num v =? capacity v then
    '(err, v1, m1) ←
      AB_vec_resize v (if capacity v =? 0 then 2 else Z.shiftl (capacity v) 1) m;
    if err =? 0 then push_slot v1 elem m1 else Ret (1, v1, m1)
  else push_slot v elem m.

(** [AB_vec_insert_generic(vec, idx, elem_size)], with the default
    [AB_VEC_SIZE_T_ROUNDUP]. *)
Definition AB_vec_insert_generic (v : vec) (idx : Z) (m : mem T)
  : outcome (Z * vec * mem T) :=
  '(err, v1, m1) ←
    (if capacity v <=? idx then
       n ← AB_vec_roundup_size_t w (wrap w (idx + 1));
       AB_vec_resize_generic v n m
     else Ret (0, v, m));
  if err =? 0 then
    Ret (0, if num v1 <=? idx then set_num v1 (wrap w (idx + 1)) else v1, m1)
  else Ret (1, v1, m1).

(** [AB_vec_insert(vec, idx, elem)]: the value of the expression is that of
    the assignment [(vec)->elems[(idx)] = (elem)], or [1]. *)
Definition AB_vec_insert (v : vec) (idx : Z) (elem : T) (m : mem T)
  : outcome (Z * vec * mem T) :=
  '(err, v1, m1) ← AB_vec_insert_generic v (wrap w idx) m;
  if err =? 0 then
    m2 ← store m1 (elems v1) idx elem;
    Ret (as_int elem, v1, m2)
  else Ret (1, v1, m1).

(** ** Invariants and runs *)

(** No block holds more cells than the size type counts. *)
Definition heap_wf (m : mem T) : Prop :=
  ∀ b blk, heap m !! b = Some blk → Z.of_nat (length blk) < 2 ^ Z.pos w.

(** The storage of [v] is [NULL] with no capacity, or a live block of the
    [esize * capacity] bytes the vector last asked the allocator for. *)
Definition backed (m : mem T) (v : vec) : Prop :=
  match elems v with
  | None => capacity v = 0
  | Some b => ∃ blk, heap m !! b = Some blk ∧
                     length blk = cells_of (wrap w (esize * capacity v))
  end.

(** The doubling policy, in the words of the specification:
    [new_cap = capacity == 0 ? 2 : capacity * 2]. *)
Definition doubled (c : Z) : Z := if c =? 0 then 2 else 2 * c.

(** The states of a vector that is only pushed to: empty with no capacity,
    or with a capacity [2^j] of the size type, [j >= 1], that the length has
    reached beyond its half unless [j = 1]. *)
Definition doubling_inv (v : vec) : Prop :=
  (num v = 0 ∧ capacity v = 0) ∨
  (∃ j, 1 ≤ j ∧ capacity v = 2 ^ j ∧ in_size_t w (capacity v) ∧
        1 ≤ num v ≤ 2 ^ j ∧ (j = 1 ∨ 2 ^ (j - 1) < num v)).

(** [pushes v m xs v' m']: the elements [xs] are pushed in turn, from the
    state [(v, m)] to the state [(v', m')], and every push reports [0]. *)
Inductive pushes : vec → mem T → list T → vec → mem T → Prop :=
| pushes_nil v m : pushes v m [] v m
| pushes_cons v m x xs v1 m1 v' m' :
    AB_vec_push v x m = Ret (0, v1, m1) →
    pushes v1 m1 xs v' m' →
    pushes v m (x :: xs) v' m'.

End Vector.

(** ** The rest of the header *)

(** [AB_vec_init(vec)]: every field is assigned; nothing is released. *)
Definition AB_vec_init (v : vec) : vec := Vec 0 0 None 0.

(** [AB_vec_userdata(vec)], read, and assigned to as an lvalue. *)
Definition AB_vec_userdata (v : vec) : Z := userdata v.

Definition AB_vec_userdata_set (v : vec) (ud : Z) : vec :=
  Vec (num v) (capacity v) (elems v) ud.

(** The address of a cell: a block and an index in it. *)
Definition slot : Type := positive * Z.

Section VectorRest.
Context {T : Type} `{CType T}.
Variable cfg : config.

(** [AB_vec_at(vec, idx) = elem]: the assignment through the lvalue. *)
Definition AB_vec_at_set (v : vec) (idx : Z) (elem : T) (m : mem T)
  : outcome (mem T) :=
  store m (elems v) idx elem.

(** [&p[i]]: the address of a cell of a live block, or of its end. *)
Definition addr_of (m : mem T) (p : ptr) (i : Z) : outcome slot :=
  match p with
  | None => Undef
  | Some b =>
      match heap m !! b with
      | None => Undef
      | Some blk =>
          if (0 <=? i) && (i <=? Z.of_nat (length blk)) then Ret (b, i)
          else Undef
      end
  end.

(** [*a = elem] and [*a], for an address [a]. *)
Definition store_slot (m : mem T) (a : slot) (elem : T) : outcome (mem T) :=
  store m (Some a.1) a.2 elem.

Definition load_slot (m : mem T) (a : slot) : outcome (cell T) :=
  load m (Some a.1) a.2.

(** [&(vec)->elems[(vec)->num++]]. *)
Definition pushp_slot (v : vec) (m : mem T)
  : outcome (option slot * vec * mem T) :=
  a ← addr_of m (elems v) (num v);
  Ret (Some a, set_num v (wrap (size_bits cfg) (num v + 1)), m).

(** [AB_vec_pushp(vec)]: the address of the new slot, or [NULL]. *)
Definition AB_vec_pushp (v : vec) (m : mem T)
  : outcome (option slot * vec * mem T) :=
  if num v =? capacity v then
    '(err, v1, m1) ←
      AB_vec_resize cfg v
        (if capacity v =? 0 then 2 else Z.shiftl (capacity v) 1) m;
    if err =? 0 then pushp_slot v1 m1 else Ret (None, v1, m1)
  else pushp_slot v m.

(** The loop of the two programs that empties a vector,
<<
    while (AB_vec_size(&vec) > 0) { val = AB_vec_pop(&vec); ... }
>>
    with the values popped, in the order of the loop. [None] is "no exit
    within the fuel". *)
Fixpoint drain_loop (fuel : nat) (v : vec) (m : mem T)
  : option (outcome (list (cell T) * vec * mem T)) :=
  if 0 <? AB_vec_size v then
    match fuel with
    | O => None
    | S fuel' =>
        match AB_vec_pop cfg v m with
        | Ret (c, v1, m1) =>
            match drain_loop fuel' v1 m1 with
            | Some (Ret (cs, v2, m2)) => Some (Ret (c :: cs, v2, m2))
            | r => r
            end
        | Abort => Some Abort
        | Undef => Some Undef
        | Diverge => Some Diverge
        end
    end
  else Some (Ret ([], v, m)).

(** The vector is within its data model: its storage is the block of its
    capacity, its length is within its capacity, and its capacity is a
    value of the size type. *)
Definition vec_ok (m : mem T) (v : vec) : Prop :=
  backed cfg m v ∧ 0 ≤ num v ≤ capacity v ∧ in_size_t (size_bits cfg) (capacity v).

End VectorRest.

(** ** The hooks of the second program *)

(** [my_assert(cond)]: [if (!cond) abort();]. *)
Definition my_assert (cond : bool) : outcome unit :=
  if cond then Ret tt else Abort.

(** [my_roundup], on [unsigned short]: the operands of [|] and [>>] are
    promoted to [int], and every assignment converts back to 16 bits.
<<
    x--;
    x |= x >> 1;  x |= x >> 2;  x |= x >> 4;  x |= x >> 8;
    x++;
    return x;
>> *)
Definition my_roundup (x : Z) : Z :=
  let x := wrap 16 (x - 1) in
  let x := wrap 16 (Z.lor x (Z.shiftr x 1)) in
  let x := wrap 16 (Z.lor x (Z.shiftr x 2)) in
  let x := wrap 16 (Z.lor x (Z.shiftr x 4)) in
  let x := wrap 16 (Z.lor x (Z.shiftr x 8)) in
  wrap 16 (x + 1).

(** [memset((char * )p + off, 0, n)] on a block of [int]: a cell whose
    four bytes are all set is [0], a cell that is set in part is
    indeterminate, the others are as they were. The bytes are those of the
    cells of a live block. *)
Definition zero_cells (blk : list (cell Z)) (off n : Z) : list (cell Z) :=
  imap (λ i c, let lo := 4 * Z.of_nat i in
               if (off <=? lo) && (lo + 4 <=? off + n) then Val 0
               else if (lo <? off + n) && (off <? lo + 4) then Indet
               else c) blk.

Definition memset_zero (p : ptr) (off n : Z) (m : mem Z) : outcome (mem Z) :=
  match p with
  | None => Undef
  | Some b =>
      match heap m !! b with
      | None => Undef
      | Some blk =>
          if (0 <=? off) && (0 <=? n) && (off + n <=? 4 * Z.of_nat (length blk))
          then Ret (Mem (<[b := zero_cells blk off n]> (heap m)) (calls m))
          else Undef
      end
  end.

(** [my_realloc(ptr, old_size, new_size, userdata)]: [realloc], the line
    that is printed (the call recorded), and the bytes from [old_size] on
    set to zero when the size grows; the result of [realloc] is not
    tested before it is written through.
<<
    void *new_ptr = realloc(ptr, new_size);
    fprintf(stderr, ...);
    if (new_size > old_size)
        memset((char * )new_ptr + old_size, 0x0, new_size - old_size);
    return new_ptr;
>> *)
Definition my_realloc (cfg : config) (p : ptr) (old_size new_size ud : Z)
  (m : mem Z) : outcome (ptr * mem Z) :=
  '(new_ptr, m1) ← AB_VEC_REALLOC cfg p old_size new_size ud m;
  if old_size <? new_size then
    m2 ← memset_zero new_ptr old_size (new_size - old_size) m1;
    Ret (new_ptr, m2)
  else Ret (new_ptr, m1).

(** [my_free(ptr, size, userdata)]: the line printed, and [free(ptr)]. *)
Definition my_free (cfg : config) (p : ptr) (size ud : Z) (m : mem Z)
  : outcome (mem Z) :=
  AB_VEC_FREE p size ud m.

(** ** The header with other hooks

    The functions of the header that the second program reaches first,
    with the configuration points as parameters: [AB_VEC_ASSERT],
    [AB_VEC_REALLOC], [AB_VEC_SIZE_T_ROUNDUP], and the product
    [elem_size * n] as the size type computes it. *)
Record hooks (T : Type) : Type := Hooks {
  hk_assert : bool → outcome unit;
  hk_realloc : ptr → Z → Z → Z → mem T → outcome (ptr * mem T);
  hk_roundup : Z → outcome Z;
  hk_bytes : Z → Z
}.

Arguments Hooks {T} hk_assert hk_realloc hk_roundup hk_bytes.
Arguments hk_assert {T} h cond.
Arguments hk_realloc {T} h p old_size new_size ud m.
Arguments hk_roundup {T} h x.
Arguments hk_bytes {T} h n.

Section Hooked.
Context {T : Type} `{CType T}.
Variable wbits : positive.
Variable hk : hooks T.

Definition resize_generic_with (v : vec) (new_size : Z) (m : mem T)
  : outcome (Z * vec * mem T) :=
  '(new_elems, m1) ← hk_realloc hk (elems v) (hk_bytes hk (capacity v))
                       (hk_bytes hk new_size) (userdata v) m;
  _ ← hk_assert hk (bool_decide (new_elems ≠ None));
  match new_elems with
  | None => Ret (1, v, m1)
  | Some _ => Ret (0, set_storage v new_elems new_size, m1)
  end.

Definition insert_generic_with (v : vec) (idx : Z) (m : mem T)
  : outcome (Z * vec * mem T) :=
  '(err, v1, m1) ←
    (if capacity v <=? idx then
       n ← hk_roundup hk (wrap wbits (idx + 1));
       resize_generic_with v n m
     else Ret (0, v, m));
  if err =? 0 then
    Ret (0, if num v1 <=? idx then set_num v1 (wrap wbits (idx + 1)) else v1, m1)
  else Ret (1, v1, m1).

Definition insert_with (v : vec) (idx : Z) (elem : T) (m : mem T)
  : outcome (Z * vec * mem T) :=
  '(err, v1, m1) ← insert_generic_with v (wrap wbits idx) m;
  if err =? 0 then
    m2 ← store m1 (elems v1) idx elem;
    Ret (as_int elem, v1, m2)
  else Ret (1, v1, m1).

End Hooked.

(** The hooks of the header as it is. *)
Definition default_hooks {T : Type} `{CType T} (cfg : config) : hooks T :=
  Hooks (AB_VEC_ASSERT cfg) (AB_VEC_REALLOC cfg)
        (AB_vec_roundup_size_t (size_bits cfg))
        (λ n, wrap (size_bits cfg) (Z.pos sizeof * n)).

(** The hooks of the second program, where [AB_VEC_SIZE_T] is [unsigned
    short]: the operands of [elem_size * n] are promoted to [int], and the
    product of the size of an [int] and a value of 16 bits is exact. *)
Definition second_hooks (cfg : config) : hooks Z :=
  Hooks my_assert (my_realloc cfg) (λ x, Ret (my_roundup x)) (λ n, 4 * n).

(** [y'] has a bit at [i] exactly when [y] has one at [i], ..., [i+n-1]:
    what the steps [x |= x >> k] of [my_roundup] build up. *)
Definition smear_inv (y y' n : Z) : Prop :=
  ∀ i, 0 ≤ i →
       Z.testbit y' i = true ↔ ∃ d, 0 ≤ d < n ∧ Z.testbit y (i + d) = true.

(** The userdata that a call to the allocator has been given. *)
Definition event_ud (e : event) : Z :=
  match e with
  | EvRealloc _ _ _ ud _ => ud
  | EvFree _ _ ud => ud
  end.

(** From [(v, m)] to [(v', m')] the userdata of the vector is kept, and
    the allocator has only received calls that carry it. *)
Definition userdata_frame {T : Type} (v : vec) (m : mem T) (v' : vec) (m' : mem T)
  : Prop :=
  userdata v' = userdata v ∧
  ∃ evs, calls m' = calls m ++ evs ∧ Forall (λ e, event_ud e = userdata v) evs.

(** The memory [m] is the heap [h0] and, when the vector [v] has storage,
    one more block, which is that storage. *)
Definition owns {T : Type} (h0 : gmap positive (list (cell T))) (m : mem T)
  (v : vec) : Prop :=
  match elems v with
  | None => heap m = h0
  | Some b => h0 !! b = None ∧ ∃ blk, heap m = <[b := blk]> h0
  end.

(** ** Configurations of the examples *)

(** A 64-bit [size_t], [assert] active, an allocator that always gives
    memory: the header as it is, on a machine with memory. *)
Definition cfg_default : config := Config 64 true (λ _ _, true).

(** The same with the assertions compiled out. *)
Definition cfg_release : config := Config 64 false (λ _ _, true).

(** An allocator that never gives memory, with and without assertions. *)
Definition cfg_oom : config := Config 64 true (λ _ _, false).

Definition cfg_release_oom : config := Config 64 false (λ _ _, false).

(** The memory before anything is allocated. *)
Definition mem_empty : mem Z := Mem ∅ [].

(** A list of elements pushed in turn, whatever each push reports, and
    [n] elements popped in turn. *)
Fixpoint push_list (cfg : config) (xs : list Z) (v : vec) (m : mem Z)
  : outcome (vec * mem Z) :=
  match xs with
  | [] => Ret (v, m)
  | x :: xs' => '(_, v1, m1) ← AB_vec_push cfg v x m; push_list cfg xs' v1 m1
  end.

Fixpoint pop_list (cfg : config) (n : nat) (v : vec) (m : mem Z)
  : outcome (list (cell Z) * vec) :=
  match n with
  | O => Ret ([], v)
  | S n' => '(c, v1, m1) ← AB_vec_pop cfg v m;
            '(cs, v2) ← pop_list cfg n' v1 m1;
            Ret (c :: cs, v2)
  end.

(** The state after [10, 11] have been pushed onto [AB_VEC_INIT] in
    [mem_empty]. *)
Definition vec2 : vec := Vec 2 2 (Some 1%positive) 0.

Definition mem2 : mem Z :=
  Mem {[ 1%positive := [Val 10; Val 11] ]}
      [EvRealloc None 0 8 0 (Some 1%positive)].

(** The state after [10, 11, 12, 13, 14] have been pushed: length 5,
    capacity 8. *)
Definition vec5 : vec := Vec 5 8 (Some 3%positive) 0.

Definition mem5 : mem Z :=
  Mem {[ 3%positive :=
           [Val 10; Val 11; Val 12; Val 13; Val 14; Indet; Indet; Indet] ]}
      [EvRealloc None 0 8 0 (Some 1%positive);
       EvRealloc (Some 1%positive) 8 16 0 (Some 2%positive);
       EvRealloc (Some 2%positive) 16 32 0 (Some 3%positive)].

(** The state after [AB_vec_insert(vec, 19, elem)] on [AB_VEC_INIT] in
    [mem_empty]: length 20, capacity 32. *)
Definition vec20 : vec := Vec 20 32 (Some 1%positive) 0.

Definition mem20 (elem : Z) : mem Z :=
  Mem {[ 1%positive := <[19%nat := Val elem]> (replicate 32 Indet) ]}
      [EvRealloc None 0 128 0 (Some 1%positive)].

(** * Properties *)

(** ** Arithmetic of the size type *)

Lemma wrap_small w z : in_size_t w z → wrap w z = z.
Proof. intros H. unfold wrap. apply Z.mod_small. exact H. Qed.

Lemma wrap_range w z : in_size_t w (wrap w z).
Proof.
  unfold in_size_t, wrap. apply Z.mod_pos_bound.
  apply Z.pow_pos_nonneg; lia.
Qed.

Lemma pow2_pos k : 0 ≤ k → 0 < 2 ^ k.
Proof. intros. apply Z.pow_pos_nonneg; lia. Qed.

Lemma pow2_double k : 0 ≤ k → 2 ^ k + 2 ^ k = 2 ^ (k + 1).
Proof. intros. rewrite Z.pow_add_r by lia. change (2 ^ 1) with 2. lia. Qed.

Lemma pow2_lt_mono j k : 0 ≤ j → j < k → 2 ^ j < 2 ^ k.
Proof. intros. apply Z.pow_lt_mono_r; lia. Qed.

Lemma pow2_le_mono j k : 0 ≤ j → j ≤ k → 2 ^ j ≤ 2 ^ k.
Proof. intros. apply Z.pow_le_mono_r; lia. Qed.

(** Between [2^k] and [2^(k+1)] there is no power of two. *)
Lemma pow2_gap k c : 0 ≤ k → is_pow2 c → 2 ^ k < c → 2 ^ (k + 1) ≤ c.
Proof.
  intros Hk (j & Hj & ->) Hlt.
  destruct (Z_lt_le_dec k j) as [Hkj|Hjk].
  - apply pow2_le_mono; lia.
  - pose proof (pow2_le_mono j k Hj Hjk). lia.
Qed.

(** ** The round-up loop *)

(** Once [y] is [0] the loop cannot exit on a value of the size type. *)
Lemma roundup_loop_zero w fuel x : 0 ≤ x → roundup_loop w fuel x 0 = None.
Proof.
  intros Hx. induction fuel as [|fuel IH]; simpl.
  - destruct (0 <=? x) eqn:E; [reflexivity | lia].
  - destruct (0 <=? x) eqn:E; [| lia].
    change (wrap w (0 + 0)) with (wrap w 0). unfold wrap.
    rewrite Z.mod_0_l; [exact IH |].
    pose proof (pow2_pos (Z.pos w)). lia.
Qed.

(** More fuel does not change a result. *)
Lemma roundup_loop_more w fuel x y r :
  roundup_loop w fuel x y = Some r → roundup_loop w (S fuel) x y = Some r.
Proof.
  revert y. induction fuel as [|fuel IH]; intros y; simpl.
  - destruct (y <=? x); [discriminate | trivial].
  - destruct (y <=? x); [| trivial]. intros H. apply IH in H. exact H.
Qed.

Lemma roundup_loop_mono w fuel fuel' x y r :
  (fuel ≤ fuel')%nat →
  roundup_loop w fuel x y = Some r → roundup_loop w fuel' x y = Some r.
Proof.
  induction 1 as [|n Hle IH]; [trivial |].
  intros H. apply roundup_loop_more, IH, H.
Qed.

(** From [y = 2^k] the loop exits within [d] iterations, provided that
    [x < 2^(k+d)] and that [2^(k+d)] is a value of the size type; it exits
    on [2^j], the first power from [2^k] on that is above [x]. *)
Lemma roundup_loop_exit w (d : nat) : ∀ k x,
  0 ≤ k → x < 2 ^ (k + Z.of_nat d) → k + Z.of_nat d < Z.pos w →
  ∃ j, k ≤ j ∧ roundup_loop w d x (2 ^ k) = Some (2 ^ j) ∧
       x < 2 ^ j ∧ (j = k ∨ 2 ^ (j - 1) ≤ x).
Proof.
  induction d as [|d IH]; intros k x Hk Hx Hw.
  - exists k. simpl. replace (k + Z.of_nat 0) with k in Hx by lia.
    destruct (2 ^ k <=? x) eqn:E; [lia |]. repeat split; auto; lia.
  - simpl. destruct (2 ^ k <=? x) eqn:E.
    + apply Z.leb_le in E.
      rewrite pow2_double by lia.
      rewrite wrap_small.
      2:{ split; [pose proof (pow2_pos (k + 1)); lia |].
          apply pow2_lt_mono; lia. }
      destruct (IH (k + 1) x) as (j & Hj & Hrun & Hlt & Hmin); [lia | | lia |].
      { replace (k + 1 + Z.of_nat d) with (k + Z.of_nat (S d)) by lia. exact Hx. }
      exists j. repeat split; [lia | exact Hrun | exact Hlt |].
      right. destruct Hmin as [-> | Hmin]; [| exact Hmin].
      replace (k + 1 - 1) with k by lia. exact E.
    + apply Z.leb_gt in E. exists k. repeat split; auto; lia.
Qed.

(** From [y = 2^k] with [k < size_bits], the loop never exits when
    [2^(size_bits-1) <= x]: [y] climbs to [2^(size_bits-1)], wraps to [0]
    and stays there. *)
Lemma roundup_loop_climb w (d : nat) : ∀ k x fuel,
  0 ≤ k → k + Z.of_nat d = Z.pos w - 1 → 2 ^ (Z.pos w - 1) ≤ x →
  roundup_loop w fuel x (2 ^ k) = None.
Proof.
  induction d as [|d IH]; intros k x fuel Hk Hd Hx.
  - replace k with (Z.pos w - 1) by lia.
    destruct fuel as [|fuel]; simpl;
      (destruct (2 ^ (Z.pos w - 1) <=? x) eqn:E; [| lia]); [reflexivity |].
    rewrite pow2_double by lia.
    replace (Z.pos w - 1 + 1) with (Z.pos w) by lia.
    unfold wrap. rewrite Z.mod_same by (pose proof (pow2_pos (Z.pos w)); lia).
    apply roundup_loop_zero. pose proof (pow2_pos (Z.pos w - 1)). lia.
  - assert (2 ^ k ≤ x).
    { pose proof (pow2_le_mono k (Z.pos w - 1)). lia. }
    destruct fuel as [|fuel]; simpl;
      (destruct (2 ^ k <=? x) eqn:E; [| lia]); [reflexivity |].
    rewrite pow2_double by lia.
    rewrite wrap_small.
    2:{ split; [pose proof (pow2_pos (k + 1)); lia |].
        apply pow2_lt_mono; lia. }
    apply IH; lia.
Qed.

Lemma pos_pred_nat (w : positive) : Z.of_nat (Pos.to_nat w - 1) = Z.pos w - 1.
Proof. lia. Qed.

(** The result of the default round-up function on [0 < x < 2^(size_bits-1)]. *)
Lemma roundup_exits w x :
  0 < x → x < 2 ^ (Z.pos w - 1) →
  ∃ j, 1 ≤ j ≤ Z.pos w - 1 ∧ AB_vec_roundup_size_t w x = Ret (2 ^ j) ∧
       2 ^ (j - 1) ≤ x < 2 ^ j.
Proof.
  intros H0 Hx.
  destruct (roundup_loop_exit w (Pos.to_nat w - 1) 0 x) as (j & Hj & Hrun & Hlt & Hmin).
  { lia. } { rewrite pos_pred_nat. exact Hx. } { rewrite pos_pred_nat. lia. }
  assert (j ≠ 0) as Hj0.
  { intros ->. change (2 ^ 0) with 1 in Hlt. lia. }
  destruct Hmin as [-> | Hmin]; [lia |].
  exists j. split; [| split; [| lia]].
  - split; [lia |].
    destruct (Z_lt_le_dec (Z.pos w - 1) j) as [Hbig|]; [| lia].
    pose proof (pow2_le_mono (Z.pos w - 1) (j - 1)). lia.
  - unfold AB_vec_roundup_size_t.
    destruct (x =? 0) eqn:E; [lia |].
    change (2 ^ 0) with 1 in Hrun.
    assert (Pos.to_nat w - 1 ≤ S (Pos.to_nat w))%nat as Hfuel by lia.
    rewrite (roundup_loop_mono w _ _ _ _ _ Hfuel Hrun). reflexivity.
Qed.

(** On [2^(size_bits-1) <= x] the loop has no exit, whatever the fuel, and
    the function is modelled by [Diverge]. *)
Lemma roundup_diverges w x :
  2 ^ (Z.pos w - 1) ≤ x →
  AB_vec_roundup_size_t w x = Diverge ∧ ∀ fuel, roundup_loop w fuel x 1 = None.
Proof.
  intros Hx.
  assert (∀ fuel, roundup_loop w fuel x 1 = None) as Hstuck.
  { intros fuel. change 1 with (2 ^ 0).
    apply (roundup_loop_climb w (Pos.to_nat w - 1)); [lia | lia | exact Hx]. }
  split; [| exact Hstuck].
  unfold AB_vec_roundup_size_t.
  pose proof (pow2_pos (Z.pos w - 1)).
  destruct (x =? 0) eqn:E; [lia |]. rewrite Hstuck. reflexivity.
Qed.

(** The fuel of [AB_vec_roundup_size_t] is enough: when the loop has not
    exited within it, it never does. *)
Lemma roundup_loop_stuck w x :
  0 ≤ x → roundup_loop w (S (Pos.to_nat w)) x 1 = None →
  ∀ fuel, roundup_loop w fuel x 1 = None.
Proof.
  intros Hx Hnone.
  destruct (Z_lt_le_dec x (2 ^ (Z.pos w - 1))) as [Hsmall|Hbig].
  - destruct (Z.eq_dec x 0) as [->|Hne]; [discriminate Hnone |].
    destruct (roundup_exits w x) as (j & _ & Hrun & _); [lia | lia |].
    unfold AB_vec_roundup_size_t in Hrun.
    destruct (x =? 0) eqn:E; [lia |]. rewrite Hnone in Hrun. discriminate Hrun.
  - apply roundup_diverges, Hbig.
Qed.

(** ** The round-up policy *)

Lemma pow2_lt_inv j k : 0 ≤ j → 0 ≤ k → 2 ^ j < 2 ^ k → j < k.
Proof.
  intros Hj Hk Hlt. destruct (Z_lt_le_dec j k) as [|Hle]; [assumption |].
  pose proof (pow2_le_mono k j Hk Hle). lia.
Qed.

Lemma roundup_result_gt x j :
  0 ≤ j - 1 → 2 ^ (j - 1) ≤ x < 2 ^ j → smallest_pow2_gt x (2 ^ j).
Proof.
  intros Hj [Hlo Hhi]. split; [| split].
  - exists j. split; [lia | reflexivity].
  - exact Hhi.
  - intros c' Hc' Hx.
    replace j with (j - 1 + 1) by lia. apply pow2_gap; [lia | exact Hc' | lia].
Qed.

(** [roundup(2^j) = 2^(j+1)]: a power of two is not a fixed point. *)
Lemma roundup_pow2 w j :
  0 ≤ j → j < Z.pos w - 1 → AB_vec_roundup_size_t w (2 ^ j) = Ret (2 ^ (j + 1)).
Proof.
  intros Hj Hw.
  destruct (roundup_exits w (2 ^ j)) as (j' & Hj' & Hrun & Hlo & Hhi).
  { apply pow2_pos, Hj. } { apply pow2_lt_mono; lia. }
  rewrite Hrun. f_equal. f_equal.
  apply pow2_lt_inv in Hhi; [| lia | lia].
  destruct (Z_lt_le_dec (j + 1) j') as [Hbig|]; [| lia].
  pose proof (pow2_lt_mono j (j' - 1)). lia.
Qed.

(** C2, as stated, fails at [x = 1] (with a 64-bit [size_t]): the result is
    [2], which is not the smallest power of two that is at least [1], and
    rounding the result up again gives [4]. *)
Lemma roundup_one_counterexample :
  AB_vec_roundup_size_t 64 1 = Ret 2 ∧
  ¬ smallest_pow2_ge 1 2 ∧
  (y ← AB_vec_roundup_size_t 64 1; AB_vec_roundup_size_t 64 y) = Ret 4 ∧
  (y ← AB_vec_roundup_size_t 64 1; AB_vec_roundup_size_t 64 y)
    ≠ AB_vec_roundup_size_t 64 1.
Proof.
  split; [reflexivity |]. split; [| split; [reflexivity | discriminate]].
  intros (_ & _ & Hmin).
  assert (is_pow2 1) as H1 by (exists 0; split; [lia | reflexivity]).
  specialize (Hmin 1 H1). lia.
Qed.

(** C2 (amended): the default round-up function returns [0] on [0]; on
    [0 < x < 2^(size_bits-1)] it returns the smallest power of two strictly
    above [x], a value of the size type that is at least [x]; rounding its
    own output up again changes nothing at [x = 0] and doubles the output
    for [0 < x < 2^(size_bits-2)]; and from [2^(size_bits-1)] on its loop
    never exits. *)
Theorem roundup_default w x :
  AB_vec_roundup_size_t w 0 = Ret 0 ∧
  (0 < x < 2 ^ (Z.pos w - 1) →
   ∃ r, AB_vec_roundup_size_t w x = Ret r ∧
        smallest_pow2_gt x r ∧ x ≤ r ∧ in_size_t w r) ∧
  (y ← AB_vec_roundup_size_t w 0; AB_vec_roundup_size_t w y)
    = AB_vec_roundup_size_t w 0 ∧
  (0 < x < 2 ^ (Z.pos w - 2) →
   ∃ r, AB_vec_roundup_size_t w x = Ret r ∧
        AB_vec_roundup_size_t w r = Ret (2 * r)) ∧
  (2 ^ (Z.pos w - 1) ≤ x → AB_vec_roundup_size_t w x = Diverge).
Proof.
  split; [reflexivity |]. split; [| split; [reflexivity | split]].
  - intros [H0 Hx].
    destruct (roundup_exits w x H0 Hx) as (j & Hj & Hrun & Hlo & Hhi).
    exists (2 ^ j). split; [exact Hrun |]. split; [| split].
    + apply roundup_result_gt; lia.
    + lia.
    + split; [pose proof (pow2_pos j); lia | apply pow2_lt_mono; lia].
  - intros [H0 Hx].
    assert (0 ≤ Z.pos w - 2) as Hw.
    { destruct (Z_lt_le_dec (Z.pos w - 2) 0) as [Hneg|]; [| lia].
      rewrite Z.pow_neg_r in Hx by exact Hneg. lia. }
    assert (x < 2 ^ (Z.pos w - 1)) as Hx'.
    { pose proof (pow2_lt_mono (Z.pos w - 2) (Z.pos w - 1)). lia. }
    destruct (roundup_exits w x H0 Hx') as (j & Hj & Hrun & Hlo & Hhi).
    exists (2 ^ j). split; [exact Hrun |].
    assert (j - 1 < Z.pos w - 2) as Hjw.
    { apply pow2_lt_inv; lia. }
    rewrite roundup_pow2 by lia.
    f_equal. rewrite <- pow2_double by lia. lia.
  - intros Hx. apply roundup_diverges, Hx.
Qed.

Lemma roundup_default_witness :
  ∃ r, AB_vec_roundup_size_t 64 20 = Ret r ∧
       smallest_pow2_gt 20 r ∧ 20 ≤ r ∧ in_size_t 64 r.
Proof.
  apply (roundup_default 64 20). split; reflexivity.
Defined.

(** ** Outcomes *)

Lemma bind_ret_inv {A B : Type} (c : outcome A) (k : A → outcome B) (b : B) :
  c ≫= k = Ret b → ∃ a, c = Ret a ∧ k a = Ret b.
Proof. destruct c as [a| | |]; simpl; [eauto | discriminate..]. Qed.

Ltac inv_bind H :=
  let a := fresh "a" in
  let Hc := fresh "Hc" in
  apply bind_ret_inv in H as (a & Hc & H).

Section VectorFacts.
Context {T : Type} `{CType T}.
Variable cfg : config.

Abbreviation w := (size_bits cfg).
Abbreviation esize := (Z.pos sizeof).

Lemma assert_ret (c : bool) (u : unit) :
  AB_VEC_ASSERT cfg c = Ret u → assertions cfg = false ∨ c = true.
Proof.
  unfold AB_VEC_ASSERT. destruct (assertions cfg), c; simpl; auto; discriminate.
Qed.

Lemma assert_true : AB_VEC_ASSERT cfg true = Ret tt.
Proof. unfold AB_VEC_ASSERT. rewrite andb_false_r. reflexivity. Qed.

(** *** Blocks *)

Lemma regrow_length (old : list (cell T)) n : length (regrow old n) = n.
Proof.
  unfold regrow. rewrite length_app, length_take, length_replicate. lia.
Qed.

Lemma regrow_lookup (old : list (cell T)) n i c :
  (i < n)%nat → old !! i = Some c → regrow old n !! i = Some c.
Proof.
  intros Hi Hc. unfold regrow.
  pose proof (lookup_lt_Some _ _ _ Hc) as Hlen.
  rewrite lookup_app_l by (rewrite length_take; lia).
  rewrite lookup_take_lt by lia. exact Hc.
Qed.

Lemma cells_of_le bytes n : 0 ≤ bytes → bytes ≤ esize * n → Z.of_nat (cells_of bytes) ≤ n.
Proof.
  intros H0 Hle. unfold cells_of.
  rewrite Z2Nat.id by (apply Z.div_pos; lia).
  apply Z.div_le_upper_bound; lia.
Qed.

(** A block of [wrap (esize * n)] bytes holds at most [n] cells, and fewer
    than the size type counts. *)
Lemma cells_of_wrap_le n : 0 ≤ n → Z.of_nat (cells_of (wrap w (esize * n))) ≤ n.
Proof.
  intros Hn. pose proof (wrap_range w (esize * n)) as [Hlo Hhi].
  apply cells_of_le; [exact Hlo |].
  unfold wrap. apply Z.mod_le; [lia |]. apply pow2_pos. lia.
Qed.

Lemma cells_of_wrap_lt z : Z.of_nat (cells_of (wrap w z)) < 2 ^ Z.pos w.
Proof.
  pose proof (wrap_range w z) as [Hlo Hhi].
  pose proof (cells_of_le (wrap w z) (wrap w z) Hlo). nia.
Qed.

Lemma cells_of_exact n :
  0 ≤ n → esize * n < 2 ^ Z.pos w → cells_of (wrap w (esize * n)) = Z.to_nat n.
Proof.
  intros Hn Hfit. rewrite wrap_small by (split; lia).
  unfold cells_of. f_equal. rewrite Z.mul_comm. apply Z.div_mul. lia.
Qed.

(** *** Loads and stores *)

Lemma load_ret (m : mem T) p i c :
  load m p i = Ret c →
  ∃ b blk, p = Some b ∧ heap m !! b = Some blk ∧ 0 ≤ i ∧
           blk !! Z.to_nat i = Some c.
Proof.
  unfold load. destruct p as [b|]; [| discriminate].
  destruct (heap m !! b) as [blk|] eqn:Hb; [| discriminate].
  destruct (0 <=? i) eqn:Hi; [| discriminate].
  destruct (blk !! Z.to_nat i) as [c'|] eqn:Hc; [| discriminate].
  intros [= <-]. exists b, blk. repeat split; auto. lia.
Qed.

Lemma load_intro (m : mem T) b blk i c :
  heap m !! b = Some blk → 0 ≤ i → blk !! Z.to_nat i = Some c →
  load m (Some b) i = Ret c.
Proof.
  intros Hb Hi Hc. unfold load. rewrite Hb.
  destruct (0 <=? i) eqn:E; [| lia]. rewrite Hc. reflexivity.
Qed.

Lemma store_ret (m m' : mem T) p i x :
  store m p i x = Ret m' →
  ∃ b blk, p = Some b ∧ heap m !! b = Some blk ∧
           0 ≤ i < Z.of_nat (length blk) ∧
           m' = Mem (<[b := <[Z.to_nat i := Val x]> blk]> (heap m)) (calls m).
Proof.
  unfold store. destruct p as [b|]; [| discriminate].
  destruct (heap m !! b) as [blk|] eqn:Hb; [| discriminate].
  destruct ((0 <=? i) && (i <? Z.of_nat (length blk))) eqn:Hi; [| discriminate].
  intros [= <-]. apply andb_true_iff in Hi as [H0 H1].
  exists b, blk. repeat split; auto; lia.
Qed.

(** The cell just stored is read back. *)
Lemma load_store_same (m m' : mem T) p i x :
  store m p i x = Ret m' → load m' p i = Ret (Val x).
Proof.
  intros Hst. apply store_ret in Hst as (b & blk & -> & Hb & Hi & ->).
  eapply load_intro; simpl.
  - apply lookup_insert_eq.
  - lia.
  - apply list_lookup_insert_eq. lia.
Qed.

(** The other cells of the block are as before. *)
Lemma load_store_other (m m' : mem T) p i j x :
  store m p i x = Ret m' → i ≠ j → load m' p j = load m p j.
Proof.
  intros Hst Hij. apply store_ret in Hst as (b & blk & -> & Hb & Hi & ->).
  unfold load; simpl. rewrite lookup_insert_eq, Hb.
  destruct (0 <=? j) eqn:Hj; [| reflexivity].
  rewrite list_lookup_insert_ne by lia. reflexivity.
Qed.

Lemma store_heap_wf (m m' : mem T) p i x :
  store m p i x = Ret m' → heap_wf cfg m → heap_wf cfg m'.
Proof.
  intros Hst Hwf. apply store_ret in Hst as (b & blk & -> & Hb & Hi & ->).
  intros b' blk'. simpl. rewrite lookup_insert.
  destruct (decide (b = b')) as [<-|Hne]; simpl.
  - intros [= <-]. rewrite length_insert. eapply Hwf, Hb.
  - apply Hwf.
Qed.

(** *** The allocator *)

Lemma realloc_ret p os ns ud (m : mem T) q m' :
  AB_VEC_REALLOC cfg p os ns ud m = Ret (q, m') →
  ∃ old, block_at m p = Ret old ∧
    ((realloc_frees p ns = false ∧ alloc_ok cfg (calls m) ns = true ∧
      q = Some (fresh (dom (heap m))) ∧
      m' = Mem (<[fresh (dom (heap m)) := regrow old (cells_of ns)]>
                  (release p (heap m)))
               (calls m ++ [EvRealloc p os ns ud q])) ∨
     (q = None ∧
      (realloc_frees p ns = true ∨ alloc_ok cfg (calls m) ns = false) ∧
      m' = Mem (if realloc_frees p ns then release p (heap m) else heap m)
               (calls m ++ [EvRealloc p os ns ud None]))).
Proof.
  unfold AB_VEC_REALLOC. intros Hr. inv_bind Hr. exists a. split; [exact Hc |].
  destruct (realloc_frees p ns); [injection Hr as <- <-; auto |].
  destruct (alloc_ok cfg (calls m) ns); injection Hr as <- <-; auto.
Qed.

(** The allocator returns [NULL]: for no byte asked on a block, which is
    then freed, or for want of memory, and then no block changes. *)
Lemma realloc_null p os ns ud (m : mem T) old :
  block_at m p = Ret old →
  realloc_frees p ns = true ∨ alloc_ok cfg (calls m) ns = false →
  AB_VEC_REALLOC cfg p os ns ud m
  = Ret (None, Mem (if realloc_frees p ns then release p (heap m) else heap m)
                   (calls m ++ [EvRealloc p os ns ud None])).
Proof.
  intros Hold Hnull. unfold AB_VEC_REALLOC. rewrite Hold. simpl.
  destruct (realloc_frees p ns); [reflexivity |].
  destruct Hnull as [Hf | ->]; [discriminate | reflexivity].
Qed.

(** What the heap keeps of a block when a block is released. *)
Lemma release_lookup p (h : gmap positive (list (cell T))) b blk :
  release p h !! b = Some blk → h !! b = Some blk.
Proof.
  destruct p as [b0|]; simpl; [| auto].
  rewrite lookup_delete. destruct (decide (b0 = b)); [discriminate | auto].
Qed.

Lemma fresh_block_free (m : mem T) : heap m !! fresh (dom (heap m)) = None.
Proof. apply not_elem_of_dom, is_fresh. Qed.

(** A block other than the one given to the allocator, and live before the
    call, is the same after it. *)
Lemma realloc_other p os ns ud (m : mem T) q m' b blk :
  AB_VEC_REALLOC cfg p os ns ud m = Ret (q, m') →
  heap m !! b = Some blk → p ≠ Some b → heap m' !! b = Some blk.
Proof.
  intros Hr Hb Hp.
  assert (release p (heap m) !! b = Some blk) as Hrel.
  { destruct p as [b0|]; simpl; [| exact Hb].
    rewrite lookup_delete_ne by congruence. exact Hb. }
  apply realloc_ret in Hr as (old & Hold & [(_ & _ & -> & ->)|(-> & _ & ->)]);
    simpl.
  - rewrite lookup_insert_ne; [exact Hrel |].
    intros Heq. pose proof (fresh_block_free m) as Hf. rewrite Heq, Hb in Hf.
    discriminate.
  - destruct (realloc_frees p ns); [exact Hrel | exact Hb].
Qed.

(** *** [AB_vec_resize_generic] *)

(** Success: the storage is the new block and the capacity the new size. *)
Lemma resize_generic_ok v n (m : mem T) v' m' :
  AB_vec_resize_generic cfg v n m = Ret (0, v', m') →
  ∃ old, block_at m (elems v) = Ret old ∧
    alloc_ok cfg (calls m) (wrap w (esize * n)) = true ∧
    v' = set_storage v (Some (fresh (dom (heap m)))) n ∧
    heap m' = <[fresh (dom (heap m)) :=
                  regrow old (cells_of (wrap w (esize * n)))]>
                (release (elems v) (heap m)) ∧
    calls m' = calls m ++
      [EvRealloc (elems v) (wrap w (esize * capacity v)) (wrap w (esize * n))
         (userdata v) (Some (fresh (dom (heap m))))].
Proof.
  unfold AB_vec_resize_generic. intros Hr. inv_bind Hr. destruct a as [q m1].
  inv_bind Hr.
  apply realloc_ret in Hc as (old & Hold & [(_ & Hok & -> & ->)|(-> & _ & ->)]).
  - injection Hr as <- <-. exists old. auto.
  - discriminate Hr.
Qed.

(** Failure is reported by [1] when the assertion is compiled out. The
    fields of the vector are then as before, and so is every block,
    unless the request was for no byte on a vector with storage: then the
    storage has been freed. *)
Lemma resize_generic_fail v n (m : mem T) r v' m' :
  AB_vec_resize_generic cfg v n m = Ret (r, v', m') → r ≠ 0 →
  r = 1 ∧ v' = v ∧
  heap m' = (if realloc_frees (elems v) (wrap w (esize * n))
             then release (elems v) (heap m) else heap m) ∧
  assertions cfg = false ∧
  (realloc_frees (elems v) (wrap w (esize * n)) = true ∨
   alloc_ok cfg (calls m) (wrap w (esize * n)) = false).
Proof.
  unfold AB_vec_resize_generic. intros Hr Hne. inv_bind Hr. destruct a as [q m1].
  inv_bind Hr.
  apply realloc_ret in Hc as (old & Hold & [(_ & Hok & -> & ->)|(-> & Hno & ->)]).
  - injection Hr as <- <-. congruence.
  - injection Hr as <- <- <-. apply assert_ret in Hc0 as [Hoff|Hc0]; [auto |].
    rewrite bool_decide_eq_true in Hc0. congruence.
Qed.

(** The allocator returning [NULL] in [AB_vec_resize_generic]. *)
Lemma resize_generic_null v n (m : mem T) old :
  block_at m (elems v) = Ret old →
  realloc_frees (elems v) (wrap w (esize * n)) = true ∨
  alloc_ok cfg (calls m) (wrap w (esize * n)) = false →
  ∃ m', heap m' = (if realloc_frees (elems v) (wrap w (esize * n))
                   then release (elems v) (heap m) else heap m) ∧
        calls m' = calls m ++
          [EvRealloc (elems v) (wrap w (esize * capacity v))
             (wrap w (esize * n)) (userdata v) None] ∧
        AB_vec_resize_generic cfg v n m
        = if assertions cfg then Abort else Ret (1, v, m').
Proof.
  intros Hold Hnull. unfold AB_vec_resize_generic.
  rewrite (realloc_null _ _ _ _ _ _ Hold Hnull). simpl.
  eexists (Mem _ _). split; [reflexivity |]. split; [reflexivity |].
  unfold AB_VEC_ASSERT. destruct (assertions cfg); reflexivity.
Qed.

Lemma resize_generic_status v n (m : mem T) r v' m' :
  AB_vec_resize_generic cfg v n m = Ret (r, v', m') → r = 0 ∨ r = 1.
Proof.
  intros Hr. destruct (Z.eq_dec r 0) as [|Hne]; [auto |].
  right. eapply resize_generic_fail; eauto.
Qed.

Lemma resize_generic_heap_wf v n (m : mem T) r v' m' :
  AB_vec_resize_generic cfg v n m = Ret (r, v', m') →
  heap_wf cfg m → heap_wf cfg m'.
Proof.
  intros Hr Hwf. destruct (Z.eq_dec r 0) as [->|Hne].
  - apply resize_generic_ok in Hr as (old & Hold & _ & _ & Hheap & _).
    intros b blk. rewrite Hheap, lookup_insert.
    destruct (decide (fresh (dom (heap m)) = b)) as [_|_]; simpl.
    + intros [= <-]. rewrite regrow_length. apply cells_of_wrap_lt.
    + destruct (elems v) as [b0|]; simpl; [| apply Hwf].
      rewrite lookup_delete. destruct (decide (b0 = b)); [discriminate | apply Hwf].
  - apply resize_generic_fail in Hr as (_ & _ & Hheap & _); [| exact Hne].
    intros b blk. rewrite Hheap.
    destruct (realloc_frees _ _); [| apply Hwf].
    intros Hb. eapply Hwf, release_lookup, Hb.
Qed.

(** *** Explicit resize *)

(** C8: a successful [AB_vec_resize(vec, new_capacity)] sets the capacity to
    exactly [new_capacity] and leaves the length as it was, also when
    [new_capacity] is below the length: the vector is then left with its
    length above its capacity. *)
Theorem resize_sets_capacity v n (m : mem T) v' m' :
  in_size_t w n →
  AB_vec_resize cfg v n m = Ret (0, v', m') →
  capacity v' = n ∧ num v' = num v ∧ (n < num v → num v' > capacity v').
Proof.
  intros Hn Hr. unfold AB_vec_resize in Hr. rewrite wrap_small in Hr by exact Hn.
  apply resize_generic_ok in Hr as (old & _ & _ & -> & _). simpl.
  repeat split; auto. lia.
Qed.

(** *** Release *)

(** C7 (amended): [AB_vec_destroy], on a vector whose storage is [NULL] or
    live, hands the storage pointer and its size in bytes (with the
    userdata) to the release function of the allocator, which frees the
    block; it assigns no field of the vector, which keeps its length, its
    capacity and its storage pointer. *)
Theorem destroy_releases v (m : mem T) old :
  block_at m (elems v) = Ret old →
  ∃ m', AB_vec_destroy cfg v m = Ret (v, m') ∧
        calls m' = calls m ++
          [EvFree (elems v) (wrap w (capacity v * esize)) (userdata v)] ∧
        heap m' = release (elems v) (heap m).
Proof.
  intros Hold. unfold AB_vec_destroy, AB_VEC_FREE.
  unfold block_at in Hold. destruct (elems v) as [b|]; simpl.
  - destruct (heap m !! b) as [blk|]; [| discriminate]. simpl. eauto.
  - eauto.
Qed.

(** *** Pop *)

(** Without the assertion, [AB_vec_pop] on [AB_VEC_INIT] reads through
    [NULL]: no value is returned either. *)
Lemma pop_init_no_value (m : mem T) r : AB_vec_pop cfg AB_VEC_INIT m ≠ Ret r.
Proof.
  unfold AB_vec_pop, AB_VEC_ASSERT. simpl.
  destruct (assertions cfg); simpl; discriminate.
Qed.

(** On a vector that is not empty the assertion of [AB_vec_pop] holds in
    every configuration. *)
Lemma pop_nonempty_no_abort v (m : mem T) :
  0 < num v → AB_vec_pop cfg v m ≠ Abort.
Proof.
  intros Hpos. unfold AB_vec_pop, AB_VEC_ASSERT.
  destruct (0 <? num v) eqn:E; [| lia]. rewrite andb_false_r. simpl.
  unfold load. destruct (elems v) as [b|]; [| discriminate].
  destruct (heap m !! b) as [blk|]; [| discriminate].
  destruct (0 <=? wrap w (num v - 1)); [| discriminate].
  destruct (blk !! Z.to_nat (wrap w (num v - 1))); discriminate.
Qed.

(** C9: with [AB_VEC_ASSERT] active, [AB_vec_pop] on an empty vector, and so
    on [AB_VEC_INIT], stops on the assertion; on [AB_VEC_INIT] it returns
    no value in any configuration; and on a vector that is not empty the
    assertion does not fire. *)
Theorem pop_empty_aborts v (m : mem T) :
  (assertions cfg = true → num v = 0 → AB_vec_pop cfg v m = Abort) ∧
  (assertions cfg = true → AB_vec_pop cfg AB_VEC_INIT m = Abort) ∧
  (∀ r, AB_vec_pop cfg AB_VEC_INIT m ≠ Ret r) ∧
  (0 < num v → AB_vec_pop cfg v m ≠ Abort).
Proof.
  split; [| split; [| split]].
  - intros Hon Hz. unfold AB_vec_pop, AB_VEC_ASSERT. rewrite Hon, Hz. reflexivity.
  - intros Hon. unfold AB_vec_pop, AB_VEC_ASSERT. rewrite Hon. reflexivity.
  - intros r. apply pop_init_no_value.
  - apply pop_nonempty_no_abort.
Qed.

(** *** Insertion at an index *)

Lemma insert_generic_ret v idx (m : mem T) r v' m' :
  AB_vec_insert_generic cfg v idx m = Ret (r, v', m') →
  (r = 0 ∧ ∃ v1,
     v' = (if num v1 <=? idx then set_num v1 (wrap w (idx + 1)) else v1) ∧
     ((idx < capacity v ∧ v1 = v ∧ m' = m) ∨
      (capacity v ≤ idx ∧ ∃ n,
         AB_vec_roundup_size_t w (wrap w (idx + 1)) = Ret n ∧
         AB_vec_resize_generic cfg v n m = Ret (0, v1, m')))) ∨
  (r = 1 ∧ capacity v ≤ idx ∧ ∃ n,
     AB_vec_roundup_size_t w (wrap w (idx + 1)) = Ret n ∧
     AB_vec_resize_generic cfg v n m = Ret (1, v', m')).
Proof.
  unfold AB_vec_insert_generic. intros Hi. inv_bind Hi.
  destruct a as [[err v1] m1].
  destruct (capacity v <=? idx) eqn:Hcap.
  - apply Z.leb_le in Hcap. inv_bind Hc. rename a into n.
    pose proof (resize_generic_status _ _ _ _ _ _ Hc) as [-> | ->]; simpl in Hi;
      injection Hi as <- <- <-.
    + left. split; [reflexivity |]. exists v1. split; [reflexivity |].
      right. split; [exact Hcap |]. exists n. auto.
    + right. split; [reflexivity |]. split; [exact Hcap |]. exists n. auto.
  - apply Z.leb_gt in Hcap. injection Hc as <- <- <-. simpl in Hi.
    injection Hi as <- <- <-.
    left. split; [reflexivity |]. exists v. split; [reflexivity |]. left. auto.
Qed.

Lemma insert_generic_status v idx (m : mem T) r v' m' :
  AB_vec_insert_generic cfg v idx m = Ret (r, v', m') → r = 0 ∨ r = 1.
Proof. intros Hi. apply insert_generic_ret in Hi as [[-> _] | [-> _]]; auto. Qed.

(** A failure of [AB_vec_insert_generic] is the allocator returning [NULL]
    in the growth step, in a configuration without assertions; the fields
    of the vector are then as before, and so are the blocks, unless the
    request was for no byte on a vector with storage, which has then been
    freed. *)
Lemma insert_generic_fail v idx (m : mem T) r v' m' :
  AB_vec_insert_generic cfg v idx m = Ret (r, v', m') → r ≠ 0 →
  r = 1 ∧ v' = v ∧ assertions cfg = false ∧
  capacity v ≤ idx ∧
  ∃ n, AB_vec_roundup_size_t w (wrap w (idx + 1)) = Ret n ∧
       (realloc_frees (elems v) (wrap w (esize * n)) = true ∨
        alloc_ok cfg (calls m) (wrap w (esize * n)) = false) ∧
       heap m' = (if realloc_frees (elems v) (wrap w (esize * n))
                  then release (elems v) (heap m) else heap m).
Proof.
  intros Hi Hne.
  apply insert_generic_ret in Hi as [(-> & _) | (-> & Hcap & n & Hround & Hr)];
    [congruence |].
  apply resize_generic_fail in Hr as (_ & -> & Hheap & Hoff & Hno); [| lia].
  repeat split; auto. exists n. auto.
Qed.

(** C10: the value of a [AB_vec_insert] expression is that of the element
    assigned when [AB_vec_insert_generic] has reported success, after the
    store of the element, and [1] when it has reported failure, which is
    the allocator returning [NULL] in the growth step: for want of memory,
    with the vector and every block as they were, or for a request of no
    byte on a vector with storage, with the fields of the vector as they
    were and the storage freed; so that the value is not [0] for an
    element that converts to an integer other than [0], whatever
    happened, and is [1] in both cases for an element that converts to
    [1]. *)
Theorem insert_value v idx elem (m : mem T) r v' m' :
  in_size_t w idx →
  AB_vec_insert cfg v idx elem m = Ret (r, v', m') →
  ((∃ m1, AB_vec_insert_generic cfg v idx m = Ret (0, v', m1) ∧
          store m1 (elems v') idx elem = Ret m' ∧
          AB_vec_at v' idx m' = Ret (Val elem) ∧
          r = as_int elem) ∨
   (AB_vec_insert_generic cfg v idx m = Ret (1, v', m') ∧ r = 1 ∧
    v' = v ∧
    ∃ n, AB_vec_roundup_size_t w (wrap w (idx + 1)) = Ret n ∧
         (realloc_frees (elems v) (wrap w (esize * n)) = true ∨
          alloc_ok cfg (calls m) (wrap w (esize * n)) = false) ∧
         heap m' = (if realloc_frees (elems v) (wrap w (esize * n))
                    then release (elems v) (heap m) else heap m))) ∧
  (as_int elem ≠ 0 → r ≠ 0) ∧
  (as_int elem = 1 → r = 1).
Proof.
  intros Hidx Hi. unfold AB_vec_insert in Hi. rewrite wrap_small in Hi by exact Hidx.
  inv_bind Hi. destruct a as [[err v1] m1].
  pose proof (insert_generic_status _ _ _ _ _ _ Hc) as [-> | ->]; simpl in Hi.
  - inv_bind Hi. rename a into m2. injection Hi as <- <- <-.
    split; [| split; auto].
    left. exists m1. repeat split; auto.
    unfold AB_vec_at. eapply load_store_same, Hc0.
  - injection Hi as <- <- <-. split; [| split; [lia | auto]].
    right.
    destruct (insert_generic_fail _ _ _ _ _ _ Hc ltac:(lia))
      as (_ & Hv & _ & _ & Hn).
    auto.
Qed.

(** The request of a growth step is for no byte only at the ends of the
    size type: a vector without storage, or a number of bytes that is
    positive and a value of the size type, is served or refused, and not
    freed. *)
Lemma realloc_frees_not p n :
  p = None ∨ 0 < esize * n < 2 ^ Z.pos w →
  realloc_frees p (wrap w (esize * n)) = false.
Proof.
  intros [-> | Hfit]; [reflexivity |].
  unfold realloc_frees. destruct p; [| reflexivity].
  rewrite wrap_small by (split; lia). apply Z.eqb_neq. lia.
Qed.

(** C4 (amended): when the allocator returns [NULL] in the growth step of
    [AB_vec_insert] (the index is not below the capacity, the round-up
    function has returned, the storage is [NULL] or live, and the
    allocator gives no memory or is asked for no byte on a vector with
    storage), then with [AB_VEC_ASSERT] active the assertion of
    [AB_vec_resize_generic] stops the program, and with the assertion
    compiled out the expression reports failure by [1] and the length,
    the capacity and the storage pointer are as before the call. Every
    block, and so every stored element, is as before too when the vector
    has no storage or the request is for a number of bytes that is
    positive and has not wrapped; but a request for no byte on a vector
    with storage (the index is the greatest of the size type, or the
    number of bytes wraps to [0]) has freed the storage, and the elements
    with it. *)
Theorem insert_alloc_failure v idx elem (m : mem T) n old :
  in_size_t w idx →
  capacity v ≤ idx →
  AB_vec_roundup_size_t w (wrap w (idx + 1)) = Ret n →
  block_at m (elems v) = Ret old →
  realloc_frees (elems v) (wrap w (esize * n)) = true ∨
  alloc_ok cfg (calls m) (wrap w (esize * n)) = false →
  ∃ m', calls m' = calls m ++
          [EvRealloc (elems v) (wrap w (esize * capacity v))
             (wrap w (esize * n)) (userdata v) None] ∧
        AB_vec_insert cfg v idx elem m =
          (if assertions cfg then Abort else Ret (1, v, m')) ∧
        (elems v = None ∨ 0 < esize * n < 2 ^ Z.pos w → heap m' = heap m) ∧
        (realloc_frees (elems v) (wrap w (esize * n)) = true →
         heap m' = release (elems v) (heap m) ∧
         ∀ i, AB_vec_at v i m' = Undef).
Proof.
  intros Hidx Hcap Hround Hold Hnull.
  destruct (resize_generic_null v n m old Hold Hnull) as (m' & Hheap & Hcalls & Hr).
  exists m'. split; [exact Hcalls |]. split; [| split].
  - unfold AB_vec_insert, AB_vec_insert_generic.
    rewrite (wrap_small _ _ Hidx).
    destruct (capacity v <=? idx) eqn:E; [| lia].
    rewrite Hround. simpl. rewrite Hr.
    destruct (assertions cfg); reflexivity.
  - intros Hnz. rewrite Hheap, (realloc_frees_not _ _ Hnz). reflexivity.
  - intros Hf. rewrite Hheap, Hf. split; [reflexivity |].
    intros i. unfold AB_vec_at, load. rewrite Hheap, Hf.
    destruct (elems v) as [b|]; [| reflexivity].
    simpl. rewrite lookup_delete_eq. reflexivity.
Qed.

Lemma insert_generic_heap_wf v idx (m : mem T) r v' m' :
  AB_vec_insert_generic cfg v idx m = Ret (r, v', m') →
  heap_wf cfg m → heap_wf cfg m'.
Proof.
  intros Hi Hwf.
  apply insert_generic_ret in Hi
    as [(_ & v1 & _ & [(_ & _ & ->) | (_ & n & _ & Hr)]) | (_ & _ & n & _ & Hr)];
    [exact Hwf | |]; eapply resize_generic_heap_wf; eauto.
Qed.

Lemma insert_generic_num v idx (m : mem T) v' m' :
  AB_vec_insert_generic cfg v idx m = Ret (0, v', m') →
  num v' = if num v <=? idx then wrap w (idx + 1) else num v.
Proof.
  intros Hi.
  apply insert_generic_ret in Hi as [(_ & v1 & -> & Hv1) | (Hr & _)]; [| discriminate].
  assert (num v1 = num v) as Hnum.
  { destruct Hv1 as [(_ & Hv & _) | (_ & n & _ & Hr)]; [rewrite Hv; reflexivity |].
    apply resize_generic_ok in Hr as (old & _ & _ & Hv & _). rewrite Hv. reflexivity. }
  rewrite Hnum. destruct (num v <=? idx); [reflexivity | exact Hnum].
Qed.

(** *** Push and pop *)

Lemma push_slot_ret v x (m : mem T) r v' m' :
  push_slot cfg v x m = Ret (r, v', m') →
  r = 0 ∧ store m (elems v) (num v) x = Ret m' ∧
  v' = set_num v (wrap w (num v + 1)).
Proof.
  unfold push_slot. intros Hp. inv_bind Hp. injection Hp as <- <- <-. auto.
Qed.

(** A successful push either stores in place, or first resizes to the
    capacity of the doubling policy and then stores. *)
Lemma push_ret v x (m : mem T) v' m' :
  AB_vec_push cfg v x m = Ret (0, v', m') →
  ∃ v1 m1,
    store m1 (elems v1) (num v) x = Ret m' ∧
    v' = set_num v1 (wrap w (num v + 1)) ∧
    ((num v ≠ capacity v ∧ v1 = v ∧ m1 = m) ∨
     (num v = capacity v ∧
      AB_vec_resize_generic cfg v
        (wrap w (if capacity v =? 0 then 2 else Z.shiftl (capacity v) 1)) m
        = Ret (0, v1, m1))).
Proof.
  unfold AB_vec_push. intros Hp.
  destruct (num v =? capacity v) eqn:E.
  - apply Z.eqb_eq in E. inv_bind Hp. destruct a as [[err v1] m1].
    unfold AB_vec_resize in Hc.
    pose proof (resize_generic_status _ _ _ _ _ _ Hc) as [-> | ->]; simpl in Hp;
      [| discriminate].
    apply push_slot_ret in Hp as (_ & Hst & ->).
    assert (num v1 = num v) as Hnum.
    { apply resize_generic_ok in Hc as (old & _ & _ & Hv & _). rewrite Hv. reflexivity. }
    rewrite Hnum in *. exists v1, m1.
    split; [exact Hst |]. split; [reflexivity |]. right. split; [exact E | exact Hc].
  - apply Z.eqb_neq in E. apply push_slot_ret in Hp as (_ & Hst & ->).
    exists v, m. split; [exact Hst |]. split; [reflexivity |]. left. auto.
Qed.

Lemma push_heap_wf v x (m : mem T) v' m' :
  AB_vec_push cfg v x m = Ret (0, v', m') → heap_wf cfg m → heap_wf cfg m'.
Proof.
  intros Hp Hwf. apply push_ret in Hp as (v1 & m1 & Hst & _ & Hcase).
  eapply store_heap_wf; [exact Hst |].
  destruct Hcase as [(_ & _ & ->) | (_ & Hr)]; [exact Hwf |].
  eapply resize_generic_heap_wf; eauto.
Qed.

(** The cells of the old block that the new one has room for are read the
    same through the resized vector. *)
Lemma resize_generic_load v n (m : mem T) v' m' i c :
  AB_vec_resize_generic cfg v n m = Ret (0, v', m') →
  load m (elems v) i = Ret c →
  i < Z.of_nat (cells_of (wrap w (esize * n))) →
  load m' (elems v') i = Ret c.
Proof.
  intros Hr Hld Hi.
  apply resize_generic_ok in Hr as (old & Hold & _ & -> & Hheap & _).
  apply load_ret in Hld as (b & blk & Hb & Hblk & H0 & Hc).
  unfold block_at in Hold. rewrite Hb, Hblk in Hold. injection Hold as <-.
  simpl. eapply load_intro; [| exact H0 |].
  - rewrite Hheap. apply lookup_insert_eq.
  - apply regrow_lookup; [lia | exact Hc].
Qed.

(** C5: after a successful [AB_vec_push(vec, v)], [AB_vec_pop(vec)] returns
    [v] and leaves the length, and every element that was stored below
    it, as they were before the push. *)
Theorem push_pop v x (m : mem T) v1 m1 :
  heap_wf cfg m →
  AB_vec_push cfg v x m = Ret (0, v1, m1) →
  ∃ v2, AB_vec_pop cfg v1 m1 = Ret (Val x, v2, m1) ∧
        num v2 = num v ∧
        ∀ i c, 0 ≤ i < num v →
               AB_vec_at v i m = Ret c → AB_vec_at v2 i m1 = Ret c.
Proof.
  intros Hwf Hp.
  pose proof (push_heap_wf _ _ _ _ _ Hp Hwf) as Hwf1.
  apply push_ret in Hp as (v0 & m0 & Hst & -> & Hcase).
  pose proof (load_store_same _ _ _ _ _ Hst) as Hback.
  pose proof Hst as Hst'.
  apply store_ret in Hst' as (b & blk & Hb & Hblk & Hi & Hm1).
  assert (Z.of_nat (length blk) < 2 ^ Z.pos w) as Hlen.
  { assert (heap m1 !! b = Some (<[Z.to_nat (num v) := Val x]> blk)) as Hb1.
    { rewrite Hm1. simpl. apply lookup_insert_eq. }
    apply Hwf1 in Hb1. rewrite length_insert in Hb1. exact Hb1. }
  assert (wrap w (num v + 1) = num v + 1) as Hnum.
  { apply wrap_small. unfold in_size_t. lia. }
  exists (set_num (set_num v0 (wrap w (num v + 1))) (num v)).
  split; [| split; [reflexivity |]].
  - unfold AB_vec_pop, AB_VEC_ASSERT. simpl. rewrite Hnum.
    destruct (0 <? num v + 1) eqn:E; [| lia]. rewrite andb_false_r. simpl.
    replace (num v + 1 - 1) with (num v) by lia.
    rewrite wrap_small by (unfold in_size_t; lia).
    rewrite Hback. reflexivity.
  - intros i c Hrange Hat. unfold AB_vec_at in *. simpl.
    rewrite (load_store_other _ _ _ _ i _ Hst) by lia.
    destruct Hcase as [(_ & -> & ->) | (_ & Hr)]; [exact Hat |].
    eapply resize_generic_load; [exact Hr | exact Hat |].
    apply resize_generic_ok in Hr as (old & _ & _ & Hv0 & Hheap & _).
    rewrite Hv0 in Hb. simpl in Hb. injection Hb as <-.
    rewrite Hheap, lookup_insert_eq in Hblk. injection Hblk as <-.
    rewrite regrow_length in Hi. lia.
Qed.

(** *** The doubling policy *)

Lemma shiftl_1 z : Z.shiftl z 1 = 2 * z.
Proof. rewrite Z.shiftl_mul_pow2 by lia. change (2 ^ 1) with 2. lia. Qed.

(** One successful push: the length grows by one in the size type; when
    the vector was not full the capacity is as before; when it was full the
    capacity is the doubled one, which has not wrapped. *)
Lemma push_step v x (m : mem T) v' m' :
  AB_vec_push cfg v x m = Ret (0, v', m') →
  0 ≤ num v ∧ num v' = wrap w (num v + 1) ∧
  ((num v ≠ capacity v ∧ capacity v' = capacity v) ∨
   (num v = capacity v ∧ capacity v' = doubled (capacity v) ∧
    capacity v < capacity v' ∧ in_size_t w (capacity v'))).
Proof.
  intros Hp. apply push_ret in Hp as (v1 & m1 & Hst & -> & Hcase).
  apply store_ret in Hst as (b & blk & Hb & Hblk & Hi & _).
  split; [lia |]. split; [reflexivity |].
  destruct Hcase as [(Hne & -> & ->) | (Heq & Hr)]; [left; auto |].
  right. split; [exact Heq |].
  apply resize_generic_ok in Hr as (old & _ & _ & Hv1 & Hheap & _).
  rewrite Hv1 in Hb |- *. simpl in Hb |- *. injection Hb as <-.
  rewrite Hheap, lookup_insert_eq in Hblk. injection Hblk as <-.
  rewrite regrow_length in Hi.
  rewrite shiftl_1 in Hi |- *.
  change (if capacity v =? 0 then 2 else 2 * capacity v)
    with (doubled (capacity v)) in Hi |- *.
  set (c := capacity v) in *. set (M := 2 ^ Z.pos w).
  pose proof (wrap_range w (doubled c)) as Hrange.
  pose proof (cells_of_wrap_le (wrap w (doubled c)) (proj1 Hrange)) as Hcells.
  assert (0 < M) as HM by (apply pow2_pos; lia).
  assert (0 ≤ doubled c) as Hd by (unfold doubled; destruct (c =? 0); lia).
  assert (c < wrap w (doubled c)) as Hgrow by lia.
  assert (wrap w (doubled c) = doubled c) as Hexact.
  { destruct (Z_lt_le_dec (doubled c) M) as [Hsmall|Hbig].
    - apply wrap_small. split; assumption.
    - exfalso. unfold wrap, in_size_t in *. fold M in Hgrow, Hrange.
      assert (2 ≤ M) as HM2.
      { pose proof (pow2_le_mono 1 (Z.pos w)). change (2 ^ 1) with 2 in *.
        unfold M. lia. }
      pose proof (Z.div_mod (doubled c) M ltac:(lia)) as Hdm.
      assert (1 ≤ doubled c / M) as Hq by (apply Z.div_le_lower_bound; lia).
      assert (M ≤ M * (doubled c / M)) as HMq by nia.
      unfold doubled in *.
      destruct (c =? 0) eqn:E; [apply Z.eqb_eq in E | apply Z.eqb_neq in E]; lia. }
  rewrite Hexact in *. unfold in_size_t in *. repeat split; auto; lia.
Qed.

Lemma push_doubling_inv v x (m : mem T) v' m' :
  AB_vec_push cfg v x m = Ret (0, v', m') →
  doubling_inv cfg v →
  doubling_inv cfg v' ∧ num v' = num v + 1 ∧ capacity v ≤ capacity v'.
Proof.
  intros Hp Hinv. apply push_step in Hp as (H0 & Hnum & Hcase).
  destruct Hinv as [(Hn & Hc) | (j & Hj & Hc & Hrange & Hn & Hhalf)].
  - destruct Hcase as [(Hne & _) | (_ & Hc' & _ & Hrange')]; [lia |].
    rewrite Hc in Hc'. change (doubled 0) with 2 in Hc'.
    rewrite Hc' in Hrange'. destruct Hrange' as [_ H2].
    assert (num v' = 1) as Hn'.
    { rewrite Hnum, Hn. apply wrap_small. unfold in_size_t. lia. }
    split; [| lia]. right. exists 1. change (2 ^ 1) with 2.
    rewrite Hc', Hn'. unfold in_size_t. repeat split; auto; lia.
  - destruct Hcase as [(Hne & Hc') | (Heq & Hc' & _ & Hrange')].
    + assert (num v' = num v + 1) as Hn'.
      { rewrite Hnum. apply wrap_small. unfold in_size_t in *. lia. }
      split; [| lia]. right. exists j. rewrite Hc', Hn'.
      split; [exact Hj |]. split; [exact Hc |]. split; [exact Hrange |].
      split; [lia |]. destruct Hhalf; [left | right]; lia.
    + assert (capacity v' = 2 ^ (j + 1)) as Hc2.
      { rewrite Hc', Hc. unfold doubled.
        pose proof (pow2_pos j). destruct (2 ^ j =? 0) eqn:E; [lia |].
        rewrite <- pow2_double by lia. lia. }
      pose proof (pow2_double j) as Hdbl.
      assert (num v' = num v + 1) as Hn'.
      { rewrite Hnum. apply wrap_small.
        unfold in_size_t in *. rewrite Hc2 in Hrange'. lia. }
      split; [| lia]. right. exists (j + 1). rewrite Hn'.
      replace (j + 1 - 1) with j by lia.
      split; [lia |]. split; [exact Hc2 |]. split; [exact Hrange' |].
      split; [lia |]. right. lia.
Qed.

(** A run of successful pushes keeps the invariant, adds its length to
    that of the vector, and does not lower the capacity. *)
Lemma pushes_doubling_inv v (m : mem T) xs v' m' :
  pushes cfg v m xs v' m' →
  doubling_inv cfg v →
  doubling_inv cfg v' ∧ num v' = num v + Z.of_nat (length xs) ∧
  capacity v ≤ capacity v'.
Proof.
  induction 1 as [v m | v m x xs v1 m1 v' m' Hp Hrun IH]; intros Hinv.
  - simpl. repeat split; auto; lia.
  - apply push_doubling_inv in Hp as (Hinv1 & Hn1 & Hc1); [| exact Hinv].
    destruct (IH Hinv1) as (Hinv' & Hn' & Hc'). simpl length.
    repeat split; auto; lia.
Qed.

Lemma pushes_app v (m : mem T) xs1 xs2 v' m' :
  pushes cfg v m (xs1 ++ xs2) v' m' →
  ∃ v1 m1, pushes cfg v m xs1 v1 m1 ∧ pushes cfg v1 m1 xs2 v' m'.
Proof.
  revert v m. induction xs1 as [|x xs1 IH]; intros v m Hrun; simpl in Hrun.
  - exists v, m. split; [constructor | exact Hrun].
  - inversion Hrun as [| ? ? ? ? v1 m1 ? ? Hp Hrest]; subst.
    destruct (IH _ _ Hrest) as (v2 & m2 & Hrun1 & Hrun2).
    exists v2, m2. split; [econstructor; eauto | exact Hrun2].
Qed.

Lemma pushes_det v (m : mem T) xs v1 m1 v2 m2 :
  pushes cfg v m xs v1 m1 → pushes cfg v m xs v2 m2 → v1 = v2 ∧ m1 = m2.
Proof.
  intros Hrun1. revert v2 m2.
  induction Hrun1 as [v m | v m x xs va ma v1 m1 Hp Hrun IH]; intros v2 m2 Hrun2.
  - inversion Hrun2; subst. auto.
  - inversion Hrun2 as [| ? ? ? ? vb mb ? ? Hp' Hrest]; subst.
    rewrite Hp in Hp'. injection Hp' as <- <-. apply IH, Hrest.
Qed.

Lemma doubling_inv_capacity v :
  doubling_inv cfg v → 1 ≤ num v →
  smallest_pow2_ge (Z.max 2 (num v)) (capacity v).
Proof.
  intros [(Hn & _) | (j & Hj & Hc & _ & Hn & Hhalf)] Hpos; [lia |].
  rewrite Hc. split; [| split].
  - exists j. split; [lia | reflexivity].
  - pose proof (pow2_le_mono 1 j). change (2 ^ 1) with 2 in *. lia.
  - intros c' Hc' Hle. destruct Hhalf as [-> | Hhalf].
    + change (2 ^ 1) with 2. lia.
    + replace j with (j - 1 + 1) by lia. apply pow2_gap; [lia | exact Hc' | lia].
Qed.

Lemma pushes_snoc v (m : mem T) xs v1 m1 x v2 m2 :
  pushes cfg v m xs v1 m1 →
  AB_vec_push cfg v1 x m1 = Ret (0, v2, m2) →
  pushes cfg v m (xs ++ [x]) v2 m2.
Proof.
  induction 1 as [v m | v m y ys va ma v1 m1 Hp Hrun IH]; intros Hlast; simpl.
  - econstructor; [exact Hlast | constructor].
  - econstructor; [exact Hp | apply IH, Hlast].
Qed.

Lemma doubling_inv_init : doubling_inv cfg AB_VEC_INIT.
Proof. left. split; reflexivity. Qed.

(** C1 (amended): after [N > 0] successful pushes from [AB_VEC_INIT] the
    length is [N] and the capacity is the smallest power of two that is at
    least [max(2, N)]: the smallest power of two that is at least [N] from
    [N = 2] on, and [2] for [N = 1]. At every step of the run the capacity
    does not decrease and stays below the final one, and it changes only
    when the length equals the capacity, to [2] from [0] and to its double
    otherwise. *)
Theorem pushes_capacity xs (m : mem T) v' m' :
  xs ≠ [] →
  pushes cfg AB_VEC_INIT m xs v' m' →
  num v' = Z.of_nat (length xs) ∧
  smallest_pow2_ge (Z.max 2 (Z.of_nat (length xs))) (capacity v') ∧
  (2 ≤ Z.of_nat (length xs) →
   smallest_pow2_ge (Z.of_nat (length xs)) (capacity v')) ∧
  (length xs = 1%nat → capacity v' = 2) ∧
  ∀ xs1 x xs2 v1 m1 v2 m2,
    xs = xs1 ++ x :: xs2 →
    pushes cfg AB_VEC_INIT m xs1 v1 m1 →
    AB_vec_push cfg v1 x m1 = Ret (0, v2, m2) →
    capacity v1 ≤ capacity v2 ∧ capacity v2 ≤ capacity v' ∧
    capacity v2 =
      if num v1 =? capacity v1 then doubled (capacity v1) else capacity v1.
Proof.
  intros Hne Hrun.
  destruct (pushes_doubling_inv _ _ _ _ _ Hrun doubling_inv_init)
    as (Hinv & Hnum & _).
  simpl in Hnum.
  assert (1 ≤ Z.of_nat (length xs)) as Hlen.
  { destruct xs; [congruence | simpl; lia]. }
  pose proof (doubling_inv_capacity v' Hinv ltac:(lia)) as Hcap.
  rewrite Hnum in Hcap.
  split; [exact Hnum |]. split; [exact Hcap |]. split; [| split].
  - intros H2. rewrite Z.max_r in Hcap by lia. exact Hcap.
  - intros H1. rewrite H1 in Hcap. change (Z.max 2 (Z.of_nat 1)) with 2 in Hcap.
    destruct Hcap as (_ & Hge & Hmin).
    assert (is_pow2 2) as Hp2 by (exists 1; split; [lia | reflexivity]).
    specialize (Hmin 2 Hp2). lia.
  - intros xs1 x xs2 v1 m1 v2 m2 -> Hrun1 Hp.
    destruct (pushes_doubling_inv _ _ _ _ _ Hrun1 doubling_inv_init)
      as (Hinv1 & _ & _).
    destruct (push_doubling_inv _ _ _ _ _ Hp Hinv1) as (Hinv2 & _ & Hmono).
    split; [exact Hmono |]. split.
    + pose proof (pushes_snoc _ _ _ _ _ _ _ _ Hrun1 Hp) as Hrun2.
      replace (xs1 ++ x :: xs2) with ((xs1 ++ [x]) ++ xs2) in Hrun
        by (rewrite <- app_assoc; reflexivity).
      apply pushes_app in Hrun as (va & ma & Hruna & Hrest).
      destruct (pushes_det _ _ _ _ _ _ _ Hruna Hrun2) as [-> ->].
      apply (pushes_doubling_inv _ _ _ _ _ Hrest Hinv2).
    + apply push_step in Hp as (_ & _ & [(Hd & Hc) | (Hd & Hc & _)]).
      * destruct (num v1 =? capacity v1) eqn:E; [lia | exact Hc].
      * destruct (num v1 =? capacity v1) eqn:E; [exact Hc | lia].
Qed.

(** *** Copy *)

Lemma memcpy_ret dst src nbytes (m m' : mem T) :
  memcpy dst src nbytes m = Ret m' →
  (nbytes = 0 ∧ m' = m) ∨
  (nbytes ≠ 0 ∧ ∃ d s bd bs rest,
     dst = Some d ∧ src = Some s ∧ d ≠ s ∧
     heap m !! d = Some bd ∧ heap m !! s = Some bs ∧
     (cells_of nbytes ≤ length bd)%nat ∧ (cells_of nbytes ≤ length bs)%nat ∧
     length rest = (length bd - cells_of nbytes)%nat ∧
     m' = Mem (<[d := take (cells_of nbytes) bs ++ rest]> (heap m)) (calls m)).
Proof.
  unfold memcpy. destruct (nbytes =? 0) eqn:E.
  - apply Z.eqb_eq in E. intros [= <-]. left. auto.
  - apply Z.eqb_neq in E. intros Hm. right. split; [exact E |].
    destruct dst as [d|]; [| discriminate]. destruct src as [s|]; [| discriminate].
    destruct (heap m !! d) as [bd|] eqn:Hd; [| discriminate].
    destruct (heap m !! s) as [bs|] eqn:Hs; [| discriminate].
    destruct (bool_decide (d ≠ s) && (cells_of nbytes <=? length bd)%nat
              && (cells_of nbytes <=? length bs)%nat) eqn:Hok; [| discriminate].
    apply andb_true_iff in Hok as [Hok Hbs].
    apply andb_true_iff in Hok as [Hds Hbd].
    apply bool_decide_eq_true in Hds.
    apply Nat.leb_le in Hbd, Hbs.
    injection Hm as <-.
    eexists d, s, bd, bs, _. repeat split; eauto.
    destruct (nbytes mod esize =? 0); [apply length_drop |].
    unfold blur. rewrite <- (length_drop bd (cells_of nbytes)).
    destruct (drop (cells_of nbytes) bd); reflexivity.
Qed.

(** A block that was live before a successful resize and is live after it
    is the same block: the new block has a fresh identifier. *)
Lemma resize_generic_old_block v n (m : mem T) v' m' b blk0 blk :
  AB_vec_resize_generic cfg v n m = Ret (0, v', m') →
  heap m !! b = Some blk0 → heap m' !! b = Some blk → blk = blk0.
Proof.
  intros Hr Hb0 Hb.
  apply resize_generic_ok in Hr as (old & _ & _ & _ & Hheap & _).
  rewrite Hheap in Hb. rewrite lookup_insert_ne in Hb.
  2:{ intros Heq. pose proof (fresh_block_free m) as Hf. rewrite Heq, Hb0 in Hf.
      discriminate. }
  destruct (elems v) as [b1|]; simpl in Hb.
  - rewrite lookup_delete in Hb. destruct (decide (b1 = b)); [discriminate |].
    congruence.
  - congruence.
Qed.

Lemma copy_generic_ret dest src (m : mem T) dest' m' :
  AB_vec_copy_generic cfg dest src m = Ret (0, dest', m') →
  ∃ dest1 m1,
    ((capacity src ≤ capacity dest ∧ dest1 = dest ∧ m1 = m) ∨
     (capacity dest < capacity src ∧
      AB_vec_resize_generic cfg dest (capacity src) m = Ret (0, dest1, m1))) ∧
    dest' = set_num dest1 (num src) ∧
    memcpy (elems dest1) (elems src) (wrap w (esize * capacity src)) m1 = Ret m'.
Proof.
  unfold AB_vec_copy_generic. intros Hcp. inv_bind Hcp.
  destruct a as [[err dest1] m1]. inv_bind Hcp.
  assert (err = 0 ∨ err = 1) as [-> | ->].
  { destruct (capacity dest <? capacity src).
    - eapply resize_generic_status, Hc.
    - injection Hc as <- _ _. auto. }
  2:{ simpl in Hcp. discriminate. }
  simpl in Hcp. inv_bind Hcp. injection Hcp as <- <-.
  exists dest1, m1. split; [| auto].
  destruct (capacity dest <? capacity src) eqn:E.
  - apply Z.ltb_lt in E. right. auto.
  - apply Z.ltb_ge in E. injection Hc as <- <-. left. auto.
Qed.

(** C6: a successful [AB_vec_copy(dest, src)], from a vector [src] whose
    storage is the block of its capacity, gives [dest] the length of [src]
    and, at every index below that length, the element that [src] has
    there; the capacity of [dest] is at least that of [src]; and the
    userdata of [dest] is as before. *)
Theorem copy_copies dest src (m : mem T) dest' m' :
  backed cfg m src →
  AB_vec_copy cfg dest src m = Ret (0, dest', m') →
  num dest' = num src ∧
  (∀ i c, 0 ≤ i < num src →
          AB_vec_at src i m' = Ret c → AB_vec_at dest' i m' = Ret c) ∧
  capacity src ≤ capacity dest' ∧
  userdata dest' = userdata dest.
Proof.
  intros Hbacked Hcp. unfold AB_vec_copy in Hcp.
  apply copy_generic_ret in Hcp as (dest1 & m1 & Hcase & -> & Hcpy).
  assert (capacity src ≤ capacity dest1 ∧ userdata dest1 = userdata dest)
    as [Hcap Hud].
  { destruct Hcase as [(Hle & -> & _) | (_ & Hr)]; [split; [lia | reflexivity] |].
    apply resize_generic_ok in Hr as (old & _ & _ & -> & _). simpl.
    split; [lia | reflexivity]. }
  split; [reflexivity |]. split; [| split; [exact Hcap | exact Hud]].
  intros i c Hi Hat. unfold AB_vec_at in *. simpl.
  apply load_ret in Hat as (s & bs' & Hs & Hbs' & _ & Hc).
  unfold backed in Hbacked. rewrite Hs in Hbacked.
  destruct Hbacked as (bs0 & Hbs0 & Hlen0).
  (* the block of [src] is the same before and after the growth of [dest] *)
  assert (∀ blk, heap m1 !! s = Some blk → blk = bs0) as Hsame.
  { intros blk Hblk. destruct Hcase as [(_ & _ & ->) | (_ & Hr)]; [congruence |].
    eapply resize_generic_old_block; eauto. }
  apply memcpy_ret in Hcpy
    as [(Hzero & ->) | (_ & d & s' & bd & bs & rest & Hd & Hs' & Hds & Hbd & Hbs & Hnd & Hns & _ & ->)].
  - (* nothing to copy: [src] has no cell *)
    apply Hsame in Hbs' as ->. apply lookup_lt_Some in Hc.
    rewrite Hlen0, Hzero in Hc. unfold cells_of in Hc.
    rewrite Z.div_0_l in Hc by lia. simpl in Hc. lia.
  - rewrite Hs in Hs'. injection Hs' as <-.
    simpl in Hbs'. rewrite lookup_insert_ne in Hbs' by exact Hds.
    assert (bs' = bs) as -> by congruence.
    apply Hsame in Hbs as ->.
    rewrite Hd. eapply load_intro; [simpl; apply lookup_insert_eq | lia |].
    pose proof (lookup_lt_Some _ _ _ Hc) as Hlt.
    rewrite lookup_app_l by (rewrite length_take; lia).
    rewrite lookup_take_lt by lia. exact Hc.
Qed.

(** *** The invariants are kept *)

Lemma heap_wf_empty (calls0 : list event) : heap_wf cfg (Mem (T:=T) ∅ calls0).
Proof. intros b blk. simpl. rewrite lookup_empty. discriminate. Qed.

Lemma backed_init (m : mem T) : backed cfg m AB_VEC_INIT.
Proof. reflexivity. Qed.

Lemma resize_generic_backed v n (m : mem T) v' m' :
  AB_vec_resize_generic cfg v n m = Ret (0, v', m') → backed cfg m' v'.
Proof.
  intros Hr. apply resize_generic_ok in Hr as (old & _ & _ & -> & Hheap & _).
  unfold backed. simpl. eexists. rewrite Hheap, lookup_insert_eq.
  split; [reflexivity | apply regrow_length].
Qed.

Lemma store_backed (m m' : mem T) p i x v :
  store m p i x = Ret m' → backed cfg m v → backed cfg m' v.
Proof.
  intros Hst Hv. apply store_ret in Hst as (b & blk & -> & Hb & Hi & ->).
  unfold backed in *. destruct (elems v) as [bv|]; [| exact Hv].
  destruct Hv as (blkv & Hbv & Hlen). simpl. rewrite lookup_insert.
  destruct (decide (b = bv)) as [<-|Hne]; simpl.
  - eexists. split; [reflexivity |]. rewrite length_insert. congruence.
  - eauto.
Qed.

Lemma set_num_backed (m : mem T) v n : backed cfg m v → backed cfg m (set_num v n).
Proof. intros Hv. exact Hv. Qed.

Lemma push_backed v x (m : mem T) v' m' :
  AB_vec_push cfg v x m = Ret (0, v', m') → backed cfg m v → backed cfg m' v'.
Proof.
  intros Hp Hv. apply push_ret in Hp as (v1 & m1 & Hst & -> & Hcase).
  apply set_num_backed. eapply store_backed; [exact Hst |].
  destruct Hcase as [(_ & -> & ->) | (_ & Hr)]; [exact Hv |].
  eapply resize_generic_backed, Hr.
Qed.

Lemma insert_generic_backed v idx (m : mem T) v' m' :
  AB_vec_insert_generic cfg v idx m = Ret (0, v', m') →
  backed cfg m v → backed cfg m' v'.
Proof.
  intros Hi Hv.
  apply insert_generic_ret in Hi as [(_ & v1 & -> & Hv1) | (Hr & _)]; [| discriminate].
  assert (backed cfg m' v1) as Hb1.
  { destruct Hv1 as [(_ & -> & ->) | (_ & n & _ & Hr)]; [exact Hv |].
    eapply resize_generic_backed, Hr. }
  destruct (num v1 <=? idx); [apply set_num_backed |]; exact Hb1.
Qed.

End VectorFacts.

(** * The header on concrete vectors *)

Lemma heap_wf_singleton cfg b (blk : list (cell Z)) cs :
  Z.of_nat (length blk) < 2 ^ Z.pos (size_bits cfg) →
  heap_wf cfg (Mem {[ b := blk ]} cs).
Proof.
  intros Hlen b' blk' Hb. simpl in Hb.
  apply lookup_singleton_Some in Hb as [_ <-]. exact Hlen.
Qed.

(** Scenario A of the specification: twenty pushes from [AB_VEC_INIT] give
    length 20 and capacity 32, and twenty pops then give the elements
    back, last first. *)
Example scenario_A :
  ('(v, m) ← push_list cfg_default (seqZ 0 20) AB_VEC_INIT mem_empty;
   '(cs, v') ← pop_list cfg_default 20 v m;
   Ret (num v, capacity v, cs, num v'))
  = Ret (20, 32, Val <$> reverse (seqZ 0 20), 0).
Proof. vm_compute. reflexivity. Qed.

(** Scenario D: [AB_vec_pop] on [AB_VEC_INIT]. *)
Example scenario_D : AB_vec_pop cfg_default AB_VEC_INIT mem_empty = Abort.
Proof. reflexivity. Qed.

(** ** C1 *)

Lemma pushes_vec5 :
  pushes cfg_default AB_VEC_INIT mem_empty [10; 11; 12; 13; 14] vec5 mem5.
Proof.
  repeat (eapply pushes_cons; [vm_compute; reflexivity |]).
  apply pushes_nil.
Defined.

(** C1, as stated, fails at [N = 1]: after one push the capacity is [2],
    and the smallest power of two that is at least [1] is [1]. *)
Lemma pushes_one_counterexample :
  ∃ v' m', pushes cfg_default AB_VEC_INIT mem_empty [7] v' m' ∧
           capacity v' = 2 ∧ smallest_pow2_ge 1 1 ∧
           ¬ smallest_pow2_ge 1 (capacity v').
Proof.
  exists (Vec 1 2 (Some 1%positive) 0),
         (Mem {[ 1%positive := [Val 7; Indet] ]}
              [EvRealloc None 0 8 0 (Some 1%positive)]).
  assert (is_pow2 1) as H1 by (exists 0; split; [lia | reflexivity]).
  split; [| split; [reflexivity | split]].
  - eapply pushes_cons; [vm_compute; reflexivity | apply pushes_nil].
  - split; [exact H1 |]. split; [lia |]. intros c' (k & Hk & ->) _.
    pose proof (pow2_pos k Hk). lia.
  - simpl. intros (_ & _ & Hmin). specialize (Hmin 1 H1). lia.
Qed.

Lemma pushes_capacity_witness :
  [10; 11; 12; 13; 14] ≠ [] ∧
  pushes cfg_default AB_VEC_INIT mem_empty [10; 11; 12; 13; 14] vec5 mem5 ∧
  num vec5 = 5 ∧ smallest_pow2_ge 5 (capacity vec5).
Proof.
  assert ([10; 11; 12; 13; 14] ≠ ([] : list Z)) as Hne by discriminate.
  split; [exact Hne |]. split; [exact pushes_vec5 |].
  destruct (pushes_capacity cfg_default _ _ _ _ Hne pushes_vec5)
    as (Hnum & _ & Hcap & _).
  split; [exact Hnum |]. apply Hcap. simpl. lia.
Defined.

(** ** C4 *)

(** C4, as stated, fails with the assertions active, as they are by
    default: when the allocator gives no memory for the growth step,
    [AB_vec_insert] stops on the assertion and reports nothing. *)
Lemma insert_alloc_failure_counterexample :
  alloc_ok cfg_oom (calls mem_empty) 128 = false ∧
  AB_vec_insert cfg_oom AB_VEC_INIT 19 2 mem_empty = Abort ∧
  ∀ r v' m', AB_vec_insert cfg_oom AB_VEC_INIT 19 2 mem_empty ≠ Ret (r, v', m').
Proof. split; [reflexivity |]. split; [reflexivity |]. discriminate. Qed.

Lemma insert_alloc_failure_witness :
  (∃ m', calls m' = calls mem5 ++ [EvRealloc (Some 3%positive) 32 128 0 None] ∧
         AB_vec_insert cfg_release_oom vec5 19 2 mem5 = Ret (1, vec5, m') ∧
         heap m' = heap mem5) ∧
  (∃ m', calls m' = calls mem5 ++ [EvRealloc (Some 3%positive) 32 0 0 None] ∧
         AB_vec_insert cfg_release vec5 (2 ^ 64 - 1) 2 mem5 = Ret (1, vec5, m') ∧
         heap m' = ∅ ∧ AB_vec_at vec5 0 m' = Undef).
Proof.
  assert (in_size_t 64 19) as Hidx by (split; reflexivity || discriminate).
  assert (in_size_t 64 (2 ^ 64 - 1)) as Hmax by (split; reflexivity || discriminate).
  assert (capacity vec5 ≤ 19) as Hcap by (simpl; lia).
  assert (capacity vec5 ≤ 2 ^ 64 - 1) as Hcapmax by (simpl; lia).
  split.
  - destruct (insert_alloc_failure cfg_release_oom vec5 19 2 mem5 32 _
                Hidx Hcap eq_refl eq_refl (or_intror eq_refl))
      as (m' & Hcalls & Hins & Hsame & _).
    exists m'. split; [exact Hcalls |]. split; [exact Hins |].
    apply Hsame. right. split; reflexivity.
  - destruct (insert_alloc_failure cfg_release vec5 (2 ^ 64 - 1) 2 mem5 0 _
                Hmax Hcapmax eq_refl eq_refl (or_introl eq_refl))
      as (m' & Hcalls & Hins & _ & Hfreed).
    destruct (Hfreed eq_refl) as (Hheap & Hat).
    exists m'. split; [exact Hcalls |]. split; [exact Hins |].
    split; [| apply Hat].
    rewrite Hheap. vm_compute. reflexivity.
Defined.

(** ** C5 *)

Lemma push_pop_witness :
  heap_wf cfg_default mem2 ∧
  ∃ v1 m1, AB_vec_push cfg_default vec2 12 mem2 = Ret (0, v1, m1) ∧
    ∃ v2, AB_vec_pop cfg_default v1 m1 = Ret (Val 12, v2, m1) ∧
          num v2 = num vec2 ∧
          ∀ i c, 0 ≤ i < num vec2 →
                 AB_vec_at vec2 i mem2 = Ret c → AB_vec_at v2 i m1 = Ret c.
Proof.
  assert (heap_wf cfg_default mem2) as Hwf.
  { apply heap_wf_singleton. reflexivity. }
  split; [exact Hwf |].
  eexists (Vec 3 4 (Some 2%positive) 0), _. split; [vm_compute; reflexivity |].
  apply (push_pop cfg_default vec2 12 mem2); [exact Hwf | vm_compute; reflexivity].
Defined.

(** ** C6: scenario C of the specification *)

Lemma copy_copies_witness :
  backed cfg_default mem5 vec5 ∧
  ∃ dest' m', AB_vec_copy cfg_default AB_VEC_INIT vec5 mem5 = Ret (0, dest', m') ∧
    num dest' = num vec5 ∧
    (∀ i c, 0 ≤ i < num vec5 →
            AB_vec_at vec5 i m' = Ret c → AB_vec_at dest' i m' = Ret c) ∧
    capacity vec5 ≤ capacity dest' ∧
    userdata dest' = userdata AB_VEC_INIT.
Proof.
  assert (backed cfg_default mem5 vec5) as Hbacked.
  { eexists. split; [vm_compute; reflexivity | reflexivity]. }
  split; [exact Hbacked |].
  eexists (Vec 5 8 (Some 4%positive) 0), _. split; [vm_compute; reflexivity |].
  apply (copy_copies cfg_default AB_VEC_INIT vec5 mem5);
    [exact Hbacked | vm_compute; reflexivity].
Defined.

(** ** C7 *)

(** C7, as stated, fails on a vector with storage: after [AB_vec_destroy]
    the block is freed, and the vector still has its length, its capacity
    and its pointer to the freed block. *)
Lemma destroy_no_reset_counterexample :
  ∃ v' m', AB_vec_destroy cfg_default vec5 mem5 = Ret (v', m') ∧
           num v' = 5 ∧ capacity v' = 8 ∧ elems v' = Some 3%positive ∧
           heap m' !! 3%positive = None ∧
           v' ≠ AB_VEC_INIT.
Proof.
  eexists vec5, _. split; [vm_compute; reflexivity |].
  repeat split; discriminate.
Qed.

Lemma destroy_releases_witness :
  block_at mem5 (elems vec5)
    = Ret [Val 10; Val 11; Val 12; Val 13; Val 14; Indet; Indet; Indet] ∧
  ∃ m', AB_vec_destroy cfg_default vec5 mem5 = Ret (vec5, m') ∧
        calls m' = calls mem5 ++ [EvFree (Some 3%positive) 32 0] ∧
        heap m' = ∅.
Proof.
  assert (block_at mem5 (elems vec5)
          = Ret [Val 10; Val 11; Val 12; Val 13; Val 14; Indet; Indet; Indet])
    as Hlive by (vm_compute; reflexivity).
  split; [exact Hlive |].
  destruct (destroy_releases cfg_default vec5 mem5 _ Hlive) as (m' & Hd & Hcalls & Hheap).
  exists m'. split; [exact Hd |]. split; [exact Hcalls |].
  rewrite Hheap. vm_compute. reflexivity.
Defined.

(** ** C8 *)

Lemma resize_sets_capacity_witness :
  in_size_t 64 2 ∧
  ∃ v' m', AB_vec_resize cfg_default vec5 2 mem5 = Ret (0, v', m') ∧
           capacity v' = 2 ∧ num v' = num vec5 ∧ num v' > capacity v'.
Proof.
  assert (in_size_t 64 2) as Hn by (split; reflexivity || discriminate).
  split; [exact Hn |].
  assert (∃ m', AB_vec_resize cfg_default vec5 2 mem5
                = Ret (0, Vec 5 2 (Some 4%positive) 0, m')) as [m' Hr]
    by (eexists; vm_compute; reflexivity).
  exists (Vec 5 2 (Some 4%positive) 0), m'. split; [exact Hr |].
  destruct (resize_sets_capacity cfg_default vec5 2 mem5 _ _ Hn Hr)
    as (Hcap & Hnum & Hshrunk).
  split; [exact Hcap |]. split; [exact Hnum |]. apply Hshrunk. simpl. lia.
Defined.

(** ** C9 *)

Lemma pop_empty_aborts_witness :
  assertions cfg_default = true ∧ num AB_VEC_INIT = 0 ∧
  AB_vec_pop cfg_default AB_VEC_INIT mem_empty = Abort ∧
  0 < num vec5 ∧ AB_vec_pop cfg_default vec5 mem5 ≠ Abort.
Proof.
  destruct (pop_empty_aborts cfg_default AB_VEC_INIT mem_empty) as (Hempty & _).
  destruct (pop_empty_aborts cfg_default vec5 mem5) as (_ & _ & _ & Hfull).
  split; [reflexivity |]. split; [reflexivity |].
  split; [apply Hempty; reflexivity |].
  assert (0 < num vec5) as Hpos by (simpl; lia).
  split; [exact Hpos | apply Hfull, Hpos].
Defined.

(** ** C10 *)

(** The element [1] inserted at index 19 of [AB_VEC_INIT]: the expression
    has the value [1] when the element has been stored, and the value [1]
    when the allocator has given no memory. *)
Example insert_one_either_way :
  AB_vec_insert cfg_release AB_VEC_INIT 19 1 mem_empty = Ret (1, vec20, mem20 1) ∧
  AB_vec_insert cfg_release_oom AB_VEC_INIT 19 1 mem_empty
    = Ret (1, AB_VEC_INIT, Mem ∅ [EvRealloc None 0 128 0 None]).
Proof. split; vm_compute; reflexivity. Qed.

Lemma insert_value_witness :
  in_size_t 64 19 ∧
  AB_vec_insert cfg_release AB_VEC_INIT 19 5 mem_empty = Ret (5, vec20, mem20 5) ∧
  AB_vec_at vec20 19 (mem20 5) = Ret (Val 5) ∧
  5 ≠ 0.
Proof.
  assert (in_size_t 64 19) as Hidx by (split; reflexivity || discriminate).
  assert (AB_vec_insert cfg_release AB_VEC_INIT 19 5 mem_empty
          = Ret (5, vec20, mem20 5)) as Hins by (vm_compute; reflexivity).
  split; [exact Hidx |]. split; [exact Hins |].
  destruct (insert_value cfg_release AB_VEC_INIT 19 5 mem_empty _ _ _ Hidx Hins)
    as ([(m1 & _ & _ & Hat & _) | (Hfail & _)] & Hnz & _).
  - split; [exact Hat |]. apply Hnz. discriminate.
  - vm_compute in Hfail. discriminate Hfail.
Defined.

(** * The rest of the header, and the hooks of the second program *)

(** ** [my_roundup] *)

Lemma log2_up_smallest x : 0 < x → smallest_pow2_ge x (2 ^ Z.log2_up x).
Proof.
  intros Hx. pose proof (Z.log2_up_nonneg x) as Hnn.
  split; [exists (Z.log2_up x); split; [exact Hnn | reflexivity] |].
  destruct (Z.eq_dec x 1) as [-> | Hne].
  - change (2 ^ Z.log2_up 1) with 1. split; [lia |].
    intros c' (k & Hk & ->) _. pose proof (pow2_pos k Hk). lia.
  - pose proof (Z.log2_up_spec x ltac:(lia)) as [Hlo Hhi].
    split; [exact Hhi |]. intros c' Hc' Hle.
    assert (0 < Z.log2_up x) as Hpos by (apply Z.log2_up_pos; lia).
    replace (Z.log2_up x) with (Z.pred (Z.log2_up x) + 1) by lia.
    apply pow2_gap; [lia | exact Hc' | lia].
Qed.

Lemma smear_start y : smear_inv y y 1.
Proof.
  intros i Hi. split.
  - intros Hb. exists 0. split; [lia |]. rewrite Z.add_0_r. exact Hb.
  - intros (d & Hd & Hb). replace (i + d) with i in Hb by lia. exact Hb.
Qed.

Lemma smear_step y y' n :
  0 ≤ n → smear_inv y y' n →
  smear_inv y (Z.lor y' (Z.shiftr y' n)) (2 * n).
Proof.
  intros Hn Hinv i Hi.
  rewrite Z.lor_spec, Z.shiftr_spec by lia. rewrite orb_true_iff.
  rewrite (Hinv i Hi), (Hinv (i + n) ltac:(lia)). split.
  - intros [(d & Hd & Hb) | (d & Hd & Hb)].
    + exists d. split; [lia | exact Hb].
    + exists (n + d). split; [lia |].
      replace (i + (n + d)) with (i + n + d) by lia. exact Hb.
  - intros (d & Hd & Hb). destruct (Z_lt_le_dec d n) as [Hlt | Hge].
    + left. exists d. split; [lia | exact Hb].
    + right. exists (d - n). split; [lia |].
      replace (i + n + (d - n)) with (i + d) by lia. exact Hb.
Qed.

Lemma smear_wrap y y' n :
  (∀ i, 16 ≤ i → Z.testbit y i = false) →
  smear_inv y y' n → smear_inv y (wrap 16 y') n.
Proof.
  intros Hhigh Hinv i Hi. unfold wrap.
  destruct (Z_lt_le_dec i 16) as [Hlt | Hge].
  - rewrite Z.mod_pow2_bits_low by lia. apply Hinv, Hi.
  - rewrite Z.mod_pow2_bits_high by lia. split; [discriminate |].
    intros (d & Hd & Hb). rewrite Hhigh in Hb by lia. discriminate.
Qed.

(** The four steps turn a value [y > 0] of 16 bits into the value whose
    bits are set up to the highest bit of [y], and leave [0] as it is. *)
Lemma smear_ones y s :
  0 ≤ y < 2 ^ 16 → smear_inv y s 16 → 0 ≤ s →
  s = if y =? 0 then 0 else 2 ^ (Z.log2 y + 1) - 1.
Proof.
  intros Hy Hinv Hs. apply Z.bits_inj'. intros i Hi.
  destruct (y =? 0) eqn:E.
  - apply Z.eqb_eq in E. subst y. rewrite Z.bits_0.
    destruct (Z.testbit s i) eqn:Hb; [| reflexivity].
    apply (Hinv i Hi) in Hb as (d & _ & Hb). rewrite Z.bits_0 in Hb. discriminate.
  - apply Z.eqb_neq in E.
    assert (0 < y) as Hpos by lia.
    assert (0 ≤ Z.log2 y < 16) as HL.
    { split; [apply Z.log2_nonneg |]. apply Z.log2_lt_pow2; lia. }
    replace (2 ^ (Z.log2 y + 1) - 1) with (Z.ones (Z.log2 y + 1))
      by (rewrite Z.ones_equiv; lia).
    rewrite Z.testbit_ones_nonneg by lia.
    destruct (i <? Z.log2 y + 1) eqn:Hlt.
    + apply Z.ltb_lt in Hlt. apply (Hinv i Hi).
      exists (Z.log2 y - i). split; [lia |].
      replace (i + (Z.log2 y - i)) with (Z.log2 y) by lia.
      apply Z.bit_log2, Hpos.
    + apply Z.ltb_ge in Hlt.
      destruct (Z.testbit s i) eqn:Hb; [| reflexivity].
      apply (Hinv i Hi) in Hb as (d & Hd & Hb).
      rewrite Z.bits_above_log2 in Hb by lia. discriminate.
Qed.

(** [my_roundup] in one formula. *)
Lemma my_roundup_eq x :
  my_roundup x =
    let y := wrap 16 (x - 1) in
    wrap 16 ((if y =? 0 then 0 else 2 ^ (Z.log2 y + 1) - 1) + 1).
Proof.
  unfold my_roundup. cbv zeta.
  set (y := wrap 16 (x - 1)).
  assert (0 ≤ y < 2 ^ 16) as Hy by apply (wrap_range 16).
  assert (∀ i, 16 ≤ i → Z.testbit y i = false) as Hhigh.
  { intros i Hi. unfold y, wrap. apply Z.mod_pow2_bits_high. lia. }
  f_equal. f_equal. apply smear_ones; [exact Hy | | apply (wrap_range 16)].
  apply smear_wrap; [exact Hhigh |].
  apply (smear_step y _ 8 ltac:(lia)).
  apply smear_wrap; [exact Hhigh |].
  apply (smear_step y _ 4 ltac:(lia)).
  apply smear_wrap; [exact Hhigh |].
  apply (smear_step y _ 2 ltac:(lia)).
  apply smear_wrap; [exact Hhigh |].
  apply (smear_step y _ 1 ltac:(lia)).
  apply smear_start.
Qed.

Lemma my_roundup_value x :
  in_size_t 16 x →
  my_roundup x = if (0 <? x) && (x <=? 32768) then 2 ^ Z.log2_up x else 0.
Proof.
  intros [H0 H1]. change (2 ^ Z.pos 16) with 65536 in H1.
  destruct (Z.eq_dec x 0) as [-> | Hx0]; [reflexivity |].
  destruct (Z.eq_dec x 1) as [-> | Hx1]; [reflexivity |].
  rewrite my_roundup_eq. cbv zeta.
  rewrite (wrap_small 16 (x - 1))
    by (unfold in_size_t; change (2 ^ Z.pos 16) with 65536; lia).
  destruct (x - 1 =? 0) eqn:E; [lia |]. clear E.
  replace (2 ^ (Z.log2 (x - 1) + 1) - 1 + 1) with (2 ^ (Z.log2 (x - 1) + 1)) by lia.
  assert (Z.log2 (x - 1) + 1 = Z.log2_up x) as ->.
  { rewrite Z.log2_up_eqn by lia. unfold Z.succ, Z.pred. reflexivity. }
  destruct (0 <? x) eqn:Epos; [| lia]. simpl.
  destruct (x <=? 32768) eqn:Ele.
  - apply Z.leb_le in Ele.
    assert (Z.log2_up x ≤ 15) as Hup.
    { apply Z.log2_up_le_pow2; [lia |]. change (2 ^ 15) with 32768. exact Ele. }
    apply wrap_small. split; [apply Z.lt_le_incl, pow2_pos, Z.log2_up_nonneg |].
    apply pow2_lt_mono; [apply Z.log2_up_nonneg | lia].
  - apply Z.leb_gt in Ele.
    assert (Z.log2_up x = 16) as ->.
    { apply Z.log2_up_unique; [lia |]. simpl. lia. }
    reflexivity.
Qed.

(** X1: [my_roundup], the round-up function of the second program, on every
    value of [unsigned short]: [0] on [0]; up to [2^15] the smallest power
    of two that is at least [x]; and [0] above [2^15], where that power is
    [2^16] and does not fit. *)
Theorem my_roundup_spec x :
  in_size_t 16 x →
  (x = 0 → my_roundup x = 0) ∧
  (0 < x ≤ 2 ^ 15 → smallest_pow2_ge x (my_roundup x)) ∧
  (2 ^ 15 < x → my_roundup x = 0).
Proof.
  intros Hx. rewrite (my_roundup_value x Hx). change (2 ^ 15) with 32768.
  split; [intros ->; reflexivity |]. split.
  - intros [Hpos Hle].
    destruct (0 <? x) eqn:E1; [| lia]. destruct (x <=? 32768) eqn:E2; [| lia].
    simpl. apply log2_up_smallest, Hpos.
  - intros Hbig. destruct (x <=? 32768) eqn:E2; [lia |].
    rewrite andb_false_r. reflexivity.
Qed.

Lemma my_roundup_spec_witness :
  in_size_t 16 20 ∧ my_roundup 20 = 32 ∧ smallest_pow2_ge 20 (my_roundup 20).
Proof.
  assert (in_size_t 16 20) as Hx by (split; reflexivity || discriminate).
  split; [exact Hx |]. split; [reflexivity |].
  apply (my_roundup_spec 20 Hx). split; reflexivity || discriminate.
Defined.

(** X2: [my_roundup] is idempotent on [unsigned short]: its results are
    fixed points. *)
Theorem my_roundup_idempotent x :
  in_size_t 16 x → my_roundup (my_roundup x) = my_roundup x.
Proof.
  intros Hx. rewrite (my_roundup_value x Hx).
  destruct ((0 <? x) && (x <=? 32768)) eqn:E; [| reflexivity].
  apply andb_true_iff in E as [Hpos Hle].
  apply Z.ltb_lt in Hpos. apply Z.leb_le in Hle.
  pose proof (Z.log2_up_nonneg x) as Hnn.
  assert (Z.log2_up x ≤ 15) as Hup.
  { apply Z.log2_up_le_pow2; [lia |]. change (2 ^ 15) with 32768. exact Hle. }
  pose proof (pow2_pos (Z.log2_up x) Hnn) as Hp.
  pose proof (pow2_le_mono (Z.log2_up x) 15 Hnn Hup) as Hq.
  change (2 ^ 15) with 32768 in Hq.
  rewrite my_roundup_value
    by (split; [lia | change (2 ^ Z.pos 16) with 65536; lia]).
  destruct (0 <? 2 ^ Z.log2_up x) eqn:E1; [| lia].
  destruct (2 ^ Z.log2_up x <=? 32768) eqn:E2; [| lia].
  simpl. rewrite Z.log2_up_pow2 by exact Hnn. reflexivity.
Qed.

Lemma my_roundup_idempotent_witness :
  in_size_t 16 20 ∧ my_roundup (my_roundup 20) = my_roundup 20.
Proof.
  assert (in_size_t 16 20) as Hx by (split; reflexivity || discriminate).
  split; [exact Hx | exact (my_roundup_idempotent 20 Hx)].
Defined.

(** X3: on [0 < x < 2^15] the default round-up function, at 16 bits, and
    [my_roundup] agree unless [x] is a power of two, which [my_roundup]
    returns as it is and the default function doubles. *)
Theorem my_roundup_vs_default x :
  0 < x < 2 ^ 15 →
  ∃ r, AB_vec_roundup_size_t 16 x = Ret r ∧
       my_roundup x ≤ r ∧
       (is_pow2 x → my_roundup x = x ∧ r = 2 * x) ∧
       (¬ is_pow2 x → r = my_roundup x).
Proof.
  intros [Hpos Hlt].
  destruct (roundup_exits 16 x Hpos Hlt) as (j & Hj & Hrun & Hlo & Hhi).
  change (Z.pos 16 - 1) with 15 in Hj.
  assert (in_size_t 16 x) as Hx.
  { split; [lia |]. change (2 ^ 15) with 32768 in Hlt.
    change (2 ^ Z.pos 16) with 65536. lia. }
  rewrite (my_roundup_value x Hx).
  change (2 ^ 15) with 32768 in Hlt.
  destruct (0 <? x) eqn:E1; [| lia]. destruct (x <=? 32768) eqn:E2; [| lia].
  simpl. clear E1 E2.
  exists (2 ^ j). split; [exact Hrun |].
  destruct (Z.eq_dec x (2 ^ (j - 1))) as [Heq | Hne].
  - assert (Z.log2_up x = j - 1) as ->.
    { rewrite Heq. apply Z.log2_up_pow2. lia. }
    pose proof (pow2_double (j - 1) ltac:(lia)) as Hd.
    replace (j - 1 + 1) with j in Hd by lia.
    split; [lia |]. split; [intros _; lia |].
    intros Hnot. exfalso. apply Hnot. exists (j - 1). split; [lia | exact Heq].
  - assert (Z.log2_up x = j) as ->.
    { apply Z.log2_up_unique; [lia |]. unfold Z.pred.
      replace (j + -1) with (j - 1) by lia. lia. }
    split; [lia |]. split; [| intros _; reflexivity].
    intros (k & Hk & Hxk). exfalso. rewrite Hxk in Hlo, Hhi, Hne.
    assert (k < j) by (apply pow2_lt_inv; [lia | lia | exact Hhi]).
    destruct (Z.eq_dec k (j - 1)) as [-> | Hkj]; [congruence |].
    pose proof (pow2_lt_mono k (j - 1) Hk ltac:(lia)). lia.
Qed.

Lemma my_roundup_vs_default_witness :
  AB_vec_roundup_size_t 16 4 = Ret 8 ∧ my_roundup 4 = 4 ∧
  AB_vec_roundup_size_t 16 5 = Ret 8 ∧ my_roundup 5 = 8 ∧
  ∃ r, AB_vec_roundup_size_t 16 5 = Ret r ∧ my_roundup 5 ≤ r.
Proof.
  repeat (split; [reflexivity |]).
  destruct (my_roundup_vs_default 5) as (r & Hr & Hle & _).
  { split; reflexivity. }
  exists r. split; [exact Hr | exact Hle].
Defined.

(** ** The vector operations *)

Section RestFacts.
Context {T : Type} `{CType T}.
Variable cfg : config.

Abbreviation w := (size_bits cfg).
Abbreviation esize := (Z.pos sizeof).

(** *** The elements of a vector that is pushed to *)

(** A successful push puts the element at the old length and keeps what
    is below it. *)
Lemma push_at v x (m : mem T) v' m' :
  AB_vec_push cfg v x m = Ret (0, v', m') →
  AB_vec_at v' (num v) m' = Ret (Val x) ∧
  ∀ i c, 0 ≤ i < num v → AB_vec_at v i m = Ret c → AB_vec_at v' i m' = Ret c.
Proof.
  intros Hp. apply push_ret in Hp as (v0 & m0 & Hst & -> & Hcase).
  unfold AB_vec_at. simpl. split; [eapply load_store_same, Hst |].
  intros i c Hi Hat.
  rewrite (load_store_other _ _ _ _ i _ Hst) by lia.
  destruct Hcase as [(_ & -> & ->) | (_ & Hr)]; [exact Hat |].
  eapply resize_generic_load; [exact Hr | exact Hat |].
  apply store_ret in Hst as (b & blk & Hb & Hblk & Hrange & _).
  apply resize_generic_ok in Hr as (old & _ & _ & Hv0 & Hheap & _).
  rewrite Hv0 in Hb. simpl in Hb. injection Hb as <-.
  rewrite Hheap, lookup_insert_eq in Hblk. injection Hblk as <-.
  rewrite regrow_length in Hrange. lia.
Qed.

Lemma pushes_at v (m : mem T) xs v' m' :
  pushes cfg v m xs v' m' →
  doubling_inv cfg v →
  (∀ i c, 0 ≤ i < num v → AB_vec_at v i m = Ret c → AB_vec_at v' i m' = Ret c) ∧
  (∀ i x, xs !! i = Some x →
          AB_vec_at v' (num v + Z.of_nat i) m' = Ret (Val x)).
Proof.
  induction 1 as [v m | v m x xs v1 m1 v' m' Hp Hrun IH]; intros Hinv.
  - split; [auto |]. intros i x Hx. rewrite lookup_nil in Hx. discriminate.
  - destruct (push_doubling_inv cfg _ _ _ _ _ Hp Hinv) as (Hinv1 & Hn1 & _).
    destruct (push_at _ _ _ _ _ Hp) as (Hnew & Hold).
    destruct (IH Hinv1) as (Hkeep & Hput).
    assert (0 ≤ num v) as H0.
    { apply push_step in Hp. lia. }
    split.
    + intros i c Hi Hat. apply Hkeep; [lia |]. apply Hold; assumption.
    + intros [|i] y Hy; simpl in Hy.
      * injection Hy as <-. rewrite Z.add_0_r. apply Hkeep; [lia | exact Hnew].
      * replace (num v + Z.of_nat (S i)) with (num v1 + Z.of_nat i) by lia.
        apply Hput, Hy.
Qed.

(** X4: after the elements [xs] have been pushed onto [AB_VEC_INIT], every
    push having reported [0], [AB_vec_at(vec, i)] is the [i]-th of them,
    for every [i] below their number. *)
Theorem pushes_contents xs (m : mem T) v' m' i x :
  pushes cfg AB_VEC_INIT m xs v' m' →
  xs !! i = Some x →
  AB_vec_at v' (Z.of_nat i) m' = Ret (Val x).
Proof.
  intros Hrun Hx.
  destruct (pushes_at _ _ _ _ _ Hrun (doubling_inv_init cfg)) as (_ & Hput).
  apply (Hput i x Hx).
Qed.

(** *** Popping *)

(** On a vector that is not empty [AB_vec_pop] reads the last element and
    takes one off the length; nothing else changes. *)
Lemma pop_nonempty v (m : mem T) :
  0 < num v → in_size_t w (num v) →
  AB_vec_pop cfg v m =
    (c ← load m (elems v) (num v - 1); Ret (c, set_num v (num v - 1), m)).
Proof.
  intros Hpos Hrange. unfold AB_vec_pop, AB_VEC_ASSERT.
  destruct (0 <? num v) eqn:E; [| lia]. rewrite andb_false_r. simpl.
  rewrite wrap_small by (unfold in_size_t in *; lia). reflexivity.
Qed.

Lemma set_num_set_num v a b : set_num (set_num v a) b = set_num v b.
Proof. reflexivity. Qed.

Lemma set_num_same v : set_num v (num v) = v.
Proof. destruct v. reflexivity. Qed.

(** The loop that empties a vector whose elements are [ys] pops them last
    first, in as many iterations as there are elements. *)
Lemma drain_loop_elements (ys : list T) : ∀ v (m : mem T),
  num v = Z.of_nat (length ys) → in_size_t w (num v) →
  (∀ i y, ys !! i = Some y → AB_vec_at v (Z.of_nat i) m = Ret (Val y)) →
  drain_loop cfg (length ys) v m
    = Some (Ret (Val <$> reverse ys, set_num v 0, m)).
Proof.
  induction ys as [|y ys IH] using rev_ind; intros v m Hnum Hrange Hat.
  - simpl in *. unfold AB_vec_size. rewrite Hnum. simpl.
    rewrite <- (set_num_same v) at 1. rewrite Hnum. reflexivity.
  - rewrite length_app in *. simpl length in *.
    replace (length ys + 1)%nat with (S (length ys)) in * by lia.
    simpl. unfold AB_vec_size.
    destruct (0 <? num v) eqn:E; [| lia].
    rewrite pop_nonempty by (try assumption; lia).
    replace (num v - 1) with (Z.of_nat (length ys)) by lia.
    assert (load m (elems v) (Z.of_nat (length ys)) = Ret (Val y)) as ->.
    { apply (Hat (length ys)). rewrite lookup_app_r by lia.
      replace (length ys - length ys)%nat with 0%nat by lia. reflexivity. }
    simpl. rewrite IH.
    + rewrite reverse_app. simpl. rewrite set_num_set_num. reflexivity.
    + reflexivity.
    + unfold in_size_t in *. simpl. lia.
    + intros i z Hz. unfold AB_vec_at. simpl. apply (Hat i).
      rewrite lookup_app_l; [exact Hz |]. eapply lookup_lt_Some, Hz.
Qed.

(** X5: after the elements [xs] have been pushed onto [AB_VEC_INIT], the
    loop [while (AB_vec_size(vec) > 0) AB_vec_pop(vec)] exits after as many
    iterations as there are elements, has popped them last first, and
    leaves the length [0], with the capacity, the storage and the memory
    as they were. *)
Theorem drain_after_pushes xs (m : mem T) v' m' :
  pushes cfg AB_VEC_INIT m xs v' m' →
  drain_loop cfg (length xs) v' m'
    = Some (Ret (Val <$> reverse xs, set_num v' 0, m')).
Proof.
  intros Hrun.
  destruct (pushes_doubling_inv cfg _ _ _ _ _ Hrun (doubling_inv_init cfg))
    as (Hinv & Hnum & _).
  simpl in Hnum. apply drain_loop_elements.
  - exact Hnum.
  - destruct Hinv as [(Hn & _) | (j & _ & Hc & Hcap & Hn & _)].
    + rewrite Hn. split; [lia | apply pow2_pos; lia].
    + unfold in_size_t in *. lia.
  - intros i y Hy.
    destruct (pushes_at _ _ _ _ _ Hrun (doubling_inv_init cfg)) as (_ & Hput).
    apply (Hput i y Hy).
Qed.

(** *** Push when the allocator fails, and [AB_vec_pushp] *)

Lemma pushp_slot_store v x (m : mem T) v' m' :
  push_slot cfg v x m = Ret (0, v', m') ↔
  ∃ a, pushp_slot cfg v m = Ret (Some a, v', m) ∧ store_slot m a x = Ret m'.
Proof.
  unfold push_slot, pushp_slot, store_slot, addr_of, store. split.
  - intros Hp. inv_bind Hp. injection Hp as <- <-.
    destruct (elems v) as [b|]; [| discriminate].
    destruct (heap m !! b) as [blk|] eqn:Hb; [| discriminate].
    destruct ((0 <=? num v) && (num v <? Z.of_nat (length blk))) eqn:E;
      [| discriminate].
    apply andb_true_iff in E as [E0 E1].
    apply Z.leb_le in E0. apply Z.ltb_lt in E1.
    exists (b, num v). simpl.
    destruct ((0 <=? num v) && (num v <=? Z.of_nat (length blk))) eqn:E'.
    + split; [reflexivity |]. rewrite Hb.
      destruct ((0 <=? num v) && (num v <? Z.of_nat (length blk))) eqn:E''.
      * exact Hc.
      * apply andb_false_iff in E'' as [E''|E'']; lia.
    + apply andb_false_iff in E' as [E'|E']; lia.
  - intros (a & Hp & Hst). inv_bind Hp. injection Hp as <- <-.
    destruct (elems v) as [b|]; [| discriminate].
    destruct (heap m !! b) as [blk|] eqn:Hb; [| discriminate].
    destruct ((0 <=? num v) && (num v <=? Z.of_nat (length blk))); [| discriminate].
    injection Hc as <-. simpl in Hst. rewrite Hb in Hst.
    destruct ((0 <=? num v) && (num v <? Z.of_nat (length blk))); [| discriminate].
    injection Hst as <-. reflexivity.
Qed.

(** X6: [AB_vec_pushp] followed by an assignment through the address it
    returns is [AB_vec_push]: a push reports [0] with a final state
    exactly when [AB_vec_pushp] returns an address, with the same vector,
    and the store of the element at that address gives that state; and a
    push reports [1] exactly when [AB_vec_pushp] returns [NULL], with the
    same state. *)
Theorem pushp_push v x (m : mem T) v' m' :
  (AB_vec_push cfg v x m = Ret (0, v', m') ↔
   ∃ a m1, AB_vec_pushp cfg v m = Ret (Some a, v', m1) ∧
           store_slot m1 a x = Ret m') ∧
  (AB_vec_push cfg v x m = Ret (1, v', m') ↔
   AB_vec_pushp cfg v m = Ret (None, v', m')).
Proof.
  unfold AB_vec_push, AB_vec_pushp.
  destruct (num v =? capacity v).
  - destruct (AB_vec_resize cfg v
                (if capacity v =? 0 then 2 else Z.shiftl (capacity v) 1) m)
      as [[[err v1] m1]| | |] eqn:Hr; simpl.
    + pose proof (resize_generic_status _ _ _ _ _ _ _ Hr) as [-> | ->]; simpl.
      * split.
        -- rewrite pushp_slot_store. split.
           ++ intros (a & Hp & Hst). exists a, m1. auto.
           ++ intros (a & m2 & Hp & Hst).
              assert (m2 = m1) as ->.
              { unfold pushp_slot in Hp. inv_bind Hp. congruence. }
              exists a. auto.
        -- split; intros Hp.
           ++ apply push_slot_ret in Hp as (Hne & _). discriminate.
           ++ unfold pushp_slot in Hp. inv_bind Hp. discriminate.
      * split.
        -- split; [discriminate |]. intros (a & m2 & Hp & _). discriminate.
        -- split; intros [= <- <-]; reflexivity.
    + split; split; try discriminate. intros (a & m2 & Hp & _). discriminate.
    + split; split; try discriminate. intros (a & m2 & Hp & _). discriminate.
    + split; split; try discriminate. intros (a & m2 & Hp & _). discriminate.
  - split.
    + rewrite pushp_slot_store. split.
      * intros (a & Hp & Hst). exists a, m. auto.
      * intros (a & m2 & Hp & Hst).
        assert (m2 = m) as ->.
        { unfold pushp_slot in Hp. inv_bind Hp. congruence. }
        exists a. auto.
    + split; intros Hp.
      * apply push_slot_ret in Hp as (Hne & _). discriminate.
      * unfold pushp_slot in Hp. inv_bind Hp. discriminate.
Qed.

(** X7: when the vector is full and the allocator returns [NULL] for the
    doubled capacity, [AB_vec_push] and [AB_vec_pushp] stop on the
    assertion of [AB_vec_resize_generic] when [AB_VEC_ASSERT] is active;
    when it is compiled out they report [1] and [NULL], and the fields of
    the vector are as before. Every block is as before too when the vector
    has no storage or the bytes of the doubled capacity are a value of the
    size type; when they wrap to [0] on a vector with storage, the storage
    has been freed. *)
Theorem push_alloc_failure v x (m : mem T) old :
  num v = capacity v →
  block_at m (elems v) = Ret old →
  realloc_frees (elems v) (wrap w (esize * wrap w (doubled (capacity v)))) = true ∨
  alloc_ok cfg (calls m) (wrap w (esize * wrap w (doubled (capacity v)))) = false →
  ∃ m', AB_vec_push cfg v x m
          = (if assertions cfg then Abort else Ret (1, v, m')) ∧
        AB_vec_pushp cfg v m
          = (if assertions cfg then Abort else Ret (None, v, m')) ∧
        heap m' =
          (if realloc_frees (elems v)
                (wrap w (esize * wrap w (doubled (capacity v))))
           then release (elems v) (heap m) else heap m) ∧
        (elems v = None ∨ 0 < esize * doubled (capacity v) < 2 ^ Z.pos w →
         heap m' = heap m).
Proof.
  intros Hfull Hold Hnull.
  destruct (resize_generic_null cfg v _ m old Hold Hnull) as (m' & Hheap & _ & Hr).
  exists m'.
  assert (AB_vec_resize cfg v
            (if capacity v =? 0 then 2 else Z.shiftl (capacity v) 1) m
          = if assertions cfg then Abort else Ret (1, v, m')) as Hr'.
  { unfold AB_vec_resize. rewrite shiftl_1. exact Hr. }
  split; [| split; [| split]].
  - unfold AB_vec_push. destruct (num v =? capacity v) eqn:E; [| lia].
    rewrite Hr'. destruct (assertions cfg); reflexivity.
  - unfold AB_vec_pushp. destruct (num v =? capacity v) eqn:E; [| lia].
    rewrite Hr'. destruct (assertions cfg); reflexivity.
  - exact Hheap.
  - intros Hnz. rewrite Hheap.
    assert (wrap w (doubled (capacity v)) = doubled (capacity v)
            ∨ elems v = None) as [Hw | Hnone].
    { destruct Hnz as [Hnone | Hfit]; [auto |]. left.
      apply wrap_small. split; [nia |].
      assert (1 ≤ esize) by lia. nia. }
    + rewrite Hw, (realloc_frees_not cfg _ _ Hnz). reflexivity.
    + rewrite Hnone. reflexivity.
Qed.

(** *** Insertion: capacity and large indices *)

Lemma roundup_ret x r :
  0 ≤ x → AB_vec_roundup_size_t w x = Ret r →
  (x = 0 ∧ r = 0) ∨
  (∃ j, 1 ≤ j ≤ Z.pos w - 1 ∧ r = 2 ^ j ∧ 2 ^ (j - 1) ≤ x < 2 ^ j).
Proof.
  intros Hx Hr. destruct (Z.eq_dec x 0) as [-> | Hne].
  - left. split; [reflexivity |]. injection Hr as <-. reflexivity.
  - right. destruct (Z_lt_le_dec x (2 ^ (Z.pos w - 1))) as [Hlt | Hge].
    + destruct (roundup_exits w x ltac:(lia) Hlt) as (j & Hj & Hrun & Hb).
      exists j. rewrite Hrun in Hr. injection Hr as <-. auto.
    + destruct (roundup_diverges w x Hge) as [Hd _]. congruence.
Qed.

Lemma roundup_ret_range x r :
  0 ≤ x → AB_vec_roundup_size_t w x = Ret r → in_size_t w r.
Proof.
  intros Hx Hr. destruct (roundup_ret x r Hx Hr) as [(_ & ->) | (j & Hj & -> & _)].
  - split; [lia | apply pow2_pos; lia].
  - split; [apply Z.lt_le_incl, pow2_pos; lia | apply pow2_lt_mono; lia].
Qed.

Lemma if_set_num_fields (b : bool) v k :
  capacity (if b then set_num v k else v) = capacity v ∧
  elems (if b then set_num v k else v) = elems v ∧
  userdata (if b then set_num v k else v) = userdata v.
Proof. destruct b; repeat split; reflexivity. Qed.

(** What a successful insertion beyond the capacity has gone through. *)
Lemma insert_grown v idx elem (m : mem T) v' m1 m' :
  in_size_t w idx → capacity v ≤ idx →
  AB_vec_insert_generic cfg v idx m = Ret (0, v', m1) →
  store m1 (elems v') idx elem = Ret m' →
  idx + 1 < 2 ^ Z.pos w ∧
  AB_vec_roundup_size_t w (idx + 1) = Ret (capacity v') ∧
  idx < Z.of_nat (cells_of (wrap w (esize * capacity v'))).
Proof.
  intros Hidx Hcap Hgen Hst.
  apply insert_generic_ret in Hgen as [(_ & v1 & -> & Hv1) | (Hr & _)];
    [| discriminate].
  destruct Hv1 as [(Hlt & _) | (_ & n & Hround & Hr)]; [lia |].
  apply resize_generic_ok in Hr as (old & _ & _ & Hv1 & Hheap & _).
  destruct (if_set_num_fields (num v1 <=? idx) v1 (wrap w (idx + 1)))
    as (Hc & He & _).
  rewrite Hc. rewrite He in Hst. rewrite Hv1 in Hst |- *.
  change (elems (set_storage v (Some (fresh (dom (heap m)))) n))
    with (Some (fresh (dom (heap m)))) in Hst.
  change (capacity (set_storage v (Some (fresh (dom (heap m)))) n)) with n.
  apply store_ret in Hst as (b & blk & Hb & Hblk & Hrange & _).
  injection Hb as <-. rewrite Hheap, lookup_insert_eq in Hblk.
  injection Hblk as <-. rewrite regrow_length in Hrange.
  pose proof (cells_of_wrap_lt cfg (esize * n)) as Hlt.
  assert (idx + 1 < 2 ^ Z.pos w) as Hfit by lia.
  rewrite wrap_small in Hround by (unfold in_size_t in *; lia).
  repeat split; auto; lia.
Qed.

Lemma insert_capacity_cases v idx elem (m : mem T) v' m1 m' :
  in_size_t w idx →
  AB_vec_insert_generic cfg v idx m = Ret (0, v', m1) →
  store m1 (elems v') idx elem = Ret m' →
  capacity v ≤ capacity v' ∧ idx < capacity v' ∧
  (idx < capacity v →
   capacity v' = capacity v ∧ elems v' = elems v ∧ calls m' = calls m) ∧
  (capacity v ≤ idx →
   smallest_pow2_gt (idx + 1) (capacity v') ∧ idx + 1 < capacity v').
Proof.
  intros Hidx Hgen Hst.
  destruct (Z_lt_le_dec idx (capacity v)) as [Hlt | Hge].
  - pose proof Hgen as Hgen'.
    apply insert_generic_ret in Hgen' as [(_ & v1 & -> & Hv1) | (Hr & _)];
      [| discriminate].
    destruct Hv1 as [(_ & -> & ->) | (Hcap & _)]; [| lia].
    destruct (if_set_num_fields (num v <=? idx) v (wrap w (idx + 1)))
      as (Hc & He & _).
    rewrite Hc, He.
    apply store_ret in Hst as (b & blk & _ & _ & _ & ->).
    repeat split; auto; lia.
  - destruct (insert_grown _ _ _ _ _ _ _ Hidx Hge Hgen Hst) as (Hfit & Hround & Hcells).
    destruct (roundup_ret (idx + 1) _ ltac:(unfold in_size_t in *; lia) Hround)
      as [(H0 & _) | (j & Hj & Hc & Hb)]; [unfold in_size_t in *; lia |].
    rewrite Hc. split; [lia |]. split; [lia |]. split; [lia |]. intros _.
    split; [apply roundup_result_gt; lia | lia].
Qed.

(** X8: a successful [AB_vec_insert] never lowers the capacity and leaves
    it above the index. Below the capacity it keeps the capacity and the
    storage and does not call the allocator. From the capacity on, the new
    capacity is the smallest power of two strictly above [idx + 1], so
    that a slot beyond [idx] is allocated as well. *)
Theorem insert_capacity v idx elem (m : mem T) v' m1 m' :
  in_size_t w idx →
  AB_vec_insert_generic cfg v idx m = Ret (0, v', m1) →
  store m1 (elems v') idx elem = Ret m' →
  capacity v ≤ capacity v' ∧ idx < capacity v' ∧
  (idx < capacity v →
   capacity v' = capacity v ∧ elems v' = elems v ∧ calls m' = calls m) ∧
  (capacity v ≤ idx →
   smallest_pow2_gt (idx + 1) (capacity v') ∧ idx + 1 < capacity v').
Proof. apply insert_capacity_cases. Qed.

(** The two ways in which [AB_vec_insert] has a value. *)
Lemma insert_ret v idx elem (m : mem T) r v' m' :
  in_size_t w idx →
  AB_vec_insert cfg v idx elem m = Ret (r, v', m') →
  (∃ m1, AB_vec_insert_generic cfg v idx m = Ret (0, v', m1) ∧
         store m1 (elems v') idx elem = Ret m') ∨
  (r = 1 ∧ v' = v ∧
   ∃ n, AB_vec_roundup_size_t w (wrap w (idx + 1)) = Ret n ∧
        heap m' = (if realloc_frees (elems v) (wrap w (esize * n))
                   then release (elems v) (heap m) else heap m)).
Proof.
  intros Hidx Hi. unfold AB_vec_insert in Hi.
  rewrite wrap_small in Hi by exact Hidx.
  inv_bind Hi. destruct a as [[err v1] m1].
  pose proof (insert_generic_status cfg _ _ _ _ _ _ Hc) as [-> | ->]; simpl in Hi.
  - inv_bind Hi. injection Hi as <- <- <-. left. eauto.
  - injection Hi as <- <- <-. right.
    destruct (insert_generic_fail cfg _ _ _ _ _ _ Hc ltac:(lia))
      as (_ & Hv & _ & _ & n & Hround & _ & Hheap).
    eauto.
Qed.

(** X9: [AB_vec_insert] at an index that is not below the capacity does
    not terminate when [2^(size_bits-1) <= idx + 1 < 2^size_bits]: the
    default round-up function loops. At the greatest index of the size
    type, where [idx + 1] wraps to [0], no element is ever stored: the
    only value the expression can have is the [1] of a failure, the
    fields of the vector are as they were, and its storage, asked to be
    resized to no byte, has been freed, so that no slot can be read
    afterwards. *)
Theorem insert_index_overflow v idx elem (m : mem T) :
  in_size_t w idx → capacity v ≤ idx →
  (2 ^ (Z.pos w - 1) ≤ idx + 1 < 2 ^ Z.pos w →
   AB_vec_insert cfg v idx elem m = Diverge) ∧
  (idx + 1 = 2 ^ Z.pos w →
   ∀ r v' m', AB_vec_insert cfg v idx elem m = Ret (r, v', m') →
              r = 1 ∧ v' = v ∧ heap m' = release (elems v) (heap m) ∧
              ∀ i, AB_vec_at v' i m' = Undef).
Proof.
  intros Hidx Hcap. split.
  - intros [Hlo Hhi]. unfold AB_vec_insert, AB_vec_insert_generic.
    rewrite (wrap_small _ _ Hidx).
    destruct (capacity v <=? idx) eqn:E; [| lia].
    rewrite (wrap_small w (idx + 1)) by (unfold in_size_t in *; lia).
    destruct (roundup_diverges w (idx + 1) Hlo) as [-> _]. reflexivity.
  - intros Hmax r v' m' Hins.
    destruct (insert_ret _ _ _ _ _ _ _ Hidx Hins)
      as [(m1 & Hgen & Hst) | (-> & -> & n & Hround & Hheap)].
    + exfalso.
      destruct (insert_grown _ _ _ _ _ _ _ Hidx Hcap Hgen Hst) as (Hfit & _). lia.
    + assert (wrap w (idx + 1) = 0) as Hw0.
      { unfold wrap. rewrite Hmax. apply Z.mod_same.
        pose proof (pow2_pos (Z.pos w)). lia. }
      rewrite Hw0 in Hround. injection Hround as <-.
      assert (heap m' = release (elems v) (heap m)) as Hfreed.
      { rewrite Hheap, Z.mul_0_r. destruct (elems v); reflexivity. }
      split; [reflexivity |]. split; [reflexivity |]. split; [exact Hfreed |].
      intros i. unfold AB_vec_at, load. rewrite Hfreed.
      destruct (elems v) as [b|]; [| reflexivity].
      simpl. rewrite lookup_delete_eq. reflexivity.
Qed.

(** *** The data model is kept *)

Lemma backed_block (m : mem T) v b :
  backed cfg m v → elems v = Some b →
  ∃ blk, heap m !! b = Some blk ∧
         length blk = cells_of (wrap w (esize * capacity v)).
Proof. unfold backed. intros Hb He. rewrite He in Hb. exact Hb. Qed.

(** Within the data model the storage holds at most [capacity] cells. *)
Lemma vec_ok_cells (m : mem T) v b blk :
  vec_ok cfg m v → elems v = Some b → heap m !! b = Some blk →
  Z.of_nat (length blk) ≤ capacity v ∧ Z.of_nat (length blk) < 2 ^ Z.pos w.
Proof.
  intros (Hb & Hn & Hc) He Hblk.
  destruct (backed_block _ _ _ Hb He) as (blk' & Hblk' & Hlen).
  assert (blk' = blk) as -> by congruence. rewrite Hlen.
  split; [apply cells_of_wrap_le; lia | apply cells_of_wrap_lt].
Qed.

Lemma pop_ok v (m : mem T) c v' m' :
  vec_ok cfg m v → AB_vec_pop cfg v m = Ret (c, v', m') →
  0 < num v ∧ v' = set_num v (num v - 1) ∧ m' = m ∧
  AB_vec_at v (num v - 1) m = Ret c.
Proof.
  intros Hok Hp. pose proof Hok as (Hb & Hn & Hc).
  destruct (Z.eq_dec (num v) 0) as [Hz | Hnz].
  - exfalso. unfold AB_vec_pop in Hp. inv_bind Hp. inv_bind Hp.
    apply load_ret in Hc1 as (b & blk & He & Hblk & _ & Hlk).
    destruct (vec_ok_cells _ _ _ _ Hok He Hblk) as (_ & Hlt).
    apply lookup_lt_Some in Hlk. rewrite Hz in Hlk.
    unfold wrap in Hlk. change (0 - 1) with (-1) in Hlk.
    pose proof (pow2_pos (Z.pos w) ltac:(lia)) as HM.
    rewrite (Z.mod_opp_l_nz 1) in Hlk;
      rewrite ?(Z.mod_1_l) in * by
        (pose proof (pow2_le_mono 1 (Z.pos w)); change (2 ^ 1) with 2 in *; lia);
      try lia.
  - rewrite pop_nonempty in Hp by (unfold in_size_t in *; lia).
    inv_bind Hp. injection Hp as <- <- <-. repeat split; auto; lia.
Qed.

Lemma memcpy_backed dst src nbytes (m m' : mem T) v :
  memcpy dst src nbytes m = Ret m' → backed cfg m v → backed cfg m' v.
Proof.
  intros Hcp Hv.
  apply memcpy_ret in Hcp
    as [(_ & ->) | (_ & d & s & bd & bs & rest & _ & _ & _ & Hbd & _ & Hnd & Hns & Hrest & ->)];
    [exact Hv |].
  unfold backed in *. destruct (elems v) as [bv|]; [| exact Hv].
  destruct Hv as (blkv & Hbv & Hlen). simpl. rewrite lookup_insert.
  destruct (decide (d = bv)) as [<-|Hne]; simpl; [| eauto].
  eexists. split; [reflexivity |].
  rewrite length_app, length_take, Hrest.
  assert (blkv = bd) as -> by congruence. lia.
Qed.

(** X10: the data model of a vector (its storage is the block of its
    capacity, its length is within its capacity, its capacity is a value
    of the size type) holds of [AB_VEC_INIT] and is kept by every
    successful [AB_vec_push], [AB_vec_insert], [AB_vec_pop], and, for the
    destination, [AB_vec_copy]. *)
Theorem vec_ok_kept v (m : mem T) :
  vec_ok cfg m AB_VEC_INIT ∧
  (vec_ok cfg m v →
   (∀ x v' m', AB_vec_push cfg v x m = Ret (0, v', m') → vec_ok cfg m' v') ∧
   (∀ idx x v' m1 m',
      in_size_t w idx →
      AB_vec_insert_generic cfg v idx m = Ret (0, v', m1) →
      store m1 (elems v') idx x = Ret m' → vec_ok cfg m' v') ∧
   (∀ c v' m', AB_vec_pop cfg v m = Ret (c, v', m') → vec_ok cfg m' v') ∧
   (∀ dest dest' m',
      vec_ok cfg m dest →
      AB_vec_copy cfg dest v m = Ret (0, dest', m') → vec_ok cfg m' dest')).
Proof.
  split.
  { split; [reflexivity |]. simpl. split; [lia |]. split; [lia | apply pow2_pos; lia]. }
  intros Hok. pose proof Hok as (Hb & Hn & Hc).
  split; [| split; [| split]].
  - intros x v' m' Hp. split; [eapply push_backed; eauto |].
    apply push_step in Hp as (H0 & Hnum & Hcase).
    destruct Hcase as [(Hne & Hc') | (Heq & _ & Hgrow & Hc')].
    + rewrite Hc', Hnum, wrap_small by (unfold in_size_t in *; lia).
      split; [lia | exact Hc].
    + rewrite Hnum, wrap_small by (unfold in_size_t in *; lia).
      split; [lia | exact Hc'].
  - intros idx x v' m1 m' Hidx Hgen Hst.
    split; [eapply store_backed; [exact Hst |]; eapply insert_generic_backed; eauto |].
    destruct (insert_capacity_cases _ _ _ _ _ _ _ Hidx Hgen Hst)
      as (Hmono & Hlt & Hsame & _).
    assert (in_size_t w (capacity v')) as Hc'.
    { destruct (Z_lt_le_dec idx (capacity v)) as [Hin | Hout].
      - destruct (Hsame Hin) as (-> & _). exact Hc.
      - destruct (insert_grown _ _ _ _ _ _ _ Hidx Hout Hgen Hst) as (_ & Hround & _).
        eapply roundup_ret_range; [| exact Hround]. unfold in_size_t in *. lia. }
    split; [| exact Hc'].
    rewrite (insert_generic_num cfg _ _ _ _ _ Hgen).
    destruct (num v <=? idx) eqn:E.
    + rewrite wrap_small by (unfold in_size_t in *; lia). unfold in_size_t in *. lia.
    + lia.
  - intros c v' m' Hp. destruct (pop_ok _ _ _ _ _ Hok Hp) as (Hpos & -> & -> & _).
    split; [exact Hb |]. simpl. split; [lia | exact Hc].
  - intros dest dest' m' (Hbd & Hnd & Hcd) Hcp. unfold AB_vec_copy in Hcp.
    apply copy_generic_ret in Hcp as (dest1 & m1 & Hcase & -> & Hcpy).
    assert (backed cfg m1 dest1 ∧ capacity v ≤ capacity dest1 ∧
            in_size_t w (capacity dest1)) as (Hb1 & Hcap1 & Hc1).
    { destruct Hcase as [(Hle & -> & ->) | (_ & Hr)]; [auto |].
      split; [eapply resize_generic_backed, Hr |].
      apply resize_generic_ok in Hr as (old & _ & _ & -> & _). simpl.
      split; [lia | exact Hc]. }
    split; [apply set_num_backed; eapply memcpy_backed; eauto |].
    simpl. split; [lia | exact Hc1].
Qed.

(** *** After [AB_vec_destroy] *)

(** X11: after [AB_vec_destroy] of a vector with storage, the vector
    still points to the freed block, so that a second [AB_vec_destroy],
    an [AB_vec_push], an [AB_vec_pushp] and an [AB_vec_at] are undefined,
    and an [AB_vec_pop] returns no value. *)
Theorem use_after_destroy v (m : mem T) b v1 m1 :
  elems v = Some b →
  AB_vec_destroy cfg v m = Ret (v1, m1) →
  v1 = v ∧ heap m1 !! b = None ∧
  AB_vec_destroy cfg v1 m1 = Undef ∧
  (∀ x, AB_vec_push cfg v1 x m1 = Undef) ∧
  AB_vec_pushp cfg v1 m1 = Undef ∧
  (∀ i, AB_vec_at v1 i m1 = Undef) ∧
  (∀ r, AB_vec_pop cfg v1 m1 ≠ Ret r).
Proof.
  intros He Hd. unfold AB_vec_destroy, AB_VEC_FREE in Hd. rewrite He in Hd.
  destruct (heap m !! b) as [blk|] eqn:Hb; [| discriminate].
  simpl in Hd. injection Hd as <- <-.
  assert (heap (Mem (delete b (heap m))
                    (calls m ++ [EvFree (Some b)
                       (wrap w (capacity v * esize)) (userdata v)])) !! b = None)
    as Hgone by apply lookup_delete_eq.
  set (m1 := Mem _ _) in *.
  split; [reflexivity |]. split; [exact Hgone |].
  assert (∀ i, load m1 (elems v) i = Undef) as Hload.
  { intros i. unfold load. rewrite He, Hgone. reflexivity. }
  assert (∀ i x, store m1 (elems v) i x = Undef) as Hstore.
  { intros i x. unfold store. rewrite He, Hgone. reflexivity. }
  assert (∀ n, AB_vec_resize cfg v n m1 = Undef) as Hresize.
  { intros n. unfold AB_vec_resize, AB_vec_resize_generic, AB_VEC_REALLOC, block_at.
    rewrite He, Hgone. reflexivity. }
  split; [| split; [| split; [| split]]].
  - unfold AB_vec_destroy, AB_VEC_FREE. rewrite He, Hgone. reflexivity.
  - intros x. unfold AB_vec_push, push_slot. rewrite Hresize, Hstore.
    destruct (num v =? capacity v); reflexivity.
  - unfold AB_vec_pushp, pushp_slot, addr_of. rewrite Hresize, He, Hgone.
    destruct (num v =? capacity v); reflexivity.
  - intros i. apply Hload.
  - intros r. unfold AB_vec_pop. rewrite Hload.
    destruct (AB_VEC_ASSERT cfg (0 <? num v)); discriminate.
Qed.

(** *** Pop, then push *)

(** X12: [AB_vec_pop] on a vector within its data model changes the length
    only: the memory, the capacity and the storage are as before and the
    element popped is still in its slot. A push after it then reports [0]
    without a call to the allocator, restores the length and puts its
    element in that slot. *)
Theorem pop_push v (m : mem T) c v1 m1 x :
  vec_ok cfg m v →
  AB_vec_pop cfg v m = Ret (c, v1, m1) →
  m1 = m ∧ num v1 = num v - 1 ∧ capacity v1 = capacity v ∧ elems v1 = elems v ∧
  AB_vec_at v1 (num v1) m1 = Ret c ∧
  ∃ m2, AB_vec_push cfg v1 x m1 = Ret (0, v, m2) ∧
        calls m2 = calls m ∧
        AB_vec_at v (num v - 1) m2 = Ret (Val x).
Proof.
  intros Hok Hp. pose proof Hok as (Hb & Hn & Hc).
  destruct (pop_ok _ _ _ _ _ Hok Hp) as (Hpos & -> & -> & Hat).
  simpl. repeat (split; [auto |]).
  unfold AB_vec_at in Hat.
  apply load_ret in Hat as (b & blk & He & Hblk & H0 & Hlk).
  pose proof (lookup_lt_Some _ _ _ Hlk) as Hlen.
  eexists (Mem (<[b := <[Z.to_nat (num v - 1) := Val x]> blk]> (heap m)) (calls m)).
  assert (store m (elems v) (num v - 1) x
          = Ret (Mem (<[b := <[Z.to_nat (num v - 1) := Val x]> blk]> (heap m))
                     (calls m))) as Hst.
  { unfold store. rewrite He, Hblk.
    destruct ((0 <=? num v - 1) && (num v - 1 <? Z.of_nat (length blk))) eqn:E;
      [reflexivity |].
    apply andb_false_iff in E as [E|E]; lia. }
  split; [| split; [reflexivity |]].
  - unfold AB_vec_push, push_slot. simpl.
    destruct (num v - 1 =? capacity v) eqn:E; [lia |].
    rewrite Hst. simpl.
    replace (num v - 1 + 1) with (num v) by lia.
    rewrite wrap_small by (unfold in_size_t in *; lia).
    rewrite set_num_set_num, set_num_same. reflexivity.
  - unfold AB_vec_at. eapply load_store_same, Hst.
Qed.

(** *** Copy: the source, the slots copied, and failure *)

Lemma load_other_block (m : mem T) b blk p i :
  p ≠ Some b →
  load (Mem (<[b := blk]> (heap m)) (calls m)) p i = load m p i.
Proof.
  intros Hp. unfold load. destruct p as [b'|]; [| reflexivity]. simpl.
  rewrite lookup_insert_ne by congruence. reflexivity.
Qed.

Lemma cells_of_zero : cells_of (T:=T) 0 = 0%nat.
Proof. unfold cells_of. rewrite Z.div_0_l by lia. reflexivity. Qed.

Lemma copy_apart dest src (m : mem T) dest' m' :
  backed cfg m src →
  AB_vec_copy cfg dest src m = Ret (0, dest', m') →
  (∀ i c, AB_vec_at src i m = Ret c → AB_vec_at src i m' = Ret c) ∧
  (∀ i x m'', AB_vec_at_set dest' i x m' = Ret m'' →
              ∀ j, AB_vec_at src j m'' = AB_vec_at src j m').
Proof.
  intros Hbacked Hcp. unfold AB_vec_copy in Hcp.
  apply copy_generic_ret in Hcp as (dest1 & m1 & Hcase & -> & Hcpy).
  unfold AB_vec_at, AB_vec_at_set. simpl.
  apply memcpy_ret in Hcpy
    as [(Hzero & ->) | (_ & d & s & bd & bs & rest & Hd & Hs & Hds & Hbd & Hbs & _ & _ & _ & ->)].
  - (* no byte to copy: the source has no cell *)
    split.
    + intros i c Hat. exfalso.
      apply load_ret in Hat as (s & bs & Hs & Hbs & _ & Hlk).
      destruct (backed_block _ _ _ Hbacked Hs) as (blk & Hblk & Hlen).
      assert (blk = bs) as -> by congruence.
      apply lookup_lt_Some in Hlk. rewrite Hlen, Hzero, cells_of_zero in Hlk. lia.
    + intros i x m'' Hst j.
      apply store_ret in Hst as (d0 & blk0 & Hd0 & Hblk0 & Hi & ->).
      apply load_other_block. intros Hs.
      destruct (backed_block _ _ _ Hbacked Hs) as (blk & Hblk & Hlen).
      rewrite Hzero, cells_of_zero in Hlen.
      destruct Hcase as [(_ & -> & ->) | (_ & Hr)].
      * assert (blk0 = blk) as -> by congruence. lia.
      * apply resize_generic_ok in Hr as (old & _ & _ & Hv & _).
        rewrite Hv in Hd0. simpl in Hd0. injection Hd0 as <-.
        pose proof (fresh_block_free m) as Hf. congruence.
  - split.
    + intros i c Hat.
      rewrite load_other_block by (rewrite Hs; congruence).
      apply load_ret in Hat as (s' & bs' & Hs' & Hbs' & H0 & Hlk).
      rewrite Hs in Hs'. injection Hs' as <-.
      assert (bs = bs') as ->.
      { destruct Hcase as [(_ & _ & ->) | (_ & Hr)]; [congruence |].
        eapply resize_generic_old_block; eauto. }
      rewrite Hs. eapply load_intro; eauto.
    + intros i x m'' Hst j.
      apply store_ret in Hst as (d0 & blk0 & Hd0 & _ & _ & ->).
      rewrite Hd in Hd0. injection Hd0 as <-. simpl.
      unfold load. rewrite Hs. simpl.
      rewrite !lookup_insert_ne by congruence. reflexivity.
Qed.

(** X13: a successful [AB_vec_copy(dest, src)] leaves every element of
    [src] as it was, and the storage of [dest] is apart from that of
    [src]: an assignment to a slot of [dest] afterwards changes no slot of
    [src]. *)
Theorem copy_independent dest src (m : mem T) dest' m' :
  backed cfg m src →
  AB_vec_copy cfg dest src m = Ret (0, dest', m') →
  (∀ i c, AB_vec_at src i m = Ret c → AB_vec_at src i m' = Ret c) ∧
  (∀ i x m'', AB_vec_at_set dest' i x m' = Ret m'' →
              ∀ j, AB_vec_at src j m'' = AB_vec_at src j m').
Proof. apply copy_apart. Qed.

(** X14: [AB_vec_copy(dest, src)] copies every slot of the capacity of
    [src], also those from its length on. When the capacity of [dest] is
    not below that of [src] the allocator is not called and [dest] keeps
    its capacity and its storage. When it is below and the allocator
    returns [NULL], the copy stops on the assertion, or, without
    assertions, reports [1] with the fields of [dest] as before; every
    block is as before too when [dest] has no storage or the bytes of the
    capacity of [src] are positive and a value of the size type, and the
    storage of [dest] has been freed when they wrap to [0]. *)
Theorem copy_slots dest src (m : mem T) :
  backed cfg m src →
  (∀ dest' m',
     AB_vec_copy cfg dest src m = Ret (0, dest', m') →
     (∀ i c, AB_vec_at src i m = Ret c → AB_vec_at dest' i m' = Ret c) ∧
     (capacity src ≤ capacity dest →
      capacity dest' = capacity dest ∧ elems dest' = elems dest ∧
      calls m' = calls m)) ∧
  (∀ old,
     capacity dest < capacity src →
     block_at m (elems dest) = Ret old →
     realloc_frees (elems dest) (wrap w (esize * capacity src)) = true ∨
     alloc_ok cfg (calls m) (wrap w (esize * capacity src)) = false →
     ∃ m', AB_vec_copy cfg dest src m
             = (if assertions cfg then Abort else Ret (1, dest, m')) ∧
           heap m' = (if realloc_frees (elems dest)
                           (wrap w (esize * capacity src))
                      then release (elems dest) (heap m) else heap m) ∧
           (elems dest = None ∨ 0 < esize * capacity src < 2 ^ Z.pos w →
            heap m' = heap m)).
Proof.
  intros Hbacked. split.
  - intros dest' m' Hcp.
    destruct (copy_apart _ _ _ _ _ Hbacked Hcp) as (Hsrc & _).
    unfold AB_vec_copy in Hcp.
    apply copy_generic_ret in Hcp as (dest1 & m1 & Hcase & -> & Hcpy).
    split.
    + intros i c Hat. specialize (Hsrc i c Hat).
      unfold AB_vec_at in *. simpl.
      apply load_ret in Hat as (s & bs & Hs & Hbs & H0 & Hlk).
      destruct (backed_block _ _ _ Hbacked Hs) as (blk & Hblk & Hlen).
      assert (blk = bs) as -> by congruence.
      pose proof (lookup_lt_Some _ _ _ Hlk) as Hlt.
      apply memcpy_ret in Hcpy
        as [(Hzero & ->) | (_ & d & s' & bd & bs' & rest & Hd & Hs' & Hds & Hbd & Hbs' & _ & _ & _ & ->)].
      * rewrite Hlen, Hzero, cells_of_zero in Hlt. lia.
      * rewrite Hs in Hs'. injection Hs' as <-.
        rewrite Hs in Hsrc.
        apply load_ret in Hsrc as (s2 & bs2 & Hs2 & Hbs2 & _ & Hlk2).
        injection Hs2 as <-. simpl in Hbs2.
        rewrite lookup_insert_ne in Hbs2 by exact Hds.
        assert (bs2 = bs') as -> by congruence.
        pose proof (lookup_lt_Some _ _ _ Hlk2) as Hlt2.
        assert (length bs' = length bs) as Hsame.
        { destruct Hcase as [(_ & _ & ->) | (_ & Hr)]; [congruence |].
          f_equal. eapply resize_generic_old_block; eauto. }
        rewrite Hd. eapply load_intro; [simpl; apply lookup_insert_eq | lia |].
        rewrite lookup_app_l by (rewrite length_take; lia).
        rewrite lookup_take_lt by lia. exact Hlk2.
    + intros Hle. destruct Hcase as [(_ & -> & ->) | (Hlt & _)]; [| lia].
      simpl. repeat split; auto.
      apply memcpy_ret in Hcpy as [(_ & ->) | (_ & d & s' & bd & bs' & rest & _ & _ & _ & _ & _ & _ & _ & _ & ->)];
        reflexivity.
  - intros old Hlt Hold Hnull.
    destruct (resize_generic_null cfg dest _ m old Hold Hnull)
      as (m' & Hheap & _ & Hr).
    exists m'. split; [| split; [exact Hheap |]].
    + unfold AB_vec_copy, AB_vec_copy_generic.
      destruct (capacity dest <? capacity src) eqn:E; [| lia].
      rewrite Hr. unfold AB_VEC_ASSERT.
      destruct (assertions cfg); reflexivity.
    + intros Hnz. rewrite Hheap, (realloc_frees_not cfg _ _ Hnz). reflexivity.
Qed.

(** *** Resize: what becomes of the elements *)

Lemma regrow_lookup_new (old : list (cell T)) n i :
  (length old ≤ i)%nat → (i < n)%nat → regrow old n !! i = Some Indet.
Proof.
  intros Hold Hi. unfold regrow.
  rewrite lookup_app_r by (rewrite length_take; lia).
  apply lookup_replicate_2. rewrite length_take. lia.
Qed.

(** X15: after a successful [AB_vec_resize(vec, n)] the storage has the
    slots of [wrap (sizeof * n)] bytes: [n] slots when [sizeof * n] is a
    value of the size type, and fewer than the new capacity [n] when the
    product wraps. Among these slots, those that the vector had keep their
    content and the others are indeterminate; there is no slot beyond
    them. *)
Theorem resize_contents v n (m : mem T) v' m' :
  in_size_t w n →
  AB_vec_resize cfg v n m = Ret (0, v', m') →
  let k := Z.of_nat (cells_of (wrap w (esize * n))) in
  (esize * n < 2 ^ Z.pos w → k = n) ∧
  (2 ^ Z.pos w ≤ esize * n → k < capacity v') ∧
  (∀ i c, 0 ≤ i < k → AB_vec_at v i m = Ret c → AB_vec_at v' i m' = Ret c) ∧
  (∀ i, 0 ≤ i < k → AB_vec_at v i m = Undef → AB_vec_at v' i m' = Ret Indet) ∧
  (∀ i, k ≤ i → AB_vec_at v' i m' = Undef).
Proof.
  intros Hn Hr k. unfold AB_vec_resize in Hr.
  rewrite (wrap_small _ _ Hn) in Hr. pose proof Hr as Hr'.
  apply resize_generic_ok in Hr' as (old & Hold & _ & -> & Hheap & _).
  unfold AB_vec_at.
  change (elems (set_storage v (Some (fresh (dom (heap m)))) n))
    with (Some (fresh (dom (heap m)))).
  change (capacity (set_storage v (Some (fresh (dom (heap m)))) n)) with n.
  assert (heap m' !! fresh (dom (heap m))
          = Some (regrow old (cells_of (wrap w (esize * n))))) as Hnew.
  { rewrite Hheap. apply lookup_insert_eq. }
  split; [| split; [| split; [| split]]].
  - intros Hfit. unfold k. rewrite cells_of_exact by (unfold in_size_t in *; lia).
    unfold in_size_t in *. lia.
  - intros Hwrap. unfold k, cells_of.
    pose proof (wrap_range w (esize * n)) as [Hlo Hhi].
    rewrite Z2Nat.id by (apply Z.div_pos; lia).
    apply Z.div_lt_upper_bound; lia.
  - intros i c Hi Hat.
    apply (resize_generic_load cfg _ _ _ _ _ _ _ Hr Hat). unfold k in Hi. lia.
  - intros i Hi Hat. eapply load_intro; [exact Hnew | lia |].
    apply regrow_lookup_new; [| unfold k in Hi; lia].
    unfold block_at, load in *. destruct (elems v) as [b|].
    + destruct (heap m !! b) as [blk|]; [| discriminate].
      injection Hold as <-. destruct (0 <=? i) eqn:E; [| lia].
      destruct (blk !! Z.to_nat i) eqn:Hlk; [discriminate |].
      apply lookup_ge_None in Hlk. exact Hlk.
    + injection Hold as <-. simpl. lia.
  - intros i Hi. unfold load. rewrite Hnew.
    destruct (0 <=? i) eqn:E; [| reflexivity].
    rewrite lookup_ge_None_2; [reflexivity |].
    rewrite regrow_length. unfold k in Hi. lia.
Qed.

(** *** Reading and writing a slot *)

(** X16: [AB_vec_at] is not checked against the length. On a vector whose
    storage is the block of its capacity, a capacity whose bytes the size
    type counts, every index below the capacity can be read and assigned,
    and an assignment is read back, changes no other slot and no field of
    the vector; every other index is undefined. *)
Theorem at_bounds v idx x (m : mem T) b :
  backed cfg m v → elems v = Some b →
  0 ≤ capacity v → esize * capacity v < 2 ^ Z.pos w →
  (0 ≤ idx < capacity v →
   (∃ c, AB_vec_at v idx m = Ret c) ∧
   ∃ m', AB_vec_at_set v idx x m = Ret m' ∧
         AB_vec_at v idx m' = Ret (Val x) ∧
         (∀ j, j ≠ idx → AB_vec_at v j m' = AB_vec_at v j m) ∧
         backed cfg m' v) ∧
  (idx < 0 ∨ capacity v ≤ idx →
   AB_vec_at v idx m = Undef ∧ AB_vec_at_set v idx x m = Undef).
Proof.
  intros Hb He Hc Hfit.
  destruct (backed_block _ _ _ Hb He) as (blk & Hblk & Hlen).
  rewrite cells_of_exact in Hlen by lia.
  unfold AB_vec_at, AB_vec_at_set, load, store. rewrite He, Hblk. split.
  - intros Hi.
    destruct (0 <=? idx) eqn:E0; [| lia].
    destruct (idx <? Z.of_nat (length blk)) eqn:E1; [| lia]. simpl.
    destruct (lookup_lt_is_Some_2 blk (Z.to_nat idx) ltac:(lia)) as [c Hlk].
    rewrite Hlk. split; [eauto |].
    eexists. split; [reflexivity |]. simpl. rewrite lookup_insert_eq.
    rewrite list_lookup_insert_eq by lia.
    split; [reflexivity |]. split.
    + intros j Hj. destruct (0 <=? j) eqn:Ej; [| reflexivity].
      rewrite list_lookup_insert_ne by lia. reflexivity.
    + unfold backed. rewrite He. simpl. eexists.
      rewrite lookup_insert_eq. split; [reflexivity |].
      rewrite length_insert, cells_of_exact by lia. exact Hlen.
  - intros Hout. destruct (0 <=? idx) eqn:E0.
    + destruct (idx <? Z.of_nat (length blk)) eqn:E1; [lia |]. simpl.
      rewrite lookup_ge_None_2 by lia. auto.
    + auto.
Qed.

(** *** The userdata *)

Lemma userdata_frame_calls v (m m' : mem T) :
  calls m' = calls m → userdata_frame v m v m'.
Proof.
  intros Hc. split; [reflexivity |]. exists []. rewrite app_nil_r. auto.
Qed.

Lemma userdata_frame_refl v (m : mem T) : userdata_frame v m v m.
Proof. apply userdata_frame_calls. reflexivity. Qed.

Lemma userdata_frame_trans v1 (m1 : mem T) v2 m2 v3 m3 :
  userdata_frame v1 m1 v2 m2 → userdata_frame v2 m2 v3 m3 →
  userdata_frame v1 m1 v3 m3.
Proof.
  intros (Hu1 & evs1 & Hc1 & Hf1) (Hu2 & evs2 & Hc2 & Hf2).
  split; [congruence |]. exists (evs1 ++ evs2).
  rewrite Hc2, Hc1, app_assoc. split; [reflexivity |].
  apply Forall_app. split; [exact Hf1 |].
  eapply Forall_impl; [exact Hf2 |]. simpl. intros e He. congruence.
Qed.

Lemma store_frame (m m' : mem T) p i x v :
  store m p i x = Ret m' → userdata_frame v m v m'.
Proof.
  intros Hst. apply store_ret in Hst as (b & blk & _ & _ & _ & ->).
  apply userdata_frame_calls. reflexivity.
Qed.

Lemma resize_generic_frame v n (m : mem T) r v' m' :
  AB_vec_resize_generic cfg v n m = Ret (r, v', m') → userdata_frame v m v' m'.
Proof.
  unfold AB_vec_resize_generic. intros Hr. inv_bind Hr. destruct a as [q m1].
  inv_bind Hr.
  apply realloc_ret in Hc as (old & _ & [(_ & _ & -> & ->) | (-> & _ & ->)]);
    injection Hr as <- <- <-; (split; [reflexivity |]); eexists [_];
    (split; [reflexivity |]); repeat constructor.
Qed.

(** X17: no operation changes the userdata of the vector it works on, and
    every call that it makes to the allocator carries that userdata:
    [AB_vec_resize], [AB_vec_push], [AB_vec_insert], [AB_vec_pop],
    [AB_vec_destroy], and [AB_vec_copy] for its destination, whose
    userdata, and not that of the source, goes with the allocation. *)
Theorem userdata_kept v (m : mem T) :
  (∀ n r v' m', AB_vec_resize cfg v n m = Ret (r, v', m') →
                userdata_frame v m v' m') ∧
  (∀ x r v' m', AB_vec_push cfg v x m = Ret (r, v', m') →
                userdata_frame v m v' m') ∧
  (∀ idx x r v' m', AB_vec_insert cfg v idx x m = Ret (r, v', m') →
                    userdata_frame v m v' m') ∧
  (∀ c v' m', AB_vec_pop cfg v m = Ret (c, v', m') → userdata_frame v m v' m') ∧
  (∀ v' m', AB_vec_destroy cfg v m = Ret (v', m') → userdata_frame v m v' m') ∧
  (∀ src r v' m', AB_vec_copy cfg v src m = Ret (r, v', m') →
                  userdata_frame v m v' m').
Proof.
  split; [| split; [| split; [| split; [| split]]]].
  - intros n r v' m' Hr. eapply resize_generic_frame, Hr.
  - intros x r v' m' Hp. unfold AB_vec_push in Hp.
    assert (∀ v0 (m0 : mem T) r0 v1 m1,
              push_slot cfg v0 x m0 = Ret (r0, v1, m1) →
              userdata_frame v0 m0 v1 m1) as Hslot.
    { intros v0 m0 r0 v1 m1 Hs. apply push_slot_ret in Hs as (_ & Hst & ->).
      eapply (store_frame _ _ _ _ _ v0) in Hst. exact Hst. }
    destruct (num v =? capacity v); [| eapply Hslot, Hp].
    inv_bind Hp. destruct a as [[err v1] m1].
    pose proof (resize_generic_frame _ _ _ _ _ _ Hc) as Hf1.
    destruct (err =? 0).
    + eapply userdata_frame_trans; [exact Hf1 | eapply Hslot, Hp].
    + injection Hp as <- <- <-. exact Hf1.
  - intros idx x r v' m' Hi. unfold AB_vec_insert in Hi.
    inv_bind Hi. destruct a as [[err v1] m1].
    assert (userdata_frame v m v1 m1) as Hf1.
    { unfold AB_vec_insert_generic in Hc. inv_bind Hc.
      destruct a as [[err0 v0] m0].
      assert (userdata_frame v m v0 m0) as Hf0.
      { destruct (capacity v <=? wrap w idx).
        - inv_bind Hc0. eapply resize_generic_frame, Hc0.
        - injection Hc0 as <- <- <-. apply userdata_frame_refl. }
      destruct (err0 =? 0); injection Hc as <- <- <-; [| exact Hf0].
      destruct Hf0 as (Hu & Hev). split; [| exact Hev].
      destruct (if_set_num_fields (num v0 <=? wrap w idx) v0
                  (wrap w (wrap w idx + 1))) as (_ & _ & ->). exact Hu. }
    destruct (err =? 0).
    + inv_bind Hi. injection Hi as <- <- <-.
      eapply userdata_frame_trans; [exact Hf1 |]. eapply store_frame, Hc0.
    + injection Hi as <- <- <-. exact Hf1.
  - intros c v' m' Hp. unfold AB_vec_pop in Hp. inv_bind Hp. inv_bind Hp.
    injection Hp as <- <- <-. split; [reflexivity |].
    exists []. rewrite app_nil_r. auto.
  - intros v' m' Hd. unfold AB_vec_destroy in Hd. inv_bind Hd.
    injection Hd as <- <-. unfold AB_VEC_FREE in Hc.
    split; [reflexivity |].
    exists [EvFree (elems v) (wrap w (capacity v * esize)) (userdata v)].
    destruct (elems v) as [b|].
    + destruct (heap m !! b); [| discriminate]. injection Hc as <-.
      split; [reflexivity |]. repeat constructor.
    + injection Hc as <-. split; [reflexivity |]. repeat constructor.
  - intros src r v' m' Hcp. unfold AB_vec_copy, AB_vec_copy_generic in Hcp.
    inv_bind Hcp. destruct a as [[err v1] m1]. inv_bind Hcp.
    assert (userdata_frame v m v1 m1) as Hf1.
    { destruct (capacity v <? capacity src).
      - eapply resize_generic_frame, Hc.
      - injection Hc as <- <- <-. apply userdata_frame_refl. }
    destruct (err =? 0); [| injection Hcp as <- <- <-; exact Hf1].
    inv_bind Hcp. injection Hcp as <- <- <-.
    destruct Hf1 as (Hu & evs & Hcalls & Hall). split; [exact Hu |].
    exists evs. split; [| exact Hall]. rewrite <- Hcalls.
    apply memcpy_ret in Hc1
      as [(_ & ->) | (_ & d & s & bd & bs & rest & _ & _ & _ & _ & _ & _ & _ & _ & ->)];
      reflexivity.
Qed.

(** *** The blocks of the memory *)

Lemma store_owns h0 (m m' : mem T) v i x :
  store m (elems v) i x = Ret m' → owns h0 m v → owns h0 m' v.
Proof.
  intros Hst Hown. apply store_ret in Hst as (b & blk & He & Hblk & _ & ->).
  unfold owns in *. rewrite He in *. destruct Hown as (Hfree & blk0 & Hheap).
  split; [exact Hfree |]. eexists. simpl. rewrite Hheap.
  apply insert_insert_eq.
Qed.

Lemma resize_generic_owns h0 v n (m : mem T) r v' m' :
  AB_vec_resize_generic cfg v n m = Ret (r, v', m') →
  owns h0 m v →
  owns h0 m' v' ∨ (r = 1 ∧ v' = v ∧ heap m' = h0).
Proof.
  intros Hr Hown. destruct (Z.eq_dec r 0) as [-> | Hne].
  - left. apply resize_generic_ok in Hr as (old & _ & _ & -> & Hheap & _).
    pose proof (fresh_block_free m) as Hfresh.
    unfold owns in *. simpl. rewrite Hheap.
    destruct (elems v) as [b|]; simpl.
    + destruct Hown as (Hfree & blk0 & Hm). rewrite Hm in Hfresh |- *.
      rewrite delete_insert_id by exact Hfree.
      apply lookup_insert_None in Hfresh as [Hf _]. eauto.
    + rewrite Hown in Hfresh |- *. eauto.
  - apply resize_generic_fail in Hr as (-> & -> & Hheap & _); [| exact Hne].
    destruct (realloc_frees (elems v) (wrap w (esize * n))) eqn:Hf.
    + right. split; [reflexivity |]. split; [reflexivity |].
      rewrite Hheap. unfold owns in Hown. destruct (elems v) as [b|].
      * destruct Hown as (Hfree & blk & ->). simpl.
        apply delete_insert_id, Hfree.
      * discriminate Hf.
    + left. unfold owns in *. rewrite Hheap. exact Hown.
Qed.

Lemma set_num_owns h0 (m : mem T) v k : owns h0 m v → owns h0 m (set_num v k).
Proof. intros Hown. exact Hown. Qed.

Lemma memcpy_owns h0 v src nbytes (m m' : mem T) :
  memcpy (elems v) src nbytes m = Ret m' → owns h0 m v → owns h0 m' v.
Proof.
  intros Hcp Hown.
  apply memcpy_ret in Hcp
    as [(_ & ->) | (_ & d & s & bd & bs & rest & Hd & _ & _ & _ & _ & _ & _ & _ & ->)];
    [exact Hown |].
  unfold owns in *. rewrite Hd in *. destruct Hown as (Hfree & blk0 & Hheap).
  split; [exact Hfree |]. eexists. simpl. rewrite Hheap.
  apply insert_insert_eq.
Qed.

Lemma push_owns h0 v x (m : mem T) r v' m' :
  AB_vec_push cfg v x m = Ret (r, v', m') → owns h0 m v →
  owns h0 m' v' ∨ (r = 1 ∧ v' = v ∧ heap m' = h0).
Proof.
  intros Hp Hown. unfold AB_vec_push in Hp.
  assert (∀ v0 (m0 : mem T) r0 v1 m1,
            push_slot cfg v0 x m0 = Ret (r0, v1, m1) →
            owns h0 m0 v0 → owns h0 m1 v1) as Hslot.
  { intros v0 m0 r0 v1 m1 Hs Hown0. apply push_slot_ret in Hs as (_ & Hst & ->).
    apply set_num_owns. eapply store_owns; eauto. }
  destruct (num v =? capacity v); [| left; eapply Hslot; eauto].
  inv_bind Hp. destruct a as [[err v1] m1].
  destruct (resize_generic_owns h0 _ _ _ _ _ _ Hc Hown)
    as [Hown1 | (-> & -> & Hfreed)].
  - left. destruct (err =? 0); [eapply Hslot; eauto |].
    injection Hp as <- <- <-. exact Hown1.
  - simpl in Hp. injection Hp as <- <- <-. right. auto.
Qed.

Lemma insert_generic_owns h0 v idx (m : mem T) r v' m' :
  AB_vec_insert_generic cfg v idx m = Ret (r, v', m') →
  owns h0 m v →
  owns h0 m' v' ∨ (r = 1 ∧ v' = v ∧ heap m' = h0).
Proof.
  intros Hi Hown. unfold AB_vec_insert_generic in Hi. inv_bind Hi.
  destruct a as [[err v1] m1].
  assert (owns h0 m1 v1 ∨ (err = 1 ∧ v1 = v ∧ heap m1 = h0))
    as [Hown1 | (-> & -> & Hfreed)].
  { destruct (capacity v <=? idx).
    - inv_bind Hc. eapply resize_generic_owns; eauto.
    - injection Hc as <- <- <-. left. exact Hown. }
  - left. destruct (err =? 0); injection Hi as <- <- <-; [| exact Hown1].
    destruct (num v1 <=? idx); [apply set_num_owns |]; exact Hown1.
  - simpl in Hi. injection Hi as <- <- <-. right. auto.
Qed.

(** X18: the operations work on the storage of their vector only. When
    the memory is a heap [h0] and the storage of the vector, if it has
    one, then after [AB_vec_push], [AB_vec_insert], [AB_vec_resize] and,
    for the destination, [AB_vec_copy], whatever they report, it is so
    again, or else they have reported [1], the fields of the vector are
    as before and the memory is the heap [h0] alone: the allocator,
    asked for no byte, has freed the storage. After [AB_vec_pop] it is
    so again. No other block is ever changed, and the vector has one
    block at most. [AB_vec_destroy] gives the heap [h0] back. *)
Theorem storage_owned h0 v (m : mem T) :
  owns h0 m v →
  (∀ x r v' m', AB_vec_push cfg v x m = Ret (r, v', m') →
                owns h0 m' v' ∨ (r = 1 ∧ v' = v ∧ heap m' = h0)) ∧
  (∀ idx x r v' m', AB_vec_insert cfg v idx x m = Ret (r, v', m') →
                    owns h0 m' v' ∨ (r = 1 ∧ v' = v ∧ heap m' = h0)) ∧
  (∀ c v' m', AB_vec_pop cfg v m = Ret (c, v', m') → owns h0 m' v') ∧
  (∀ n r v' m', AB_vec_resize cfg v n m = Ret (r, v', m') →
                owns h0 m' v' ∨ (r = 1 ∧ v' = v ∧ heap m' = h0)) ∧
  (∀ src r v' m', AB_vec_copy cfg v src m = Ret (r, v', m') →
                  owns h0 m' v' ∨ (r = 1 ∧ v' = v ∧ heap m' = h0)) ∧
  (∀ v' m', AB_vec_destroy cfg v m = Ret (v', m') → heap m' = h0).
Proof.
  intros Hown. split; [| split; [| split; [| split; [| split]]]].
  - intros x r v' m' Hp. eapply push_owns; eauto.
  - intros idx x r v' m' Hi. unfold AB_vec_insert in Hi. inv_bind Hi.
    destruct a as [[err v1] m1].
    destruct (insert_generic_owns h0 _ _ _ _ _ _ Hc Hown)
      as [Hown1 | (-> & -> & Hfreed)].
    + left. destruct (err =? 0).
      * inv_bind Hi. injection Hi as <- <- <-. eapply store_owns; eauto.
      * injection Hi as <- <- <-. exact Hown1.
    + simpl in Hi. injection Hi as <- <- <-. right. auto.
  - intros c v' m' Hp. unfold AB_vec_pop in Hp. inv_bind Hp. inv_bind Hp.
    injection Hp as <- <- <-. apply set_num_owns, Hown.
  - intros n r v' m' Hr. eapply resize_generic_owns; eauto.
  - intros src r v' m' Hcp. unfold AB_vec_copy, AB_vec_copy_generic in Hcp.
    inv_bind Hcp. destruct a as [[err v1] m1]. inv_bind Hcp.
    assert (owns h0 m1 v1 ∨ (err = 1 ∧ v1 = v ∧ heap m1 = h0))
      as [Hown1 | (-> & -> & Hfreed)].
    { destruct (capacity v <? capacity src).
      - eapply resize_generic_owns; eauto.
      - injection Hc as <- <- <-. left. exact Hown. }
    + left. destruct (err =? 0); [| injection Hcp as <- <- <-; exact Hown1].
      inv_bind Hcp. injection Hcp as <- <- <-.
      apply set_num_owns. eapply memcpy_owns; eauto.
    + simpl in Hcp. injection Hcp as <- <- <-. right. auto.
  - intros v' m' Hd. unfold AB_vec_destroy, AB_VEC_FREE in Hd. inv_bind Hd.
    injection Hd as <- <-. unfold owns in Hown.
    destruct (elems v) as [b|].
    + destruct (heap m !! b); [| discriminate]. injection Hc as <-. simpl.
      destruct Hown as (Hfree & blk & ->). apply delete_insert_id, Hfree.
    + injection Hc as <-. exact Hown.
Qed.

Lemma pushes_owns h0 v (m : mem T) xs v' m' :
  pushes cfg v m xs v' m' → owns h0 m v → owns h0 m' v'.
Proof.
  induction 1 as [v m | v m x xs v1 m1 v' m' Hp Hrun IH]; intros Hown;
    [exact Hown |].
  apply IH.
  destruct (push_owns h0 _ _ _ _ _ _ Hp Hown) as [Hown1 | (Hr & _)];
    [exact Hown1 | discriminate Hr].
Qed.

(** X19: a vector that has been pushed to from [AB_VEC_INIT] and is then
    destroyed leaves the heap exactly as it was before the first push:
    every block that a push has allocated has been released, and no
    other block has been changed. *)
Theorem pushes_destroy xs (m : mem T) v' m' :
  pushes cfg AB_VEC_INIT m xs v' m' →
  ∃ m'', AB_vec_destroy cfg v' m' = Ret (v', m'') ∧ heap m'' = heap m.
Proof.
  intros Hrun.
  assert (owns (heap m) m AB_VEC_INIT) as Hinit by reflexivity.
  pose proof (pushes_owns _ _ _ _ _ _ Hrun Hinit) as Hown.
  unfold AB_vec_destroy, AB_VEC_FREE. unfold owns in Hown.
  destruct (elems v') as [b|].
  - destruct Hown as (Hfree & blk & Hheap). rewrite Hheap, lookup_insert_eq.
    simpl. eexists. split; [reflexivity |]. simpl.
    apply delete_insert_id, Hfree.
  - simpl. eexists. split; [reflexivity |]. exact Hown.
Qed.

(** *** The calls to the allocator of a run of pushes *)

Lemma push_calls v x (m : mem T) v' m' :
  AB_vec_push cfg v x m = Ret (0, v', m') →
  (num v ≠ capacity v → calls m' = calls m) ∧
  (num v = capacity v → length (calls m') = S (length (calls m))).
Proof.
  intros Hp. apply push_ret in Hp as (v1 & m1 & Hst & _ & Hcase).
  apply store_ret in Hst as (b & blk & _ & _ & _ & ->). simpl.
  destruct Hcase as [(Hne & _ & ->) | (Heq & Hr)].
  - split; [reflexivity | intros; contradiction].
  - apply resize_generic_ok in Hr as (old & _ & _ & _ & _ & Hcalls).
    split; [intros; contradiction |]. intros _.
    rewrite Hcalls, length_app. simpl. lia.
Qed.

Lemma pushes_calls v (m : mem T) xs v' m' (j : nat) :
  pushes cfg v m xs v' m' →
  capacity v = (if Nat.eqb j 0 then 0 else 2 ^ Z.of_nat j) →
  ∃ j' : nat, (j ≤ j')%nat ∧
    capacity v' = (if Nat.eqb j' 0 then 0 else 2 ^ Z.of_nat j') ∧
    length (calls m') = (length (calls m) + (j' - j))%nat.
Proof.
  intros Hrun. revert j.
  induction Hrun as [v m | v m x xs v1 m1 v' m' Hp Hrun IH]; intros j Hcap.
  - exists j. split; [lia |]. split; [exact Hcap | lia].
  - destruct (push_calls _ _ _ _ _ Hp) as (Hsame & Hmore).
    apply push_step in Hp as (_ & _ & [(Hne & Hc1) | (Heq & Hc1 & _)]).
    + destruct (IH j ltac:(congruence)) as (j' & Hle & Hc' & Hlen).
      exists j'. rewrite (Hsame Hne) in Hlen. auto.
    + destruct (IH (S j)) as (j' & Hle & Hc' & Hlen).
      { rewrite Hc1, Hcap. unfold doubled. simpl Nat.eqb.
        destruct j as [|j]; [reflexivity |]. simpl Nat.eqb.
        pose proof (pow2_pos (Z.of_nat (S j)) ltac:(lia)) as Hpos.
        cbv iota.
        destruct (2 ^ Z.of_nat (S j) =? 0) eqn:E; [apply Z.eqb_eq in E; lia |].
        replace (Z.of_nat (S (S j))) with (Z.of_nat (S j) + 1) by lia.
        rewrite <- pow2_double by lia. lia. }
      exists j'. split; [lia |]. split; [exact Hc' |].
      rewrite (Hmore Heq) in Hlen. lia.
Qed.

(** X20: in a run of [N > 0] successful pushes from [AB_VEC_INIT] the
    allocator is called once for each doubling: when the final capacity
    is [2^j], it has been called [j] times. *)
Theorem pushes_allocations xs (m : mem T) v' m' :
  xs ≠ [] →
  pushes cfg AB_VEC_INIT m xs v' m' →
  ∃ j : nat, (1 ≤ j)%nat ∧ capacity v' = 2 ^ Z.of_nat j ∧
             length (calls m') = (length (calls m) + j)%nat.
Proof.
  intros Hne Hrun.
  destruct (pushes_calls _ _ _ _ _ 0 Hrun eq_refl) as (j & _ & Hcap & Hlen).
  destruct (pushes_doubling_inv cfg _ _ _ _ _ Hrun (doubling_inv_init cfg))
    as (Hinv & Hnum & _).
  assert (capacity v' ≠ 0) as Hnz.
  { destruct Hinv as [(Hn & _) | (k & Hk & Hc & _)].
    - simpl in Hnum. destruct xs; [congruence | simpl in Hnum; lia].
    - rewrite Hc. pose proof (pow2_pos k ltac:(lia)). lia. }
  exists j. destruct j as [|j]; [simpl in Hcap; congruence |].
  simpl Nat.eqb in Hcap. split; [lia |]. split; [exact Hcap |].
  rewrite Hlen. lia.
Qed.

(** *** A vector that has been shrunk below its length *)

(** X21: on a vector whose length is above its capacity, as
    [AB_vec_resize] leaves it when it shrinks below the length,
    [AB_vec_push] and [AB_vec_pop] go beyond the storage: both are
    undefined. *)
Theorem shrunk_vector v x (m : mem T) :
  backed cfg m v → 0 ≤ capacity v < num v → in_size_t w (num v) →
  AB_vec_push cfg v x m = Undef ∧ AB_vec_pop cfg v m = Undef.
Proof.
  intros Hb Hshrunk Hnum.
  assert (∀ i, capacity v ≤ i → load m (elems v) i = Undef) as Hload.
  { intros i Hi. unfold load. destruct (elems v) as [b|] eqn:He; [| reflexivity].
    destruct (backed_block _ _ _ Hb He) as (blk & -> & Hlen).
    destruct (0 <=? i) eqn:E; [| reflexivity].
    rewrite lookup_ge_None_2; [reflexivity |].
    pose proof (cells_of_wrap_le cfg (capacity v) ltac:(lia)). lia. }
  split.
  - unfold AB_vec_push, push_slot, store.
    destruct (num v =? capacity v) eqn:E; [lia |].
    destruct (elems v) as [b|] eqn:He; [| reflexivity].
    destruct (backed_block _ _ _ Hb He) as (blk & -> & Hlen).
    pose proof (cells_of_wrap_le cfg (capacity v) ltac:(lia)).
    destruct ((0 <=? num v) && (num v <? Z.of_nat (length blk))) eqn:Hin;
      [| reflexivity].
    apply andb_true_iff in Hin as [_ Hin]. apply Z.ltb_lt in Hin. lia.
  - rewrite pop_nonempty by (try assumption; lia).
    rewrite Hload by lia. reflexivity.
Qed.

(** *** Insertion at an index: what the vector is afterwards *)

(** The allocator giving memory in [AB_vec_resize_generic]. *)
Lemma resize_generic_success v n (m : mem T) old :
  block_at m (elems v) = Ret old →
  realloc_frees (elems v) (wrap w (esize * n)) = false →
  alloc_ok cfg (calls m) (wrap w (esize * n)) = true →
  AB_vec_resize_generic cfg v n m
  = Ret (0, set_storage v (Some (fresh (dom (heap m)))) n,
         Mem (<[fresh (dom (heap m)) :=
                  regrow old (cells_of (wrap w (esize * n)))]>
                (release (elems v) (heap m)))
             (calls m ++
              [EvRealloc (elems v) (wrap w (esize * capacity v))
                 (wrap w (esize * n)) (userdata v)
                 (Some (fresh (dom (heap m))))])).
Proof.
  intros Hold Hnf Hok. unfold AB_vec_resize_generic, AB_VEC_REALLOC.
  rewrite Hold. simpl. rewrite Hnf, Hok. simpl.
  unfold AB_VEC_ASSERT. rewrite andb_false_r. reflexivity.
Qed.

(** The block that the allocator is given by a vector whose storage is
    the block of its capacity. *)
Lemma backed_block_at (m : mem T) v :
  backed cfg m v →
  ∃ old, block_at m (elems v) = Ret old ∧
         length old = cells_of (wrap w (esize * capacity v)).
Proof.
  unfold backed, block_at. destruct (elems v) as [b|].
  - intros (blk & -> & Hlen). eauto.
  - intros ->. exists []. split; [reflexivity |].
    rewrite Z.mul_0_r. unfold wrap. rewrite Z.mod_0_l.
    + rewrite cells_of_zero. reflexivity.
    + pose proof (pow2_pos (Z.pos w)). lia.
Qed.

(** C3 (amended): on a vector whose storage is the block of its capacity,
    [AB_vec_insert(vec, idx, v)] at an index below the capacity, or at an
    index from the capacity on for which the allocator gives the memory
    of the growth step (twice [idx + 1] elements at most, which the size
    type is assumed to count in bytes), is successful: its value is that
    of the element, [AB_vec_at(vec, idx)] is the element afterwards, and
    every other slot that could be read is read the same. At
    [idx >= length] the length becomes [idx + 1]; at [idx < length] the
    length is as before. At an index below the capacity, which every
    [idx < length] is on a vector whose length is within its capacity, it
    is a plain overwrite: the capacity and the storage are as before, the
    allocator is not called, and no other slot changes. At an index from
    the capacity on, also one below the length of a vector that
    [AB_vec_resize] has shrunk, the capacity grows to the smallest power
    of two strictly above [idx + 1]. *)
Theorem insert_at_index v idx elem (m : mem T) :
  backed cfg m v →
  0 ≤ idx → 0 ≤ capacity v →
  esize * capacity v < 2 ^ Z.pos w →
  (capacity v ≤ idx → esize * (2 * (idx + 1)) < 2 ^ Z.pos w) →
  (capacity v ≤ idx →
   ∀ c, smallest_pow2_gt (idx + 1) c →
        alloc_ok cfg (calls m) (esize * c) = true) →
  ∃ v' m',
    AB_vec_insert cfg v idx elem m = Ret (as_int elem, v', m') ∧
    AB_vec_at v' idx m' = Ret (Val elem) ∧
    (num v ≤ idx → num v' = idx + 1) ∧
    (idx < num v → num v' = num v) ∧
    (idx < capacity v →
     capacity v' = capacity v ∧ elems v' = elems v ∧ calls m' = calls m ∧
     ∀ j, j ≠ idx → AB_vec_at v' j m' = AB_vec_at v j m) ∧
    (capacity v ≤ idx →
     smallest_pow2_gt (idx + 1) (capacity v') ∧ capacity v < capacity v') ∧
    (∀ j c, j ≠ idx → AB_vec_at v j m = Ret c → AB_vec_at v' j m' = Ret c).
Proof.
  intros Hb H0 Hc0 Hfit Hgrowfit Halloc.
  pose proof (pow2_pos (Z.pos w) ltac:(lia)) as HM.
  assert (1 ≤ esize) as He1 by lia.
  assert (in_size_t w idx ∧ in_size_t w (idx + 1)) as [Hidx Hidx1].
  { destruct (Z_lt_le_dec idx (capacity v)) as [Hin | Hout].
    - unfold in_size_t. split; split; try lia; nia.
    - specialize (Hgrowfit Hout). unfold in_size_t. split; split; try lia; nia. }
  set (upd := λ v1 : vec, if num v1 <=? idx then set_num v1 (wrap w (idx + 1)) else v1).
  assert (∀ v1, num v1 = num v →
                capacity (upd v1) = capacity v1 ∧ elems (upd v1) = elems v1 ∧
                (num v ≤ idx → num (upd v1) = idx + 1) ∧
                (idx < num v → num (upd v1) = num v)) as Hupd.
  { intros v1 Hn. unfold upd. rewrite Hn.
    destruct (num v <=? idx) eqn:E;
      [apply Z.leb_le in E | apply Z.leb_gt in E]; simpl;
      rewrite ?(wrap_small _ _ Hidx1); repeat split; auto; lia. }
  destruct (Z_lt_le_dec idx (capacity v)) as [Hin | Hout].
  - (* below the capacity: the element is stored in place *)
    destruct (elems v) as [b|] eqn:He.
    2:{ unfold backed in Hb. rewrite He in Hb. lia. }
    destruct (backed_block _ _ _ Hb He) as (blk & Hblk & Hlen).
    rewrite cells_of_exact in Hlen by assumption.
    destruct (Hupd v eq_refl) as (Hcap' & Hel' & Hnum1 & Hnum2).
    assert (AB_vec_insert_generic cfg v idx m = Ret (0, upd v, m)) as Hgen.
    { unfold AB_vec_insert_generic.
      destruct (Z.leb_spec (capacity v) idx); [lia | reflexivity]. }
    assert (store m (elems (upd v)) idx elem
            = Ret (Mem (<[b := <[Z.to_nat idx := Val elem]> blk]> (heap m))
                       (calls m))) as Hst.
    { rewrite Hel', He. unfold store. rewrite Hblk.
      destruct ((0 <=? idx) && (idx <? Z.of_nat (length blk))) eqn:E;
        [reflexivity |].
      apply andb_false_iff in E as [E | E];
        [apply Z.leb_gt in E | apply Z.ltb_ge in E]; lia. }
    eexists (upd v), _. split; [| split; [| split; [| split; [| split; [| split]]]]].
    + unfold AB_vec_insert. rewrite (wrap_small _ _ Hidx), Hgen. simpl.
      rewrite Hst. reflexivity.
    + unfold AB_vec_at. eapply load_store_same, Hst.
    + exact Hnum1.
    + exact Hnum2.
    + intros _. split; [exact Hcap' |]. split; [rewrite Hel', He; reflexivity |].
      split; [reflexivity |].
      intros j Hj. unfold AB_vec_at.
      rewrite (load_store_other _ _ _ _ j _ Hst) by lia.
      rewrite Hel', He. reflexivity.
    + intros Hle. lia.
    + intros j c Hj Hat. unfold AB_vec_at in *.
      rewrite (load_store_other _ _ _ _ j _ Hst) by lia.
      rewrite Hel'. exact Hat.
  - (* from the capacity on: the storage grows first *)
    specialize (Hgrowfit Hout). specialize (Halloc Hout).
    assert (2 ^ Z.pos w = 2 * 2 ^ (Z.pos w - 1)) as Hhalf.
    { replace (Z.pos w) with (Z.succ (Z.pos w - 1)) at 1 by lia.
      apply Z.pow_succ_r. lia. }
    destruct (roundup_exits w (idx + 1) ltac:(lia) ltac:(nia))
      as (j & Hj & Hround & Hlo & Hhi).
    assert (2 ^ j = 2 * 2 ^ (j - 1)) as Hjhalf.
    { replace j with (Z.succ (j - 1)) at 1 by lia. apply Z.pow_succ_r. lia. }
    pose proof (roundup_result_gt (idx + 1) j ltac:(lia) (conj Hlo Hhi)) as Hsmall.
    set (n := 2 ^ j) in *.
    assert (0 < esize * n < 2 ^ Z.pos w) as Hbytes by nia.
    assert (wrap w (esize * n) = esize * n) as Hwn
      by (apply wrap_small; split; lia).
    destruct (backed_block_at _ _ Hb) as (old & Hold & Hlen).
    rewrite cells_of_exact in Hlen by assumption.
    pose proof (resize_generic_success v n m old Hold
                  (realloc_frees_not cfg _ _ (or_intror Hbytes))
                  ltac:(rewrite Hwn; apply Halloc, Hsmall)) as Hr.
    set (b' := fresh (dom (heap m))) in *.
    set (v1 := set_storage v (Some b') n) in *.
    set (blk := regrow old (cells_of (wrap w (esize * n)))) in *.
    set (m1 := Mem (<[b' := blk]> (release (elems v) (heap m))) _) in Hr.
    assert (length blk = Z.to_nat n) as Hblk.
    { unfold blk. rewrite regrow_length. apply cells_of_exact; lia. }
    destruct (Hupd v1 eq_refl) as (Hcap' & Hel' & Hnum1 & Hnum2).
    assert (AB_vec_insert_generic cfg v idx m = Ret (0, upd v1, m1)) as Hgen.
    { unfold AB_vec_insert_generic.
      destruct (Z.leb_spec (capacity v) idx); [| lia].
      rewrite <- (wrap_small _ _ Hidx1) in Hround.
      rewrite Hround. simpl. rewrite Hr. reflexivity. }
    assert (store m1 (elems (upd v1)) idx elem
            = Ret (Mem (<[b' := <[Z.to_nat idx := Val elem]> blk]> (heap m1))
                       (calls m1))) as Hst.
    { rewrite Hel'. unfold store. simpl. rewrite lookup_insert_eq.
      destruct ((0 <=? idx) && (idx <? Z.of_nat (length blk))) eqn:E;
        [reflexivity |].
      apply andb_false_iff in E as [E | E];
        [apply Z.leb_gt in E | apply Z.ltb_ge in E]; lia. }
    eexists (upd v1), _. split; [| split; [| split; [| split; [| split; [| split]]]]].
    + unfold AB_vec_insert. rewrite (wrap_small _ _ Hidx), Hgen. simpl.
      rewrite Hst. reflexivity.
    + unfold AB_vec_at. eapply load_store_same, Hst.
    + exact Hnum1.
    + exact Hnum2.
    + intros Hlt. lia.
    + intros _. rewrite Hcap'. simpl. split; [exact Hsmall | lia].
    + intros j' c Hj' Hat. unfold AB_vec_at in *.
      rewrite (load_store_other _ _ _ _ j' _ Hst) by lia.
      rewrite Hel'.
      eapply (resize_generic_load cfg v n m v1 m1); [exact Hr | exact Hat |].
      apply load_ret in Hat as (b & blk0 & Hb0 & Hblk0 & Hj0 & Hlk).
      unfold block_at in Hold. rewrite Hb0, Hblk0 in Hold. injection Hold as <-.
      apply lookup_lt_Some in Hlk.
      rewrite cells_of_exact by lia. lia.
Qed.

End RestFacts.

(** ** The hooks of the second program *)

(** The functions with hooks are those of the header at its own hooks. *)
Lemma insert_with_default {T : Type} `{CType T} cfg v idx (elem : T) m :
  insert_with (size_bits cfg) (default_hooks cfg) v idx elem m
  = AB_vec_insert cfg v idx elem m.
Proof. reflexivity. Qed.

Lemma regrow_longer {T : Type} (old : list (cell T)) (k : nat) :
  (length old ≤ k)%nat →
  regrow old k = old ++ replicate (k - length old) Indet.
Proof. intros Hk. unfold regrow. rewrite take_ge by lia. reflexivity. Qed.

Lemma zero_cells_tail (old : list (cell Z)) (k : nat) :
  zero_cells (old ++ replicate k Indet) (4 * Z.of_nat (length old))
             (4 * Z.of_nat k)
  = old ++ replicate k (Val 0).
Proof.
  apply list_eq. intros i. unfold zero_cells. rewrite list_lookup_imap.
  destruct (Nat.lt_ge_cases i (length old)) as [Hlt | Hge].
  - rewrite !lookup_app_l by lia.
    destruct (old !! i) as [c|] eqn:Hc; [| reflexivity]. simpl.
    destruct (4 * Z.of_nat (length old) <=? 4 * Z.of_nat i) eqn:E1; [lia |].
    simpl.
    destruct (4 * Z.of_nat (length old) <? 4 * Z.of_nat i + 4) eqn:E2; [lia |].
    rewrite andb_false_r. reflexivity.
  - rewrite !lookup_app_r by lia.
    destruct (Nat.lt_ge_cases (i - length old) k) as [Hin | Hout].
    + rewrite !lookup_replicate_2 by lia. simpl.
      destruct (4 * Z.of_nat (length old) <=? 4 * Z.of_nat i) eqn:E1; [| lia].
      destruct (4 * Z.of_nat i + 4
                <=? 4 * Z.of_nat (length old) + 4 * Z.of_nat k) eqn:E2; [| lia].
      reflexivity.
    + rewrite !lookup_ge_None_2 by (rewrite length_replicate; lia). reflexivity.
Qed.

Lemma cells_of_int (k : nat) : cells_of (T:=Z) (4 * Z.of_nat k) = k.
Proof.
  unfold cells_of. simpl. rewrite Z.mul_comm, Z.div_mul by lia. lia.
Qed.

Lemma my_realloc_cases cfg p (old : list (cell Z)) (k : nat) ud (m : mem Z) :
  block_at m p = Ret old →
  ((length old < k)%nat →
   my_realloc cfg p (4 * Z.of_nat (length old)) (4 * Z.of_nat k) ud m =
     if alloc_ok cfg (calls m) (4 * Z.of_nat k) then
       Ret (Some (fresh (dom (heap m))),
            Mem (<[fresh (dom (heap m)) :=
                     old ++ replicate (k - length old) (Val 0)]>
                   (release p (heap m)))
                (calls m ++ [EvRealloc p (4 * Z.of_nat (length old))
                               (4 * Z.of_nat k) ud
                               (Some (fresh (dom (heap m))))]))
     else Undef) ∧
  (∀ old_size new_size,
     new_size ≤ old_size →
     my_realloc cfg p old_size new_size ud m
     = AB_VEC_REALLOC cfg p old_size new_size ud m).
Proof.
  intros Hold. split.
  - intros Hk. unfold my_realloc, AB_VEC_REALLOC. rewrite Hold. simpl.
    destruct (4 * Z.of_nat (length old) <? 4 * Z.of_nat k) eqn:E; [| lia].
    assert (realloc_frees p (4 * Z.of_nat k) = false) as ->.
    { unfold realloc_frees. destruct p; [| reflexivity]. apply Z.eqb_neq. lia. }
    destruct (alloc_ok cfg (calls m) (4 * Z.of_nat k)); simpl; [| reflexivity].
    rewrite lookup_insert_eq, cells_of_int, regrow_longer by lia.
    rewrite length_app, length_replicate.
    assert ((0 <=? 4 * Z.of_nat (length old))
            && (0 <=? 4 * Z.of_nat k - 4 * Z.of_nat (length old))
            && (4 * Z.of_nat (length old)
                + (4 * Z.of_nat k - 4 * Z.of_nat (length old))
                <=? 4 * Z.of_nat (length old + (k - length old))) = true) as ->.
    { rewrite !andb_true_iff, !Z.leb_le. lia. }
    simpl. rewrite insert_insert_eq.
    replace (4 * Z.of_nat k - 4 * Z.of_nat (length old))
      with (4 * Z.of_nat (k - length old)) by lia.
    rewrite zero_cells_tail. reflexivity.
  - intros old_size new_size Hle. unfold my_realloc.
    destruct (old_size <? new_size) eqn:E; [lia |].
    destruct (AB_VEC_REALLOC cfg p old_size new_size ud m) as [[q m1]| | |];
      reflexivity.
Qed.

(** X22: [my_realloc], asked for more cells than the block has, gives on
    success a block that starts with the cells of the old one and has [0]
    in every cell beyond them; and when [realloc] fails it writes through
    the null pointer instead of returning it. Asked for no more bytes
    than it is told the block has, it is [realloc]. *)
Theorem my_realloc_spec cfg p (old : list (cell Z)) (k : nat) ud (m : mem Z) :
  block_at m p = Ret old →
  ((length old < k)%nat →
   my_realloc cfg p (4 * Z.of_nat (length old)) (4 * Z.of_nat k) ud m =
     if alloc_ok cfg (calls m) (4 * Z.of_nat k) then
       Ret (Some (fresh (dom (heap m))),
            Mem (<[fresh (dom (heap m)) :=
                     old ++ replicate (k - length old) (Val 0)]>
                   (release p (heap m)))
                (calls m ++ [EvRealloc p (4 * Z.of_nat (length old))
                               (4 * Z.of_nat k) ud
                               (Some (fresh (dom (heap m))))]))
     else Undef) ∧
  (∀ old_size new_size,
     new_size ≤ old_size →
     my_realloc cfg p old_size new_size ud m
     = AB_VEC_REALLOC cfg p old_size new_size ud m).
Proof. apply my_realloc_cases. Qed.

Lemma my_realloc_spec_witness :
  block_at mem2 (Some 1%positive) = Ret [Val 10; Val 11] ∧
  my_realloc cfg_default (Some 1%positive) 8 16 0 mem2
    = Ret (Some 2%positive,
           Mem {[ 2%positive := [Val 10; Val 11; Val 0; Val 0] ]}
               (calls mem2 ++
                [EvRealloc (Some 1%positive) 8 16 0 (Some 2%positive)])) ∧
  my_realloc cfg_oom (Some 1%positive) 8 16 0 mem2 = Undef.
Proof.
  assert (block_at mem2 (Some 1%positive) = Ret [Val 10; Val 11]) as Hold
    by reflexivity.
  split; [exact Hold |].
  destruct (my_realloc_spec cfg_default _ _ 4 0 _ Hold) as (Hgrow & _).
  destruct (my_realloc_spec cfg_oom _ _ 4 0 _ Hold) as (Hfail & _).
  assert (length [Val 10; Val 11] < 4)%nat as Hk by (simpl; lia).
  split.
  - etransitivity; [exact (Hgrow Hk) | vm_compute; reflexivity].
  - etransitivity; [exact (Hfail Hk) | reflexivity].
Defined.

Lemma my_roundup_bounds x :
  0 < x ≤ 2 ^ 15 →
  smallest_pow2_ge x (my_roundup x) ∧ x ≤ my_roundup x ≤ 2 ^ 15.
Proof.
  intros Hx. change (2 ^ 15) with 32768 in *.
  assert (in_size_t 16 x) as Hin.
  { split; [lia |]. change (2 ^ Z.pos 16) with 65536. lia. }
  assert (smallest_pow2_ge x (my_roundup x)) as Hsm.
  { rewrite (my_roundup_value x Hin).
    destruct (0 <? x) eqn:E1; [| lia]. destruct (x <=? 32768) eqn:E2; [| lia].
    simpl. apply log2_up_smallest. lia. }
  split; [exact Hsm |].
  destruct Hsm as (_ & Hge & Hmin). split; [exact Hge |].
  apply Hmin; [| lia]. exists 15. split; [lia | reflexivity].
Qed.

(** X23: with the hooks of the second program ([my_realloc], [my_roundup],
    a size type of 16 bits), [AB_vec_insert] at an index from the capacity
    on, with [idx + 1 <= 2^15]: when the allocator gives the memory, the
    capacity becomes the smallest power of two that is at least
    [idx + 1], the element is at [idx], the slots that the vector had keep
    their content, and every other new slot holds [0]; when it gives none,
    the insertion is undefined: [my_realloc] writes through [NULL], and no
    failure is reported. *)
Theorem insert_zero_fill cfg v idx elem (m : mem Z) old :
  block_at m (elems v) = Ret old →
  Z.of_nat (length old) = capacity v →
  capacity v ≤ idx → idx + 1 ≤ 2 ^ 15 →
  (alloc_ok cfg (calls m) (4 * my_roundup (idx + 1)) = true →
   ∃ v' m',
     insert_with 16 (second_hooks cfg) v idx elem m = Ret (elem, v', m') ∧
     capacity v' = my_roundup (idx + 1) ∧
     smallest_pow2_ge (idx + 1) (capacity v') ∧
     num v' = (if num v <=? idx then idx + 1 else num v) ∧
     AB_vec_at v' idx m' = Ret (Val elem) ∧
     (∀ i c, AB_vec_at v i m = Ret c → AB_vec_at v' i m' = Ret c) ∧
     (∀ i, capacity v ≤ i < capacity v' → i ≠ idx →
           AB_vec_at v' i m' = Ret (Val 0))) ∧
  (alloc_ok cfg (calls m) (4 * my_roundup (idx + 1)) = false →
   insert_with 16 (second_hooks cfg) v idx elem m = Undef).
Proof.
  intros Hold Hlen Hcap Hidx.
  assert (0 ≤ idx) as H0 by lia.
  destruct (my_roundup_bounds (idx + 1) ltac:(lia)) as (Hsm & Hge & Hle).
  set (n := my_roundup (idx + 1)) in *.
  change (2 ^ 15) with 32768 in *.
  assert (wrap 16 idx = idx) as Hw1.
  { apply wrap_small. split; [lia |]. change (2 ^ Z.pos 16) with 65536. lia. }
  assert (wrap 16 (idx + 1) = idx + 1) as Hw2.
  { apply wrap_small. split; [lia |]. change (2 ^ Z.pos 16) with 65536. lia. }
  assert (4 * n = 4 * Z.of_nat (Z.to_nat n)) as Hn4 by lia.
  assert (length old < Z.to_nat n)%nat as Hk by lia.
  destruct (my_realloc_cases cfg (elems v) old (Z.to_nat n) (userdata v) m Hold)
    as (Hgrow & _).
  specialize (Hgrow Hk). rewrite Hlen, <- Hn4 in Hgrow.
  unfold insert_with, insert_generic_with, resize_generic_with.
  cbn [second_hooks hk_realloc hk_assert hk_roundup hk_bytes].
  rewrite Hw1, Hw2. fold n.
  destruct (capacity v <=? idx) eqn:E; [| lia].
  cbn [mbind outcome_bind]. rewrite Hgrow.
  split; intros Hok; rewrite Hok; [| reflexivity].
  set (b := fresh (dom (heap m))).
  set (blk := old ++ replicate (Z.to_nat n - length old) (Val 0)).
  assert (length blk = Z.to_nat n) as Hblen.
  { unfold blk. rewrite length_app, length_replicate. lia. }
  cbn [mbind outcome_bind].
  rewrite bool_decide_eq_true_2 by discriminate.
  cbn [my_assert mbind outcome_bind Z.eqb].
  destruct (if_set_num_fields
              (num (set_storage v (Some b) n) <=? idx)
              (set_storage v (Some b) n) (idx + 1)) as (Hc' & He' & _).
  set (v' := if num (set_storage v (Some b) n) <=? idx
             then set_num (set_storage v (Some b) n) (idx + 1)
             else set_storage v (Some b) n) in *.
  change (capacity (set_storage v (Some b) n)) with n in Hc'.
  change (elems (set_storage v (Some b) n)) with (Some b) in He'.
  set (m1 := Mem (<[b := blk]> (release (elems v) (heap m))) _).
  assert (store m1 (elems v') idx elem
          = Ret (Mem (<[b := <[Z.to_nat idx := Val elem]> blk]> (heap m1))
                     (calls m1))) as Hst.
  { unfold store. rewrite He'. unfold m1 at 1. simpl heap.
    rewrite lookup_insert_eq.
    assert ((0 <=? idx) && (idx <? Z.of_nat (length blk)) = true) as ->.
    { rewrite andb_true_iff, Z.leb_le, Z.ltb_lt. lia. }
    reflexivity. }
  rewrite Hst. cbn [mbind outcome_bind].
  eexists v', _. split; [reflexivity |].
  split; [exact Hc' |]. split; [rewrite Hc'; exact Hsm |]. split.
  { unfold v'. simpl. destruct (num v <=? idx); reflexivity. }
  unfold AB_vec_at. rewrite He'.
  assert (∀ i, 0 ≤ i →
            load (Mem (<[b := <[Z.to_nat idx := Val elem]> blk]> (heap m1))
                      (calls m1)) (Some b) i
            = match (<[Z.to_nat idx := Val elem]> blk) !! Z.to_nat i with
              | Some c => Ret c
              | None => Undef
              end) as Hload.
  { intros i Hi. unfold load. simpl heap. rewrite lookup_insert_eq.
    destruct (0 <=? i) eqn:Ei; [reflexivity | lia]. }
  split; [| split].
  - rewrite Hload by lia. rewrite list_lookup_insert_eq by lia. reflexivity.
  - intros i c Hat. apply load_ret in Hat as (b0 & blk0 & Hb0 & Hblk0 & Hi & Hlk).
    unfold block_at in Hold. rewrite Hb0, Hblk0 in Hold. injection Hold as <-.
    pose proof (lookup_lt_Some _ _ _ Hlk) as Hlt.
    rewrite Hload by lia.
    rewrite list_lookup_insert_ne by lia.
    unfold blk. rewrite lookup_app_l by lia. rewrite Hlk. reflexivity.
  - intros i Hi Hne. rewrite Hc' in Hi. rewrite Hload by lia.
    rewrite list_lookup_insert_ne by lia.
    unfold blk. rewrite lookup_app_r by lia.
    rewrite lookup_replicate_2 by lia. reflexivity.
Qed.

Lemma insert_zero_fill_witness :
  block_at mem_empty (elems AB_VEC_INIT) = Ret [] ∧
  insert_with 16 (second_hooks cfg_default) AB_VEC_INIT 19 2 mem_empty
    = Ret (2, vec20,
           Mem {[ 1%positive := <[19%nat := Val 2]> (replicate 32 (Val 0)) ]}
               [EvRealloc None 0 128 0 (Some 1%positive)]) ∧
  insert_with 16 (second_hooks cfg_oom) AB_VEC_INIT 19 2 mem_empty = Undef.
Proof.
  assert (block_at mem_empty (elems AB_VEC_INIT) = Ret []) as Hold by reflexivity.
  split; [exact Hold |].
  destruct (insert_zero_fill cfg_oom AB_VEC_INIT 19 2 mem_empty [] Hold eq_refl
              ltac:(simpl; lia) ltac:(simpl; lia)) as (_ & Hfail).
  split; [vm_compute; reflexivity | apply Hfail; reflexivity].
Defined.

(** X24: with the hooks of the second program, [AB_vec_insert] at an index
    from the capacity on with [2^15 < idx + 1 < 2^16] has no value:
    [my_roundup] returns [0] and the storage is resized to no byte. On a
    vector with storage the allocator frees it and returns [NULL], and
    [my_assert] aborts. On a vector without storage the allocator gives a
    block without cells and the element is stored beyond it, or it
    returns [NULL] and [my_assert] aborts. *)
Theorem insert_second_hooks_overflow cfg v idx elem (m : mem Z) old :
  block_at m (elems v) = Ret old →
  0 ≤ capacity v ≤ idx → 2 ^ 15 < idx + 1 < 2 ^ 16 →
  insert_with 16 (second_hooks cfg) v idx elem m
  = match elems v with
    | Some _ => Abort
    | None => if alloc_ok cfg (calls m) 0 then Undef else Abort
    end.
Proof.
  intros Hold Hcap Hidx. change (2 ^ 15) with 32768 in Hidx.
  change (2 ^ 16) with 65536 in Hidx.
  assert (wrap 16 idx = idx) as Hw1.
  { apply wrap_small. split; [lia |]. change (2 ^ Z.pos 16) with 65536. lia. }
  assert (in_size_t 16 (idx + 1)) as Hin.
  { split; [lia |]. change (2 ^ Z.pos 16) with 65536. lia. }
  assert (my_roundup (idx + 1) = 0) as Hround.
  { rewrite (my_roundup_value _ Hin).
    destruct (idx + 1 <=? 32768) eqn:E; [lia |]. rewrite andb_false_r. reflexivity. }
  unfold insert_with, insert_generic_with, resize_generic_with.
  cbn [second_hooks hk_realloc hk_assert hk_roundup hk_bytes].
  rewrite Hw1, (wrap_small 16 (idx + 1) Hin), Hround.
  destruct (capacity v <=? idx) eqn:E; [| lia].
  cbn [mbind outcome_bind]. change (4 * 0) with 0.
  unfold my_realloc.
  destruct (4 * capacity v <? 0) eqn:E2; [lia |].
  unfold AB_VEC_REALLOC. rewrite Hold. cbn [mbind outcome_bind].
  destruct (elems v) as [b|]; [reflexivity |]. cbn [realloc_frees].
  destruct (alloc_ok cfg (calls m) 0); cbn [mbind outcome_bind]; [| reflexivity].
  rewrite bool_decide_eq_true_2 by discriminate.
  cbn [my_assert mbind outcome_bind Z.eqb].
  unfold store, set_storage. cbn [num].
  destruct (num v <=? idx); cbn [set_num elems heap]; rewrite lookup_insert_eq;
    (assert (length (regrow old (cells_of 0)) = 0%nat) as ->
      by (rewrite regrow_length; reflexivity));
    (destruct (0 <=? idx) eqn:E3, (idx <? Z.of_nat 0) eqn:E4; try reflexivity;
     apply Z.ltb_lt in E4; simpl in E4; lia).
Qed.

Lemma insert_second_hooks_overflow_witness :
  block_at mem_empty (elems AB_VEC_INIT) = Ret [] ∧
  insert_with 16 (second_hooks cfg_default) AB_VEC_INIT 40000 2 mem_empty = Undef ∧
  insert_with 16 (second_hooks cfg_oom) AB_VEC_INIT 40000 2 mem_empty = Abort ∧
  insert_with 16 (second_hooks cfg_default) vec5 40000 2 mem5 = Abort.
Proof.
  assert (block_at mem_empty (elems AB_VEC_INIT) = Ret []) as Hold by reflexivity.
  assert (0 ≤ capacity AB_VEC_INIT ≤ 40000) as Hcap by (simpl; lia).
  assert (0 ≤ capacity vec5 ≤ 40000) as Hcap5 by (simpl; lia).
  assert (2 ^ 15 < 40000 + 1 < 2 ^ 16) as Hidx by (split; reflexivity).
  split; [exact Hold |]. split; [| split].
  - exact (insert_second_hooks_overflow cfg_default AB_VEC_INIT 40000 2 mem_empty
             [] Hold Hcap Hidx).
  - exact (insert_second_hooks_overflow cfg_oom AB_VEC_INIT 40000 2 mem_empty
             [] Hold Hcap Hidx).
  - exact (insert_second_hooks_overflow cfg_default vec5 40000 2 mem5
             _ eq_refl Hcap5 Hidx).
Defined.

(** ** The properties on concrete vectors *)

Lemma vec5_ok : vec_ok cfg_default mem5 vec5.
Proof.
  split; [| split].
  - eexists. split; [vm_compute; reflexivity | reflexivity].
  - simpl. lia.
  - split; reflexivity || discriminate.
Defined.

Lemma pushes_contents_witness :
  pushes cfg_default AB_VEC_INIT mem_empty [10; 11; 12; 13; 14] vec5 mem5 ∧
  [10; 11; 12; 13; 14] !! 2%nat = Some 12 ∧
  AB_vec_at vec5 (Z.of_nat 2) mem5 = Ret (Val 12).
Proof.
  split; [exact pushes_vec5 |]. split; [reflexivity |].
  exact (pushes_contents cfg_default _ _ _ _ 2%nat 12 pushes_vec5 eq_refl).
Defined.

Lemma drain_after_pushes_witness :
  pushes cfg_default AB_VEC_INIT mem_empty [10; 11; 12; 13; 14] vec5 mem5 ∧
  drain_loop cfg_default 5 vec5 mem5
    = Some (Ret ([Val 14; Val 13; Val 12; Val 11; Val 10], set_num vec5 0, mem5)).
Proof.
  split; [exact pushes_vec5 |].
  exact (drain_after_pushes cfg_default _ _ _ _ pushes_vec5).
Defined.

Lemma push_alloc_failure_witness :
  num vec2 = capacity vec2 ∧
  block_at mem2 (elems vec2) = Ret [Val 10; Val 11] ∧
  ∃ m', AB_vec_push cfg_release_oom vec2 12 mem2 = Ret (1, vec2, m') ∧
        AB_vec_pushp cfg_release_oom vec2 mem2 = Ret (None, vec2, m') ∧
        heap m' = heap mem2.
Proof.
  split; [reflexivity |]. split; [reflexivity |].
  destruct (push_alloc_failure cfg_release_oom vec2 12 mem2 [Val 10; Val 11]
              eq_refl eq_refl (or_intror eq_refl))
    as (m' & Hpush & Hpushp & _ & Hsame).
  exists m'. split; [exact Hpush |]. split; [exact Hpushp |].
  apply Hsame. right. split; reflexivity.
Defined.

Lemma pushp_push_witness :
  AB_vec_push cfg_default vec2 12 mem2
    = Ret (0, Vec 3 4 (Some 2%positive) 0,
           Mem {[ 2%positive := [Val 10; Val 11; Val 12; Indet] ]}
               (calls mem2 ++
                [EvRealloc (Some 1%positive) 8 16 0 (Some 2%positive)])) ∧
  ∃ a m1, AB_vec_pushp cfg_default vec2 mem2
            = Ret (Some a, Vec 3 4 (Some 2%positive) 0, m1) ∧
          store_slot m1 a 12
            = Ret (Mem {[ 2%positive := [Val 10; Val 11; Val 12; Indet] ]}
                       (calls mem2 ++
                        [EvRealloc (Some 1%positive) 8 16 0 (Some 2%positive)])).
Proof.
  assert (AB_vec_push cfg_default vec2 12 mem2
    = Ret (0, Vec 3 4 (Some 2%positive) 0,
           Mem {[ 2%positive := [Val 10; Val 11; Val 12; Indet] ]}
               (calls mem2 ++
                [EvRealloc (Some 1%positive) 8 16 0 (Some 2%positive)])))
    as Hp by (vm_compute; reflexivity).
  split; [exact Hp |].
  apply (proj1 (pushp_push cfg_default vec2 12 mem2 _ _)), Hp.
Defined.

Lemma vec_ok_kept_witness :
  vec_ok cfg_default mem5 vec5 ∧
  ∃ v' m', AB_vec_push cfg_default vec5 15 mem5 = Ret (0, v', m') ∧
           vec_ok cfg_default m' v'.
Proof.
  split; [exact vec5_ok |].
  destruct (vec_ok_kept cfg_default vec5 mem5) as (_ & Hkept).
  destruct (Hkept vec5_ok) as (Hpush & _).
  eexists (Vec 6 8 (Some 3%positive) 0), _.
  split; [vm_compute; reflexivity |].
  apply (Hpush 15). vm_compute. reflexivity.
Defined.

Lemma insert_capacity_witness :
  in_size_t 64 19 ∧
  AB_vec_insert_generic cfg_default AB_VEC_INIT 19 mem_empty
    = Ret (0, vec20, Mem {[ 1%positive := replicate 32 Indet ]}
                         [EvRealloc None 0 128 0 (Some 1%positive)]) ∧
  capacity vec20 = 32 ∧ smallest_pow2_gt (19 + 1) (capacity vec20).
Proof.
  assert (in_size_t 64 19) as Hidx by (split; reflexivity || discriminate).
  assert (AB_vec_insert_generic cfg_default AB_VEC_INIT 19 mem_empty
    = Ret (0, vec20, Mem {[ 1%positive := replicate 32 Indet ]}
                         [EvRealloc None 0 128 0 (Some 1%positive)]))
    as Hgen by (vm_compute; reflexivity).
  split; [exact Hidx |]. split; [exact Hgen |]. split; [reflexivity |].
  destruct (insert_capacity cfg_default AB_VEC_INIT 19 2 mem_empty vec20 _
              (mem20 2) Hidx Hgen ltac:(vm_compute; reflexivity))
    as (_ & _ & _ & Hgrown).
  apply Hgrown. simpl. lia.
Defined.

Lemma insert_index_overflow_witness :
  in_size_t 64 (2 ^ 63 - 1) ∧ capacity AB_VEC_INIT ≤ 2 ^ 63 - 1 ∧
  AB_vec_insert cfg_default AB_VEC_INIT (2 ^ 63 - 1) 2 mem_empty = Diverge ∧
  ∃ m', AB_vec_insert cfg_release vec5 (2 ^ 64 - 1) 2 mem5 = Ret (1, vec5, m') ∧
        heap m' = release (elems vec5) (heap mem5) ∧
        AB_vec_at vec5 0 m' = Undef.
Proof.
  assert (in_size_t 64 (2 ^ 63 - 1)) as Hidx by (split; reflexivity || discriminate).
  assert (capacity AB_VEC_INIT ≤ 2 ^ 63 - 1) as Hcap by discriminate.
  assert (in_size_t 64 (2 ^ 64 - 1)) as Hmax by (split; reflexivity || discriminate).
  assert (capacity vec5 ≤ 2 ^ 64 - 1) as Hcap5 by discriminate.
  split; [exact Hidx |]. split; [exact Hcap |]. split.
  - apply (insert_index_overflow cfg_default AB_VEC_INIT (2 ^ 63 - 1) 2 mem_empty
             Hidx Hcap).
    split; reflexivity || discriminate.
  - assert (∃ m', AB_vec_insert cfg_release vec5 (2 ^ 64 - 1) 2 mem5
                  = Ret (1, vec5, m')) as [m' Hins]
      by (eexists; vm_compute; reflexivity).
    destruct (insert_index_overflow cfg_release vec5 (2 ^ 64 - 1) 2 mem5
                Hmax Hcap5) as (_ & Hlast).
    destruct (Hlast eq_refl _ _ _ Hins) as (_ & _ & Hheap & Hat).
    exists m'. split; [exact Hins |]. split; [exact Hheap | apply Hat].
Defined.

Lemma use_after_destroy_witness :
  elems vec5 = Some 3%positive ∧
  ∃ m1, AB_vec_destroy cfg_default vec5 mem5 = Ret (vec5, m1) ∧
        AB_vec_destroy cfg_default vec5 m1 = Undef ∧
        AB_vec_push cfg_default vec5 15 m1 = Undef.
Proof.
  split; [reflexivity |]. eexists.
  assert (AB_vec_destroy cfg_default vec5 mem5
          = Ret (vec5, Mem ∅ (calls mem5 ++ [EvFree (Some 3%positive) 32 0])))
    as Hd by (vm_compute; reflexivity).
  split; [exact Hd |].
  destruct (use_after_destroy cfg_default vec5 mem5 3%positive _ _ eq_refl Hd)
    as (_ & _ & Hagain & Hpush & _).
  split; [exact Hagain | apply Hpush].
Defined.

Lemma pop_push_witness :
  vec_ok cfg_default mem5 vec5 ∧
  AB_vec_pop cfg_default vec5 mem5 = Ret (Val 14, set_num vec5 4, mem5) ∧
  AB_vec_at (set_num vec5 4) 4 mem5 = Ret (Val 14) ∧
  ∃ m2, AB_vec_push cfg_default (set_num vec5 4) 99 mem5 = Ret (0, vec5, m2) ∧
        calls m2 = calls mem5 ∧ AB_vec_at vec5 (num vec5 - 1) m2 = Ret (Val 99).
Proof.
  assert (AB_vec_pop cfg_default vec5 mem5 = Ret (Val 14, set_num vec5 4, mem5))
    as Hp by (vm_compute; reflexivity).
  split; [exact vec5_ok |]. split; [exact Hp |].
  destruct (pop_push cfg_default vec5 mem5 _ _ _ 99 vec5_ok Hp)
    as (_ & _ & _ & _ & Hat & Hpush).
  split; [exact Hat | exact Hpush].
Defined.

Lemma vec5_backed : backed cfg_default mem5 vec5.
Proof. exact (proj1 vec5_ok). Defined.

Lemma copy_independent_witness :
  backed cfg_default mem5 vec5 ∧
  ∃ dest' m', AB_vec_copy cfg_default AB_VEC_INIT vec5 mem5 = Ret (0, dest', m') ∧
    AB_vec_at vec5 2 m' = Ret (Val 12) ∧
    ∀ m'', AB_vec_at_set dest' 2 99 m' = Ret m'' →
           AB_vec_at vec5 2 m'' = AB_vec_at vec5 2 m'.
Proof.
  split; [exact vec5_backed |].
  eexists (Vec 5 8 (Some 4%positive) 0), _.
  split; [vm_compute; reflexivity |].
  destruct (copy_independent cfg_default AB_VEC_INIT vec5 mem5 _ _ vec5_backed
              ltac:(vm_compute; reflexivity)) as (Hsrc & Hapart).
  split; [apply Hsrc; vm_compute; reflexivity |].
  intros m'' Hset. apply (Hapart 2 99 m'' Hset).
Defined.

Lemma copy_slots_witness :
  backed cfg_default mem5 vec5 ∧
  (∃ dest' m', AB_vec_copy cfg_default AB_VEC_INIT vec5 mem5 = Ret (0, dest', m') ∧
     AB_vec_at dest' 6 m' = Ret Indet) ∧
  ∃ m', AB_vec_copy cfg_release_oom AB_VEC_INIT vec5 mem5
          = Ret (1, AB_VEC_INIT, m') ∧
        heap m' = heap mem5.
Proof.
  split; [exact vec5_backed |]. split.
  - eexists (Vec 5 8 (Some 4%positive) 0), _.
    split; [vm_compute; reflexivity |].
    destruct (copy_slots cfg_default AB_VEC_INIT vec5 mem5 vec5_backed) as (Hok & _).
    destruct (Hok _ _ ltac:(vm_compute; reflexivity)) as (Hall & _).
    apply Hall. vm_compute. reflexivity.
  - destruct (copy_slots cfg_release_oom AB_VEC_INIT vec5 mem5 vec5_backed)
      as (_ & Hfail).
    destruct (Hfail [] ltac:(simpl; lia) eq_refl (or_intror eq_refl))
      as (m' & Hcp & _ & Hsame).
    exists m'. split; [exact Hcp |]. apply Hsame. left. reflexivity.
Defined.

Lemma resize_contents_witness :
  in_size_t 64 2 ∧
  ∃ v' m', AB_vec_resize cfg_default vec5 2 mem5 = Ret (0, v', m') ∧
    AB_vec_at v' 1 m' = Ret (Val 11) ∧ AB_vec_at v' 2 m' = Undef.
Proof.
  assert (in_size_t 64 2) as Hn by (split; reflexivity || discriminate).
  split; [exact Hn |].
  assert (∃ m', AB_vec_resize cfg_default vec5 2 mem5
                = Ret (0, Vec 5 2 (Some 4%positive) 0, m')) as [m' Hr]
    by (eexists; vm_compute; reflexivity).
  exists (Vec 5 2 (Some 4%positive) 0), m'. split; [exact Hr |].
  destruct (resize_contents cfg_default vec5 2 mem5 _ _ Hn Hr)
    as (_ & _ & Hkeep & _ & Hnone).
  split.
  - apply Hkeep; [split; reflexivity || discriminate | vm_compute; reflexivity].
  - apply Hnone. discriminate.
Defined.

Lemma at_bounds_witness :
  backed cfg_default mem5 vec5 ∧ elems vec5 = Some 3%positive ∧
  AB_vec_size vec5 = 5 ∧
  (∃ c, AB_vec_at vec5 6 mem5 = Ret c) ∧
  AB_vec_at vec5 8 mem5 = Undef.
Proof.
  split; [exact vec5_backed |]. split; [reflexivity |]. split; [reflexivity |].
  destruct (at_bounds cfg_default vec5 6 0 mem5 3%positive vec5_backed eq_refl
              ltac:(simpl; lia) ltac:(reflexivity)) as (Hin & _).
  destruct (at_bounds cfg_default vec5 8 0 mem5 3%positive vec5_backed eq_refl
              ltac:(simpl; lia) ltac:(reflexivity)) as (_ & Hout).
  split.
  - apply Hin. simpl. lia.
  - apply Hout. right. simpl. lia.
Defined.

Lemma userdata_kept_witness :
  ∃ v' m', AB_vec_push cfg_default vec2 12 mem2 = Ret (0, v', m') ∧
           userdata_frame vec2 mem2 v' m'.
Proof.
  eexists (Vec 3 4 (Some 2%positive) 0), _.
  split; [vm_compute; reflexivity |].
  destruct (userdata_kept cfg_default vec2 mem2) as (_ & Hpush & _).
  apply (Hpush 12 0). vm_compute. reflexivity.
Defined.

Lemma storage_owned_witness :
  owns ∅ mem5 vec5 ∧
  (∀ v' m', AB_vec_destroy cfg_default vec5 mem5 = Ret (v', m') → heap m' = ∅) ∧
  (∃ v' m', AB_vec_push cfg_default vec5 15 mem5 = Ret (0, v', m') ∧
            owns ∅ m' v') ∧
  (∃ m', AB_vec_resize cfg_release vec5 0 mem5 = Ret (1, vec5, m') ∧
         heap m' = ∅).
Proof.
  assert (owns ∅ mem5 vec5) as Hown.
  { split; [reflexivity |]. eexists. reflexivity. }
  split; [exact Hown |]. split; [| split].
  - destruct (storage_owned cfg_default ∅ vec5 mem5 Hown)
      as (_ & _ & _ & _ & _ & Hdestroy).
    exact Hdestroy.
  - assert (∃ v' m', AB_vec_push cfg_default vec5 15 mem5 = Ret (0, v', m'))
      as (v' & m' & Hpush) by (eexists _, _; vm_compute; reflexivity).
    destruct (storage_owned cfg_default ∅ vec5 mem5 Hown) as (Hp & _).
    exists v', m'. split; [exact Hpush |].
    destruct (Hp _ _ _ _ Hpush) as [Hown' | (Hr & _)];
      [exact Hown' | discriminate Hr].
  - assert (∃ m', AB_vec_resize cfg_release vec5 0 mem5 = Ret (1, vec5, m'))
      as (m' & Hres) by (eexists; vm_compute; reflexivity).
    destruct (storage_owned cfg_release ∅ vec5 mem5 Hown)
      as (_ & _ & _ & Hr & _).
    exists m'. split; [exact Hres |].
    destruct (Hr _ _ _ _ Hres) as [Hown' | (_ & _ & Hfreed)]; [| exact Hfreed].
    exfalso. destruct Hown' as (_ & blk & Hheap).
    assert (heap m' !! 3%positive = None) as Hnone.
    { assert (Ret (1, vec5, m') = AB_vec_resize cfg_release vec5 0 mem5) as E
        by (symmetry; exact Hres).
      vm_compute in E. injection E as ->. reflexivity. }
    rewrite Hheap, lookup_insert_eq in Hnone. discriminate Hnone.
Defined.

Lemma pushes_destroy_witness :
  pushes cfg_default AB_VEC_INIT mem_empty [10; 11; 12; 13; 14] vec5 mem5 ∧
  ∃ m'', AB_vec_destroy cfg_default vec5 mem5 = Ret (vec5, m'') ∧
         heap m'' = heap mem_empty.
Proof.
  split; [exact pushes_vec5 |].
  exact (pushes_destroy cfg_default _ _ _ _ pushes_vec5).
Defined.

Lemma pushes_allocations_witness :
  pushes cfg_default AB_VEC_INIT mem_empty [10; 11; 12; 13; 14] vec5 mem5 ∧
  ∃ j : nat, (1 ≤ j)%nat ∧ capacity vec5 = 2 ^ Z.of_nat j ∧
             length (calls mem5) = (length (calls mem_empty) + j)%nat.
Proof.
  split; [exact pushes_vec5 |].
  exact (pushes_allocations cfg_default [10; 11; 12; 13; 14] mem_empty vec5 mem5
           ltac:(discriminate) pushes_vec5).
Defined.

Lemma shrunk_vector_witness :
  ∃ v' m', AB_vec_resize cfg_default vec5 2 mem5 = Ret (0, v', m') ∧
    backed cfg_default m' v' ∧ 0 ≤ capacity v' < num v' ∧
    AB_vec_push cfg_default v' 7 m' = Undef ∧
    AB_vec_pop cfg_default v' m' = Undef.
Proof.
  eexists (Vec 5 2 (Some 4%positive) 0), _.
  split; [vm_compute; reflexivity |].
  match goal with |- backed ?c ?m ?v ∧ _ =>
    assert (backed c m v) as Hb
      by (eexists; split; [vm_compute; reflexivity | reflexivity])
  end.
  split; [exact Hb |]. split; [simpl; lia |].
  exact (shrunk_vector cfg_default _ 7 _ Hb ltac:(simpl; lia)
           ltac:(split; reflexivity || discriminate)).
Defined.

(** ** C3: scenario B of the specification, and a vector that has been
    shrunk *)

(** C3, as stated, fails at an index below the length on a vector that
    [AB_vec_resize] has left with its length above its capacity: the
    insertion at [idx = 3 < length = 5] is successful and changes the
    capacity, from [2] to [8]. *)
Lemma insert_shrunk_counterexample :
  ∃ v m v' m',
    AB_vec_resize cfg_default vec5 2 mem5 = Ret (0, v, m) ∧
    3 < num v ∧
    AB_vec_insert cfg_default v 3 7 m = Ret (7, v', m') ∧
    AB_vec_at v' 3 m' = Ret (Val 7) ∧
    num v' = num v ∧
    capacity v = 2 ∧ capacity v' = 8 ∧ capacity v' ≠ capacity v.
Proof.
  eexists (Vec 5 2 (Some 4%positive) 0), _, (Vec 5 8 (Some 5%positive) 0), _.
  split; [vm_compute; reflexivity |].
  split; [reflexivity |].
  split; [vm_compute; reflexivity |].
  split; [vm_compute; reflexivity |].
  split; [reflexivity |]. split; [reflexivity |]. split; [reflexivity |].
  discriminate.
Qed.

Lemma insert_at_index_witness :
  backed cfg_default mem_empty AB_VEC_INIT ∧
  (∃ v' m', AB_vec_insert cfg_default AB_VEC_INIT 19 2 mem_empty = Ret (2, v', m') ∧
            AB_vec_at v' 19 m' = Ret (Val 2) ∧ num v' = 19 + 1 ∧
            smallest_pow2_gt (19 + 1) (capacity v')) ∧
  (∃ v' m', AB_vec_insert cfg_default vec5 2 99 mem5 = Ret (99, v', m') ∧
            AB_vec_at v' 2 m' = Ret (Val 99) ∧ num v' = num vec5 ∧
            capacity v' = capacity vec5 ∧
            AB_vec_at v' 3 m' = AB_vec_at vec5 3 mem5).
Proof.
  assert (backed cfg_default mem_empty AB_VEC_INIT) as Hinit by reflexivity.
  split; [exact Hinit |]. split.
  - destruct (insert_at_index cfg_default AB_VEC_INIT 19 2 mem_empty Hinit
                ltac:(lia) ltac:(simpl; lia) ltac:(reflexivity)
                (λ _, eq_refl) (λ _ _ _, eq_refl))
      as (v' & m' & Hins & Hat & Hnum & _ & _ & Hgrow & _).
    exists v', m'. split; [exact Hins |]. split; [exact Hat |].
    split; [apply Hnum; simpl; lia |]. apply Hgrow. simpl. lia.
  - destruct (insert_at_index cfg_default vec5 2 99 mem5 vec5_backed
                ltac:(lia) ltac:(simpl; lia) ltac:(reflexivity)
                (λ _, eq_refl) (λ _ _ _, eq_refl))
      as (v' & m' & Hins & Hat & _ & Hnum & Hplain & _).
    destruct (Hplain ltac:(simpl; lia)) as (Hcap & _ & _ & Hother).
    exists v', m'. split; [exact Hins |]. split; [exact Hat |].
    split; [apply Hnum; simpl; lia |]. split; [exact Hcap |].
    apply Hother. lia.
Defined.
